(** * kaa.base: coroutine engine and main-loop/thread bridge

    A shallow embedding of [src/coroutine.py] and [src/thread.py].
    Python objects with identity (InProgress objects, locks) live in a heap
    indexed by natural numbers; methods are state transformers in a small
    exception monad; unbounded loops and recursion take fuel. *)

From Stdlib Require Import ZArith Lia Sorted.
From stdpp Require Import gmap list.

Set Default Proof Using "Type".

(** ** Python-level vocabulary shared by both modules *)

(** The exceptions the code distinguishes by class. *)
Inductive pyexc : Type :=
| GeneratorExit
| StopIteration
| SystemExit
| KeyboardInterrupt
| RuntimeError
| ValueError
| AttributeError
| TypeError
| UserError (n : nat).

Global Instance pyexc_eq_dec : EqDecision pyexc.
Proof. solve_decision. Defined.

(** [isinstance(e, (SystemExit, KeyboardInterrupt))] *)
Definition is_host_fatal (e : pyexc) : bool :=
  match e with
  | SystemExit | KeyboardInterrupt => true
  | _ => false
  end.

(** Plain (non-InProgress) Python values. *)
Inductive pyval : Type :=
| PyNone
| PyInt (z : Z).

Global Instance pyval_eq_dec : EqDecision pyval.
Proof. solve_decision. Defined.

(** Outcome of a Python call: a returned value or a raised exception. *)
Inductive res (A : Type) : Type :=
| Ret (a : A)
| Exc (e : pyexc).
Arguments Ret {A} a.
Arguments Exc {A} e.

(** [list.remove(x)]: drops the first element equal to [x]. *)
Fixpoint list_remove_first (x : nat) (l : list nat) : list nat :=
  match l with
  | [] => []
  | y :: l' => if decide (x = y) then l' else y :: list_remove_first x l'
  end.

(** [l[-1]] for a non-empty list. *)
Definition py_last (l : list nat) : option nat := last l.

Module Coroutine.

(** ** Data model of coroutine.py *)

(** What a generator hands back at a [yield]. *)
Inductive yielded : Type :=
| NotFinished                 (* the module-level sentinel object *)
| YInProgress (p : nat)       (* an InProgress instance *)
| YValue (v : pyval).         (* anything else *)

(** How a generator is resumed: [next()], [send(v)], [throw(e)]. *)
Inductive resume_with : Type :=
| RNext
| RSend (v : pyval)
| RThrow (e : pyexc).

(** One run of generator code up to the next suspension point. *)
Inductive gen_outcome (S : Type) : Type :=
| GYield (y : yielded) (s : S)
| GReturn
| GRaise (e : pyexc).
Arguments GYield {S} y s.
Arguments GReturn {S}.
Arguments GRaise {S} e.

(** A generator object: created but not started, suspended at a yield,
    or exhausted. *)
Inductive generator (S : Type) : Type :=
| GenFresh (s : S)
| GenSuspended (s : S)
| GenExhausted.
Arguments GenFresh {S} s.
Arguments GenSuspended {S} s.
Arguments GenExhausted {S}.

Inductive policy_kind : Type :=
| POLICY_SYNCHRONIZED
| POLICY_SINGLETON
| POLICY_PASS_LAST.

Global Instance policy_kind_eq_dec : EqDecision policy_kind.
Proof. solve_decision. Defined.

(** Callables the engine connects to InProgress signals. *)
Inductive observer : Type :=
| ObsContinue (t : nat)          (* CoroutineInProgress._continue of t *)
| ObsTryAgain (t : nat)          (* CoroutineLockedInProgress._try_again of t *)
| ObsCb (k : nat) (t : nat)      (* the closure cb of wrap: last.remove(t) *)
| ObsUser (n : nat).             (* a callback of the application *)

Global Instance observer_eq_dec : EqDecision observer.
Proof. solve_decision. Defined.

(** Modelled from the spec: the Timer of timer.py (not in src), section 4.2:
    [start(d)] schedules, [stop()] cancels, [active()] tells. *)
Record timer : Type := Timer { t_active : bool; t_interval : Z }.

Definition timer_start (d : Z) (tm : timer) : timer :=
  {| t_active := true; t_interval := d |}.
Definition timer_stop (tm : timer) : timer :=
  {| t_active := false; t_interval := t_interval tm |}.

(** What a user observer was called with. *)
Inductive notice : Type :=
| NoticeValue (v : pyval)
| NoticeError (e : pyexc).

(** One entry of the generator-resumption log. *)
Inductive directive : Type :=
| DContinueNow
| DAwait (p : nat) (terminal : bool)
| DDone (v : pyval)
| DRaised (e : pyexc).

Section Engine.

Context {GenState : Type}.

(** The fields CoroutineInProgress adds to InProgress. *)
Record co_fields : Type := CoFields {
  _coroutine : option (generator GenState);
  _timer : option timer;
  _interval : Z;
  _prerequisite_ip : option nat;
  _locked : bool                (* instance of CoroutineLockedInProgress *)
}.

(** An InProgress object; [ip_co] is set for CoroutineInProgress instances.
    Modelled from the spec: the base class of async.py (not in src),
    sections 3 and 4.1. *)
Record inprogress : Type := InProgress {
  finished : bool;
  _result : pyval;
  _exception : option pyexc;
  _unhandled_exception : option pyexc;
  sig_finished : list observer;
  sig_exception : list observer;
  progress_obj : option nat;
  ip_co : option co_fields
}.

Record state : Type := State {
  heap : gmap nat inprogress;
  next_progress : nat;  (* counter naming Progress objects *)
  _active_coroutines : gset nat;
  store_last : gmap nat (list nat);  (* DecoratorDataStore(...).last, per key *)
  func_lock : option nat;  (* func._lock *)
  advances : list (nat * directive);  (* log: generator resumptions *)
  closes : list nat;  (* log: generator.close() calls *)
  notices : list (nat * nat * notice);  (* log: user observer, promise, payload *)
  warnings : list nat;  (* log: 'ignored GeneratorExit' lines *)
  calls : list (nat * option (option nat));  (* log: key and kwargs['last'] of each call of func *)
  issued : list (nat * nat)  (* log: key and task of each task handed out *)
}.

Definition blank_ip : inprogress :=
  {| finished := false; _result := PyNone; _exception := None;
     _unhandled_exception := None; sig_finished := []; sig_exception := [];
     progress_obj := None; ip_co := None |}.

(** The object an identity denotes. *)
Definition obj (σ : state) (p : nat) : inprogress :=
  default blank_ip (heap σ !! p).

Definition set_heap (h : gmap nat inprogress) (σ : state) : state :=
  {| heap := h; next_progress := next_progress σ;
     _active_coroutines := _active_coroutines σ; store_last := store_last σ;
     func_lock := func_lock σ; advances := advances σ; closes := closes σ;
     notices := notices σ; warnings := warnings σ; calls := calls σ;
     issued := issued σ |}.

(** Attribute assignment on the object [p]. *)
Definition update (p : nat) (f : inprogress -> inprogress) (σ : state) : state :=
  set_heap (<[p := f (obj σ p)]> (heap σ)) σ.

Definition set_co (f : co_fields -> co_fields) (x : inprogress) : inprogress :=
  {| finished := finished x; _result := _result x; _exception := _exception x;
     _unhandled_exception := _unhandled_exception x;
     sig_finished := sig_finished x; sig_exception := sig_exception x;
     progress_obj := progress_obj x; ip_co := f <$> ip_co x |}.

Definition update_co (t : nat) (f : co_fields -> co_fields) (σ : state) : state :=
  update t (set_co f) σ.

Definition set_store_last (k : nat) (l : list nat) (σ : state) : state :=
  {| heap := heap σ; next_progress := next_progress σ;
     _active_coroutines := _active_coroutines σ;
     store_last := <[k := l]> (store_last σ); func_lock := func_lock σ;
     advances := advances σ; closes := closes σ; notices := notices σ;
     warnings := warnings σ; calls := calls σ; issued := issued σ |}.

Definition set_func_lock (l : option nat) (σ : state) : state :=
  {| heap := heap σ; next_progress := next_progress σ;
     _active_coroutines := _active_coroutines σ; store_last := store_last σ;
     func_lock := l; advances := advances σ; closes := closes σ;
     notices := notices σ; warnings := warnings σ; calls := calls σ;
     issued := issued σ |}.

Definition set_active (s : gset nat) (σ : state) : state :=
  {| heap := heap σ; next_progress := next_progress σ;
     _active_coroutines := s; store_last := store_last σ;
     func_lock := func_lock σ; advances := advances σ; closes := closes σ;
     notices := notices σ; warnings := warnings σ; calls := calls σ;
     issued := issued σ |}.

Definition bump_progress (σ : state) : state :=
  {| heap := heap σ; next_progress := S (next_progress σ);
     _active_coroutines := _active_coroutines σ; store_last := store_last σ;
     func_lock := func_lock σ; advances := advances σ; closes := closes σ;
     notices := notices σ; warnings := warnings σ; calls := calls σ;
     issued := issued σ |}.

Definition log_advance (t : nat) (d : directive) (σ : state) : state :=
  {| heap := heap σ; next_progress := next_progress σ;
     _active_coroutines := _active_coroutines σ; store_last := store_last σ;
     func_lock := func_lock σ; advances := advances σ ++ [(t, d)];
     closes := closes σ; notices := notices σ; warnings := warnings σ;
     calls := calls σ; issued := issued σ |}.

Definition log_close (t : nat) (σ : state) : state :=
  {| heap := heap σ; next_progress := next_progress σ;
     _active_coroutines := _active_coroutines σ; store_last := store_last σ;
     func_lock := func_lock σ; advances := advances σ;
     closes := closes σ ++ [t]; notices := notices σ;
     warnings := warnings σ; calls := calls σ; issued := issued σ |}.

Definition log_notice (n p : nat) (x : notice) (σ : state) : state :=
  {| heap := heap σ; next_progress := next_progress σ;
     _active_coroutines := _active_coroutines σ; store_last := store_last σ;
     func_lock := func_lock σ; advances := advances σ; closes := closes σ;
     notices := notices σ ++ [(n, p, x)]; warnings := warnings σ;
     calls := calls σ; issued := issued σ |}.

Definition log_warning (t : nat) (σ : state) : state :=
  {| heap := heap σ; next_progress := next_progress σ;
     _active_coroutines := _active_coroutines σ; store_last := store_last σ;
     func_lock := func_lock σ; advances := advances σ; closes := closes σ;
     notices := notices σ; warnings := warnings σ ++ [t]; calls := calls σ;
     issued := issued σ |}.

Definition log_call (k : nat) (kw : option (option nat)) (σ : state) : state :=
  {| heap := heap σ; next_progress := next_progress σ;
     _active_coroutines := _active_coroutines σ; store_last := store_last σ;
     func_lock := func_lock σ; advances := advances σ; closes := closes σ;
     notices := notices σ; warnings := warnings σ;
     calls := calls σ ++ [(k, kw)]; issued := issued σ |}.

Definition log_issue (k t : nat) (σ : state) : state :=
  {| heap := heap σ; next_progress := next_progress σ;
     _active_coroutines := _active_coroutines σ; store_last := store_last σ;
     func_lock := func_lock σ; advances := advances σ; closes := closes σ;
     notices := notices σ; warnings := warnings σ; calls := calls σ;
     issued := issued σ ++ [(k, t)] |}.

(** ** The exception monad with fuel *)

Definition M (A : Type) : Type := state -> option (res A * state).

Definition ret {A} (a : A) : M A := fun σ => Some (Ret a, σ).
Definition raise {A} (e : pyexc) : M A := fun σ => Some (Exc e, σ).
Definition diverge {A} : M A := fun _ => None.
Definition bind {A B} (m : M A) (k : A -> M B) : M B :=
  fun σ =>
    match m σ with
    | None => None
    | Some (Ret a, σ') => k a σ'
    | Some (Exc e, σ') => Some (Exc e, σ')
    end.
Definition modify (f : state -> state) : M unit := fun σ => Some (Ret tt, f σ).
Definition gets {A} (f : state -> A) : M A := fun σ => Some (Ret (f σ), σ).

(** [try: m  except BaseException, e: h e] *)
Definition try_except {A} (m : M A) (h : pyexc -> M A) : M A :=
  fun σ =>
    match m σ with
    | Some (Exc e, σ') => h e σ'
    | r => r
    end.

(** [try: m  finally: f] for a cleanup [f] that only assigns fields. *)
Definition try_finally {A} (m : M A) (f : state -> state) : M A :=
  fun σ =>
    match m σ with
    | None => None
    | Some (r, σ') => Some (r, f σ')
    end.


(** ** Field assignments *)

Definition with_outcome (r : pyval) (e u : option pyexc) (x : inprogress)
  : inprogress :=
  {| finished := true; _result := r; _exception := e;
     _unhandled_exception := u;
     sig_finished := sig_finished x; sig_exception := sig_exception x;
     progress_obj := progress_obj x; ip_co := ip_co x |}.

Definition with_unhandled (u : option pyexc) (x : inprogress) : inprogress :=
  {| finished := finished x; _result := _result x; _exception := _exception x;
     _unhandled_exception := u;
     sig_finished := sig_finished x; sig_exception := sig_exception x;
     progress_obj := progress_obj x; ip_co := ip_co x |}.

Definition with_signals (sf se : list observer) (x : inprogress) : inprogress :=
  {| finished := finished x; _result := _result x; _exception := _exception x;
     _unhandled_exception := _unhandled_exception x;
     sig_finished := sf; sig_exception := se;
     progress_obj := progress_obj x; ip_co := ip_co x |}.

Definition with_progress (pr : option nat) (x : inprogress) : inprogress :=
  {| finished := finished x; _result := _result x; _exception := _exception x;
     _unhandled_exception := _unhandled_exception x;
     sig_finished := sig_finished x; sig_exception := sig_exception x;
     progress_obj := pr; ip_co := ip_co x |}.

Definition with_timer (tm : option timer) (c : co_fields) : co_fields :=
  {| _coroutine := _coroutine c; _timer := tm; _interval := _interval c;
     _prerequisite_ip := _prerequisite_ip c; _locked := _locked c |}.

Definition with_coroutine (g : option (generator GenState)) (c : co_fields)
  : co_fields :=
  {| _coroutine := g; _timer := _timer c; _interval := _interval c;
     _prerequisite_ip := _prerequisite_ip c; _locked := _locked c |}.

Definition with_prerequisite (p : option nat) (c : co_fields) : co_fields :=
  {| _coroutine := _coroutine c; _timer := _timer c; _interval := _interval c;
     _prerequisite_ip := p; _locked := _locked c |}.

Definition with_interval (d : Z) (c : co_fields) : co_fields :=
  {| _coroutine := _coroutine c; _timer := _timer c; _interval := d;
     _prerequisite_ip := _prerequisite_ip c; _locked := _locked c |}.

(** The coroutine fields of [t]; a plain InProgress has none. *)
Definition co (σ : state) (t : nat) : option co_fields := ip_co (obj σ t).

(** [isinstance(p, CoroutineInProgress)] *)
Definition is_coroutine (σ : state) (p : nat) : bool :=
  bool_decide (is_Some (co σ p)).

(** [self._coroutine], [self._timer], [self._prerequisite_ip] of [t]. *)
Definition coroutine_of (σ : state) (t : nat) : option (generator GenState) :=
  c ← co σ t; _coroutine c.
Definition timer_of (σ : state) (t : nat) : option timer :=
  c ← co σ t; _timer c.
Definition prerequisite_of (σ : state) (t : nat) : option nat :=
  c ← co σ t; _prerequisite_ip c.

(** ** Observers and signals *)

(** [CoroutineInProgress._continue]: restart the timer, when there is one. *)
Definition _continue (t : nat) (σ : state) : state :=
  update_co t
    (fun c =>
       match _timer c with
       | Some tm => with_timer (Some (timer_start (_interval c) tm)) c
       | None => c
       end) σ.

(** Appending one callable to each signal of [p], without firing. *)
Definition register_both (p : nat) (f g : observer) (σ : state) : state :=
  update p (fun x => with_signals (sig_finished x ++ [f]) (sig_exception x ++ [g]) x) σ.

(** [CoroutineLockedInProgress._try_again].  The lock it connects to was
    just seen unfinished, so connecting is plain registration. *)
Definition _try_again (t : nat) (σ : state) : state :=
  match func_lock σ with
  | Some l =>
      if negb (finished (obj σ l))
      then register_both l (ObsTryAgain t) (ObsTryAgain t) σ
      else _continue t (set_func_lock (Some t) σ)
  | None => σ
  end.

(** The closure [cb] of [wrap]: [last.remove(obj)]. *)
Definition cb (k t : nat) (σ : state) : state :=
  match store_last σ !! k with
  | Some l => set_store_last k (list_remove_first t l) σ
  | None => σ
  end.

(** Calling one observer of promise [p] with payload [x]. *)
Definition run_observer (p : nat) (x : notice) (σ : state) (o : observer)
  : state :=
  match o with
  | ObsContinue t => _continue t σ
  | ObsTryAgain t => _try_again t σ
  | ObsCb k t => cb k t σ
  | ObsUser n => log_notice n p x σ
  end.

(** Signal emission: the callables run in registration order. *)
Definition emit (p : nat) (x : notice) (obs : list observer) (σ : state)
  : state :=
  foldl (run_observer p x) σ obs.

(** Modelled from the spec: InProgress.connect_both of async.py (not in
    src), section 4.1: register on both channels; on a terminal promise
    fire at once with the stored outcome, and an exception observer clears
    the unhandled marker. *)
Definition connect_both (p : nat) (f g : observer) (σ : state) : state :=
  let x := obj σ p in
  if finished x then
    match _exception x with
    | Some e => run_observer p (NoticeError e) (update p (with_unhandled None) σ) g
    | None => run_observer p (NoticeValue (_result x)) σ f
    end
  else register_both p f g σ.

(** [p.disconnect(f)] and [p.exception.disconnect(f)] *)
Definition disconnect_both (p : nat) (f : observer) (σ : state) : state :=
  update p
    (fun x =>
       with_signals (filter (fun o => o ≠ f) (sig_finished x))
                    (filter (fun o => o ≠ f) (sig_exception x)) x) σ.

(** Modelled from the spec: InProgress.finish of async.py (not in src),
    section 4.1: AlreadySet on a terminal promise, else store the value and
    notify the value observers in registration order. *)
Definition ip_finish (p : nat) (v : pyval) : M unit :=
  fun σ =>
    let x := obj σ p in
    if finished x then Some (Exc RuntimeError, σ)
    else
      let σ1 := update p (with_outcome v None None) σ in
      let σ2 := emit p (NoticeValue v) (sig_finished x) σ1 in
      Some (Ret tt, update p (with_signals [] []) σ2).

(** Modelled from the spec: InProgress.throw of async.py (not in src),
    section 4.1: the dual of finish; the failure is unhandled unless an
    exception observer hears it. *)
Definition ip_throw (p : nat) (e : pyexc) : M unit :=
  fun σ =>
    let x := obj σ p in
    if finished x then Some (Exc RuntimeError, σ)
    else
      let u := match sig_exception x with [] => Some e | _ => None end in
      let σ1 := update p (with_outcome PyNone (Some e) u) σ in
      let σ2 := emit p (NoticeError e) (sig_exception x) σ1 in
      Some (Ret tt, update p (with_signals [] []) σ2).

(** ** Generators *)

Context (resume : GenState -> resume_with -> gen_outcome GenState).

Definition classify (σ : state) (o : gen_outcome GenState) : directive :=
  match o with
  | GYield NotFinished _ => DContinueNow
  | GYield (YInProgress p) _ => DAwait p (finished (obj σ p))
  | GYield (YValue v) _ => DDone v
  | GReturn => DDone PyNone
  | GRaise StopIteration => DDone PyNone
  | GRaise e => DRaised e
  end.

(** Running the generator of [t] from state [s] up to its next suspension. *)
Definition gen_run (t : nat) (s : GenState) (r : resume_with) : M yielded :=
  fun σ =>
    let o := resume s r in
    let σ1 := log_advance t (classify σ o) σ in
    match o with
    | GYield y s' =>
        Some (Ret y, update_co t (with_coroutine (Some (GenSuspended s'))) σ1)
    | GReturn =>
        Some (Exc StopIteration, update_co t (with_coroutine (Some GenExhausted)) σ1)
    | GRaise e =>
        Some (Exc e, update_co t (with_coroutine (Some GenExhausted)) σ1)
    end.

(** [generator.next()], [generator.send(v)], [generator.throw(e)] on the
    [_coroutine] attribute of [t]. *)
Definition gen_resume (t : nat) (r : resume_with) : M yielded :=
  fun σ =>
    match co σ t with
    | None => Some (Exc AttributeError, σ)
    | Some c =>
        match _coroutine c with
        | None => Some (Exc AttributeError, σ)
        | Some GenExhausted =>
            match r with
            | RThrow e => Some (Exc e, σ)
            | _ => Some (Exc StopIteration, σ)
            end
        | Some (GenFresh s) =>
            match r with
            | RThrow e =>
                Some (Exc e, update_co t (with_coroutine (Some GenExhausted)) σ)
            | RSend (PyInt _) => Some (Exc TypeError, σ)
            | _ => gen_run t s RNext σ
            end
        | Some (GenSuspended s) => gen_run t s r σ
        end
    end.

(** [generator.close()] on the [_coroutine] attribute of [t]. *)
Definition gen_close (t : nat) : M unit :=
  fun σ =>
    match co σ t with
    | None => Some (Exc AttributeError, σ)
    | Some c =>
        match _coroutine c with
        | None => Some (Exc AttributeError, σ)
        | Some GenExhausted => Some (Ret tt, log_close t σ)
        | Some (GenFresh _) =>
            Some (Ret tt, update_co t (with_coroutine (Some GenExhausted)) (log_close t σ))
        | Some (GenSuspended s) =>
            let σ1 := log_close t σ in
            match resume s (RThrow GeneratorExit) with
            | GYield _ s' =>
                Some (Exc RuntimeError,
                      update_co t (with_coroutine (Some (GenSuspended s'))) σ1)
            | GReturn | GRaise GeneratorExit | GRaise StopIteration =>
                Some (Ret tt, update_co t (with_coroutine (Some GenExhausted)) σ1)
            | GRaise e =>
                Some (Exc e, update_co t (with_coroutine (Some GenExhausted)) σ1)
            end
        end
    end.


(** ** CoroutineInProgress *)

Notation "'let*' x ':=' m 'in' k" := (bind m (fun x => k))
  (at level 10, x name, m at level 100, k at level 200, only parsing).
Notation "m ;;; k" := (bind m (fun _ => k))
  (at level 100, k at level 200, right associativity, only parsing).

(** [_process(generator, inprogress)], with the generator of task [t]. *)
Definition _process (t : nat) (inprogress : option nat) : M yielded :=
  match inprogress with
  | Some p =>
      let* x := gets (fun σ => obj σ p) in
      match _exception x with
      | Some e =>
          modify (update p (with_unhandled None)) ;;;
          gen_resume t (RThrow e)
      | None => gen_resume t (RSend (_result x))
      end
  | None => gen_resume t RNext
  end.

(** The cleanup of the [finally] clause of [_stop]. *)
Definition release (t : nat) (σ : state) : state :=
  update_co t
    (fun c => with_prerequisite None (with_coroutine None (with_timer None c))) σ.

(** [if self._timer and self._timer.active(): self._timer.stop()] *)
Definition stop_timer (t : nat) (σ : state) : state :=
  update_co t
    (fun c =>
       match _timer c with
       | Some tm => if t_active tm then with_timer (Some (timer_stop tm)) c else c
       | None => c
       end) σ.

(** The [try ... finally] part of [_stop]: fail the promise when aborting
    and somebody listens, close the generator, drop the references. *)
Definition finalize (t : nat) (fin : bool) : M unit :=
  try_finally
    ((if fin then ret tt
      else
        let* n := gets (fun σ => length (sig_exception (obj σ t))) in
        if bool_decide (n = 0) then ret tt else ip_throw t GeneratorExit) ;;;
     try_except (gen_close t)
       (fun e =>
          match e with
          | RuntimeError => modify (log_warning t)
          | _ => raise e
          end))
    (release t).

(** The part of [_stop] before the [try]: stop the timer, leave
    [_active_coroutines], stop a prerequisite that is a coroutine;
    [stop_prereq] is [self._prerequisite_ip.stop()]. *)
Definition propagate (stop_prereq : nat -> M unit) (t : nat) : M unit :=
  modify (stop_timer t) ;;;
  modify (fun σ => set_active (_active_coroutines σ ∖ {[t]}) σ) ;;;
  let* pre := gets (fun σ => prerequisite_of σ t) in
  match pre with
  | Some p =>
      let* isco := gets (fun σ => is_coroutine σ p) in
      if isco then
        modify (disconnect_both p (ObsContinue t)) ;;;
        stop_prereq p
      else ret tt
  | None => ret tt
  end.

(** [CoroutineInProgress._stop(finished)], mutually recursive with [stop]
    through the prerequisite. *)
Fixpoint _stop (fuel : nat) (t : nat) (fin : bool) : M unit :=
  match fuel with
  | 0 => diverge
  | S fuel' =>
      propagate
        (fun p =>
           let* g := gets (fun σ => coroutine_of σ p) in
           match g with
           | Some _ => _stop fuel' p false
           | None => ret tt
           end) t ;;;
      finalize t fin
  end.

(** [CoroutineInProgress.stop] *)
Definition stop (fuel : nat) (t : nat) : M unit :=
  let* g := gets (fun σ => coroutine_of σ t) in
  match g with
  | Some _ => _stop fuel t false
  | None => ret tt
  end.

(** [CoroutineInProgress.throw]: stop, then fail the promise. *)
Definition throw (fuel : nat) (t : nat) (e : pyexc) : M unit :=
  _stop fuel t true ;;; ip_throw t e.

(** How one pass through the body of the [while True] loop leaves it. *)
Inductive loop_exit : Type :=
| LReturn (b : bool)
| LBreak (v : pyval)
| LAgain.

(** [CoroutineInProgress._step] *)
Fixpoint _step (fuel : nat) (t : nat) : M bool :=
  match fuel with
  | 0 => diverge
  | S fuel' =>
      let* x := try_except
            (let* pre := gets (fun σ => prerequisite_of σ t) in
             let* result := _process t pre in
             modify (update_co t (with_prerequisite None)) ;;;
             match result with
             | NotFinished => ret (LReturn true)
             | YValue v => ret (LBreak v)
             | YInProgress p =>
                 modify (update_co t (with_prerequisite (Some p))) ;;;
                 let* f := gets (fun σ => finished (obj σ p)) in
                 if f then ret LAgain
                 else
                   modify (connect_both p (ObsContinue t) (ObsContinue t)) ;;;
                   ret (LReturn false)
             end)
            (fun e =>
               match e with
               | StopIteration => ret (LBreak PyNone)
               | _ =>
                   throw fuel' t e ;;;
                   if is_host_fatal e then raise e else ret (LReturn false)
               end) in
      match x with
      | LReturn b => ret b
      | LBreak v => _stop fuel' t true ;;; ip_finish t v ;;; ret false
      | LAgain => _step fuel' t
      end
  end.

(** [CoroutineInProgress.set_interval] *)
Definition set_interval (t : nat) (d : Z) (σ : state) : state :=
  update_co t
    (fun c =>
       with_interval d
         match _timer c with
         | Some tm => if t_active tm then with_timer (Some (timer_start d tm)) c else c
         | None => c
         end) σ.

(** [InProgress.__init__]: a new object, under an identity not in use. *)
Definition InProgress_init : M nat :=
  fun σ =>
    let p := fresh (dom (heap σ)) in
    Some (Ret p, set_heap (<[p := blank_ip]> (heap σ)) σ).

(** Turning a new InProgress into a CoroutineInProgress with fields [c]. *)
Definition make_co (c : co_fields) (x : inprogress) : inprogress :=
  {| finished := finished x; _result := _result x;
     _exception := _exception x;
     _unhandled_exception := _unhandled_exception x;
     sig_finished := sig_finished x; sig_exception := sig_exception x;
     progress_obj := progress_obj x; ip_co := Some c |}.

(** [CoroutineInProgress.__init__(function, function_info, interval,
    progress)]; [function_info] only feeds the log line. *)
Definition CoroutineInProgress_init (function : generator GenState)
    (interval : Z) (progress : option yielded) (locked : bool) : M nat :=
  let* t := InProgress_init in
  modify (update t (make_co {| _coroutine := Some function;
                               _timer := Some (Timer false 0);
                               _interval := interval;
                               _prerequisite_ip := None;
                               _locked := locked |})) ;;;
  modify (fun σ => set_active (_active_coroutines σ ∪ {[t]}) σ) ;;;
  match progress with
  | None => ret t
  | Some NotFinished =>
      modify (update_co t (fun c =>
        with_timer (timer_start interval <$> _timer c) c)) ;;;
      ret t
  | Some (YInProgress p) =>
      modify (update_co t (with_prerequisite (Some p))) ;;;
      modify (connect_both p (ObsContinue t) (ObsContinue t)) ;;;
      ret t
  | Some (YValue _) => raise AttributeError
  end.

(** [CoroutineLockedInProgress.__init__] *)
Definition CoroutineLockedInProgress_init (function : generator GenState)
    (interval : Z) : M nat :=
  let* t := CoroutineInProgress_init function interval None true in
  let* l := gets func_lock in
  match l with
  | Some l =>
      modify (connect_both l (ObsTryAgain t) (ObsTryAgain t)) ;;; ret t
  | None => raise AttributeError
  end.

(** ** The decorator *)

Inductive func_result : Type :=
| FGenerator (s : GenState)       (* a generator object *)
| FOther                          (* an object without [next] *)
| FRaise (e : pyexc).

Context {args : Type}.
Context (key_of : args -> nat).
Context (func : option nat -> args -> option (option nat) -> func_result).
Context (policy : option policy_kind) (interval : Z) (progress : bool).

(** The [last] list of the store of key [k]. *)
Definition last_of (k : nat) (σ : state) : list nat :=
  default [] (store_last σ !! k).

(** [policy in (POLICY_SINGLETON, POLICY_PASS_LAST)] *)
Definition tracks_last : bool :=
  match policy with
  | Some POLICY_SINGLETON | Some POLICY_PASS_LAST => true
  | _ => false
  end.

(** The inner function [wrap] of [newfunc]; [k] names the store whose
    [last] list the closure holds, [pr] is [args[0]] under [progress]. *)
Definition wrap (k : nat) (pr : option nat) (o : nat) : M nat :=
  (if progress then modify (update o (with_progress pr)) else ret tt) ;;;
  let* f := gets (fun σ => finished (obj σ o)) in
  (if tracks_last && negb f then
     modify (fun σ => set_store_last k (last_of k σ ++ [o]) σ) ;;;
     modify (connect_both o (ObsCb k o) (ObsCb k o))
   else ret tt) ;;;
  modify (log_issue k o) ;;;
  ret o.

(** What the policy prologue of [newfunc] decides. *)
Inductive prologue : Type :=
| PReturn (t : nat)                       (* return last[-1] *)
| PCall (kw_last : option (option nat)).  (* go on, with kwargs['last'] *)

(** The part of [newfunc] under [if policy:]. *)
Definition policy_prologue (k : nat) : M prologue :=
  match policy with
  | Some pol =>
      modify (fun σ =>
        match store_last σ !! k with
        | Some _ => σ
        | None => set_store_last k [] σ
        end) ;;;
      let* last := gets (last_of k) in
      match pol, py_last last with
      | POLICY_SINGLETON, Some t => ret (PReturn t)
      | POLICY_PASS_LAST, l => ret (PCall (Some l))
      | _, _ => ret (PCall None)
      end
  | None => ret (PCall None)
  end.

(** The part of [newfunc] from the call of [func] on. *)
Definition invoke (fuel : nat) (a : args) (kw : option (option nat)) : M nat :=
  let k := key_of a in
  let* pr := (if progress
              then let* n := gets next_progress in
                   modify bump_progress ;;; ret (Some n)
              else ret None) in
  modify (log_call k kw) ;;;
  match func pr a kw with
  | FRaise e => raise e
  | FOther => raise ValueError
  | FGenerator s =>
      let* l := gets func_lock in
      let* held := gets (fun σ =>
               match policy, l with
               | Some POLICY_SYNCHRONIZED, Some l => negb (finished (obj σ l))
               | _, _ => false
               end) in
      if held then
        let* t := CoroutineLockedInProgress_init (GenFresh s) interval in
        wrap k pr t
      else
        let* ip := CoroutineInProgress_init (GenFresh s) interval None false in
        (if bool_decide (policy = Some POLICY_SYNCHRONIZED)
         then modify (set_func_lock (Some ip)) else ret tt) ;;;
        let* b := _step fuel ip in
        (if b then
           let* tm := gets (fun σ => timer_of σ ip) in
           match tm with
           | Some tm =>
               modify (update_co ip (with_timer (Some (timer_start interval tm))))
           | None => raise AttributeError
           end
         else ret tt) ;;;
        wrap k pr ip
  end.

(** [newfunc], the decorated function; the result is the returned object. *)
Definition newfunc (fuel : nat) (a : args) : M nat :=
  let* pre := policy_prologue (key_of a) in
  match pre with
  | PReturn t => ret t
  | PCall kw => invoke fuel a kw
  end.

(** ** The main loop, as far as the engine sees it *)

(** Modelled from the spec: the timer callback contract of timer.py (not in
    src), section 4.2: an active timer calls [_step]; a true result
    reschedules it, a false one leaves it one-shot. *)
Definition timer_fire (fuel : nat) (t : nat) : M unit :=
  let* tm := gets (fun σ => timer_of σ t) in
  match tm with
  | Some tm =>
      if t_active tm then
        let* b := _step fuel t in
        if b then ret tt else modify (stop_timer t)
      else ret tt
  | None => ret tt
  end.


(** What the application and the main loop can do to the engine. *)
Inductive event : Type :=
| EvCall (a : args)                  (* call the decorated function *)
| EvTimer (t : nat)                  (* the timer of task t expires *)
| EvStop (t : nat)                   (* t.stop() *)
| EvSetInterval (t : nat) (d : Z)    (* t.set_interval(d) *)
| EvNew                              (* InProgress() *)
| EvFinish (p : nat) (v : pyval)     (* p.finish(v) *)
| EvThrow (p : nat) (e : pyexc)      (* p.throw(e), dispatched on the class *)
| EvConnect (p : nat) (n : nat).     (* p.connect_both(user callback n) *)

Definition run_event (fuel : nat) (ev : event) : M unit :=
  match ev with
  | EvCall a => newfunc fuel a ;;; ret tt
  | EvTimer t => timer_fire fuel t
  | EvStop t => stop fuel t
  | EvSetInterval t d => modify (set_interval t d)
  | EvNew => InProgress_init ;;; ret tt
  | EvFinish p v => ip_finish p v
  | EvThrow p e =>
      let* isco := gets (fun σ => is_coroutine σ p) in
      if isco then throw fuel p e else ip_throw p e
  | EvConnect p n => modify (connect_both p (ObsUser n) (ObsUser n))
  end.

(** The state when the module has been imported and the function
    decorated: nothing allocated, [func._lock = None]. *)
Definition init_state : state :=
  {| heap := ∅; next_progress := 0; _active_coroutines := ∅;
     store_last := ∅; func_lock := None; advances := []; closes := [];
     notices := []; warnings := []; calls := []; issued := [] |}.

(** States the engine can be in, whatever the events returned or raised. *)
Inductive reachable : state -> Prop :=
| reachable_init : reachable init_state
| reachable_step σ fuel ev r σ' :
    reachable σ -> run_event fuel ev σ = Some (r, σ') -> reachable σ'.

(** Tasks handed out for key [k], oldest first. *)
Definition issued_for (k : nat) (σ : state) : list nat :=
  (filter (fun kt => kt.1 = k) (issued σ)).*2.

(** [not obj.finished] *)
Definition unfinished (σ : state) (t : nat) : Prop :=
  finished (obj σ t) = false.

Global Instance unfinished_dec σ t : Decision (unfinished σ t).
Proof. unfold unfinished. apply _. Defined.


(** * Properties of the coroutine engine *)

(** ** Reading objects after assignments *)

Lemma obj_update p f σ q :
  obj (update p f σ) q = if decide (p = q) then f (obj σ p) else obj σ q.
Proof.
  unfold obj, update; simpl. case_decide; subst.
  - by rewrite lookup_insert_eq.
  - by rewrite lookup_insert_ne.
Qed.

Lemma obj_update_eq p f σ : obj (update p f σ) p = f (obj σ p).
Proof. rewrite obj_update. by case_decide. Qed.

Lemma obj_update_ne p f σ q : p ≠ q -> obj (update p f σ) q = obj σ q.
Proof. intros. rewrite obj_update. by case_decide. Qed.

Lemma co_update_co t f σ u :
  co (update_co t f σ) u = if decide (t = u) then f <$> co σ t else co σ u.
Proof.
  unfold co, update_co. rewrite obj_update. by case_decide.
Qed.

Lemma finished_update_co t f σ q :
  finished (obj (update_co t f σ) q) = finished (obj σ q).
Proof.
  unfold update_co. rewrite obj_update. case_decide; by subst.
Qed.

Lemma obj_alloc p x σ q :
  obj (set_heap (<[p := x]> (heap σ)) σ) q = if decide (p = q) then x else obj σ q.
Proof.
  unfold obj; simpl. case_decide; subst.
  - by rewrite lookup_insert_eq.
  - by rewrite lookup_insert_ne.
Qed.

Lemma fresh_blank σ : obj σ (fresh (dom (heap σ))) = blank_ip.
Proof.
  unfold obj. pose proof (is_fresh (dom (heap σ))) as H.
  apply not_elem_of_dom in H. by rewrite H.
Qed.

(** ** Elementary state changes

    Every operation of the engine is a sequence of the changes below.
    [lv] bounds what may happen: 0 neither resumes a generator nor
    creates anything, 1 may resume generators, 2 may also create objects
    and touch the policy store.  [em] admits the changes that occur only
    inside the settlement of a promise. *)

Definition non_cb (o : observer) : Prop :=
  match o with ObsCb _ _ => False | _ => True end.

Definition keeps_none (σ : state) (t : nat) (f : co_fields -> co_fields) : Prop :=
  forall c, co σ t = Some c ->
    (_coroutine c = None -> _coroutine (f c) = None) /\
    (_timer c = None -> _timer (f c) = None).

Inductive prim (lv : nat) (em : bool) : state -> state -> Prop :=
| p_co t f σ : keeps_none σ t f -> prim lv em σ (update_co t f σ)
| p_active s σ : s ⊆ _active_coroutines σ -> prim lv em σ (set_active s σ)
| p_lock l σ : prim lv em σ (set_func_lock l σ)
| p_unhandled p σ : prim lv em σ (update p (with_unhandled None) σ)
| p_register p f g σ :
    em = true \/ 2 <= lv \/ (non_cb f /\ non_cb g) ->
    prim lv em σ (register_both p f g σ)
| p_disconnect p f σ : non_cb f -> prim lv em σ (disconnect_both p f σ)
| p_settle p v e u σ :
    em = true -> finished (obj σ p) = false ->
    prim lv em σ (update p (with_outcome v e u) σ)
| p_clear p σ : em = true -> prim lv em σ (update p (with_signals [] []) σ)
| p_store k l σ : em = true \/ 2 <= lv -> prim lv em σ (set_store_last k l σ)
| p_log_close t σ : prim lv em σ (log_close t σ)
| p_log_notice n p x σ : prim lv em σ (log_notice n p x σ)
| p_log_warning t σ : prim lv em σ (log_warning t σ)
| p_log_advance t d σ :
    1 <= lv -> (exists c g, co σ t = Some c /\ _coroutine c = Some g) ->
    prim lv em σ (log_advance t d σ)
| p_alloc p σ :
    2 <= lv -> heap σ !! p = None ->
    prim lv em σ (set_heap (<[p := blank_ip]> (heap σ)) σ)
| p_make_co p c σ :
    2 <= lv -> ip_co (obj σ p) = None -> prim lv em σ (update p (make_co c) σ)
| p_active_add t σ :
    2 <= lv -> prim lv em σ (set_active (_active_coroutines σ ∪ {[t]}) σ)
| p_progress p pr σ : 2 <= lv -> prim lv em σ (update p (with_progress pr) σ)
| p_bump σ : 2 <= lv -> prim lv em σ (bump_progress σ)
| p_log_call k kw σ : 2 <= lv -> prim lv em σ (log_call k kw σ)
| p_log_issue k t σ : 2 <= lv -> prim lv em σ (log_issue k t σ).

(** Coarser steps: a settlement counts as one. *)
Inductive block (lv : nat) : state -> state -> Prop :=
| b_prim σ σ' : prim lv false σ σ' -> block lv σ σ'
| b_finish p v σ σ' : ip_finish p v σ = Some (Ret tt, σ') -> block lv σ σ'
| b_throw p e σ σ' : ip_throw p e σ = Some (Ret tt, σ') -> block lv σ σ'.

Lemma prim_mono lv lv' em em' σ σ' :
  lv <= lv' -> (em = true -> em' = true) ->
  prim lv em σ σ' -> prim lv' em' σ σ'.
Proof.
  intros Hlv Hem H. destruct H.
  - by apply p_co.
  - by apply p_active.
  - apply p_lock.
  - apply p_unhandled.
  - apply p_register. destruct H as [H|[H|H]]; [left; auto|right; left; lia|auto].
  - by apply p_disconnect.
  - apply p_settle; auto.
  - apply p_clear; auto.
  - apply p_store. destruct H as [H|H]; [left; auto|right; lia].
  - apply p_log_close.
  - apply p_log_notice.
  - apply p_log_warning.
  - apply p_log_advance; [lia|done].
  - apply p_alloc; [lia|done].
  - apply p_make_co; [lia|done].
  - apply p_active_add; lia.
  - apply p_progress; lia.
  - apply p_bump; lia.
  - apply p_log_call; lia.
  - apply p_log_issue; lia.
Qed.

Lemma block_mono lv lv' σ σ' : lv <= lv' -> block lv σ σ' -> block lv' σ σ'.
Proof.
  intros Hlv [σ1 σ2 H|p v σ1 σ2 H|p e σ1 σ2 H].
  - apply b_prim. eapply prim_mono; eauto.
  - eapply b_finish; eauto.
  - eapply b_throw; eauto.
Qed.

Lemma blocks_mono lv lv' σ σ' :
  lv <= lv' -> rtc (block lv) σ σ' -> rtc (block lv') σ σ'.
Proof.
  intros Hlv H. induction H; [done|].
  eapply rtc_l; [eapply block_mono; eauto|done].
Qed.


(** ** Every operation is a sequence of blocks *)

Definition resp {A} (lv : nat) (m : M A) (σ : state) : Prop :=
  forall r σ', m σ = Some (r, σ') -> rtc (block lv) σ σ'.

Lemma resp_ret {A} lv (a : A) σ : resp lv (ret a) σ.
Proof. intros r σ' [= <- <-]. done. Qed.

Lemma resp_raise {A} lv e σ : resp lv (@raise A e) σ.
Proof. intros r σ' [= <- <-]. done. Qed.

Lemma resp_diverge {A} lv σ : resp lv (@diverge A) σ.
Proof. intros r σ' [=]. Qed.

Lemma resp_gets {A} lv (f : state -> A) σ : resp lv (gets f) σ.
Proof. intros r σ' [= <- <-]. done. Qed.

Lemma resp_modify lv f σ : rtc (block lv) σ (f σ) -> resp lv (modify f) σ.
Proof. intros H r σ' [= <- <-]. done. Qed.

Lemma resp_bind {A B} lv (m : M A) (k : A -> M B) σ :
  resp lv m σ ->
  (forall a σ1, m σ = Some (Ret a, σ1) -> resp lv (k a) σ1) ->
  resp lv (bind m k) σ.
Proof.
  intros Hm Hk r σ'. unfold bind.
  destruct (m σ) as [[[a|e] σ1]|] eqn:E; [|intros [= <- <-]|done].
  - intros H. etrans; [by eapply Hm|]. by eapply Hk.
  - by eapply Hm.
Qed.

Lemma resp_try_except {A} lv (m : M A) h σ :
  resp lv m σ ->
  (forall e σ1, m σ = Some (Exc e, σ1) -> resp lv (h e) σ1) ->
  resp lv (try_except m h) σ.
Proof.
  intros Hm Hh r σ'. unfold try_except.
  destruct (m σ) as [[[a|e] σ1]|] eqn:E; [intros [= <- <-]| |done].
  - by eapply Hm.
  - intros H. etrans; [by eapply Hm|]. by eapply Hh.
Qed.

Lemma resp_try_finally {A} lv (m : M A) f σ :
  resp lv m σ ->
  (forall r σ1, m σ = Some (r, σ1) -> rtc (block lv) σ1 (f σ1)) ->
  resp lv (try_finally m f) σ.
Proof.
  intros Hm Hf r σ'. unfold try_finally.
  destruct (m σ) as [[r1 σ1]|] eqn:E; [|done].
  intros [= <- <-]. etrans; [by eapply Hm|]. by eapply Hf.
Qed.

Lemma resp_mono {A} lv lv' (m : M A) σ : lv <= lv' -> resp lv m σ -> resp lv' m σ.
Proof. intros Hlv H r σ' E. eapply blocks_mono; eauto. Qed.

Lemma one_prim lv σ σ' : prim lv false σ σ' -> rtc (block lv) σ σ'.
Proof. intros. apply rtc_once. by apply b_prim. Qed.

Ltac solve_keeps_none :=
  let c := fresh "c" in
  intros c _;
  repeat match goal with
         | |- context [match _timer c with _ => _ end] =>
             destruct (_timer c) eqn:?
         | |- context [if t_active ?tm then _ else _] =>
             destruct (t_active tm) eqn:?
         end;
  simpl; split; intros; congruence.

Lemma continue_blocks lv t σ : rtc (block lv) σ (_continue t σ).
Proof. apply one_prim, p_co. solve_keeps_none. Qed.

Lemma stop_timer_blocks lv t σ : rtc (block lv) σ (stop_timer t σ).
Proof. apply one_prim, p_co. solve_keeps_none. Qed.

Lemma release_blocks lv t σ : rtc (block lv) σ (release t σ).
Proof. apply one_prim, p_co. solve_keeps_none. Qed.

Lemma set_interval_blocks lv t d σ : rtc (block lv) σ (set_interval t d σ).
Proof. apply one_prim, p_co. solve_keeps_none. Qed.

Lemma set_prerequisite_blocks lv t p σ :
  rtc (block lv) σ (update_co t (with_prerequisite p) σ).
Proof. apply one_prim, p_co. solve_keeps_none. Qed.

Lemma try_again_blocks lv t σ : rtc (block lv) σ (_try_again t σ).
Proof.
  unfold _try_again. destruct (func_lock σ) as [l|]; [|done].
  destruct (negb _).
  - apply one_prim, p_register. right; right. done.
  - etrans; [apply one_prim, p_lock|apply continue_blocks].
Qed.

Lemma run_observer_blocks lv p x o σ :
  non_cb o -> rtc (block lv) σ (run_observer p x σ o).
Proof.
  destruct o; simpl; intros H; try done.
  - apply continue_blocks.
  - apply try_again_blocks.
  - apply one_prim, p_log_notice.
Qed.

Lemma connect_both_blocks lv p f g σ :
  non_cb f -> non_cb g -> rtc (block lv) σ (connect_both p f g σ).
Proof.
  intros Hf Hg. unfold connect_both.
  destruct (finished (obj σ p)).
  - destruct (_exception (obj σ p)).
    + etrans; [apply one_prim, p_unhandled|by apply run_observer_blocks].
    + by apply run_observer_blocks.
  - apply one_prim, p_register. auto.
Qed.

Lemma resp_ip_finish lv p v σ : resp lv (ip_finish p v) σ.
Proof.
  intros r σ' H. destruct r as [[]|e].
  - apply rtc_once. by eapply b_finish.
  - unfold ip_finish in H. destruct (finished (obj σ p)); by simplify_eq.
Qed.

Lemma resp_ip_throw lv p e σ : resp lv (ip_throw p e) σ.
Proof.
  intros r σ' H. destruct r as [[]|e'].
  - apply rtc_once. by eapply b_throw.
  - unfold ip_throw in H. destruct (finished (obj σ p)); by simplify_eq.
Qed.

Lemma set_coroutine_blocks lv t g σ c g0 :
  co σ t = Some c -> _coroutine c = Some g0 ->
  rtc (block lv) σ (update_co t (with_coroutine (Some g)) σ).
Proof.
  intros Hc Hg. apply one_prim, p_co. intros c' Hc'. simplify_eq.
  split; [by rewrite Hg|done].
Qed.

Lemma resp_gen_run lv t s r σ c g0 :
  1 <= lv -> co σ t = Some c -> _coroutine c = Some g0 ->
  resp lv (gen_run t s r) σ.
Proof.
  intros Hlv Hc Hg r' σ' H. unfold gen_run in H.
  assert (forall g d, rtc (block lv) σ
            (update_co t (with_coroutine (Some g)) (log_advance t d σ))) as X.
  { intros g d. etrans.
    - apply one_prim, p_log_advance; eauto.
    - eapply set_coroutine_blocks; eauto. }
  destruct (resume s r); simplify_eq; apply X.
Qed.

Lemma resp_gen_resume lv t r σ : 1 <= lv -> resp lv (gen_resume t r) σ.
Proof.
  intros Hlv r' σ' H. unfold gen_resume in H.
  destruct (co σ t) as [c|] eqn:Hc; [|by simplify_eq].
  destruct (_coroutine c) as [[s|s|]|] eqn:Hg.
  - destruct r as [|[]|].
    + eapply resp_gen_run; eauto.
    + eapply resp_gen_run; eauto.
    + by simplify_eq.
    + simplify_eq. eapply set_coroutine_blocks; eauto.
  - eapply resp_gen_run; eauto.
  - destruct r; by simplify_eq.
  - by simplify_eq.
Qed.

Lemma resp_gen_close lv t σ : resp lv (gen_close t) σ.
Proof.
  intros r' σ' H. unfold gen_close in H.
  destruct (co σ t) as [c|] eqn:Hc; [|by simplify_eq].
  assert (forall g g0, _coroutine c = Some g0 -> rtc (block lv) σ
            (update_co t (with_coroutine (Some g)) (log_close t σ))) as X.
  { intros g g0 Hg. etrans; [apply one_prim, p_log_close|].
    eapply set_coroutine_blocks; eauto. }
  destruct (_coroutine c) as [[s|s|]|] eqn:Hg.
  - simplify_eq. eapply X; eauto.
  - destruct (resume s (RThrow GeneratorExit)) as [y s'| |[]]; simplify_eq;
      eapply X; eauto.
  - simplify_eq. apply one_prim, p_log_close.
  - by simplify_eq.
Qed.

Lemma resp_process lv t ip σ : 1 <= lv -> resp lv (_process t ip) σ.
Proof.
  intros Hlv. unfold _process. destruct ip as [p|].
  - apply resp_bind; [apply resp_gets|]. intros x σ1 _.
    destruct (_exception x).
    + apply resp_bind; [|intros; by apply resp_gen_resume].
      apply resp_modify, one_prim, p_unhandled.
    + by apply resp_gen_resume.
  - by apply resp_gen_resume.
Qed.

Lemma resp_finalize lv t fin σ : resp lv (finalize t fin) σ.
Proof.
  unfold finalize. apply resp_try_finally; [|intros; apply release_blocks].
  apply resp_bind.
  - destruct fin; [apply resp_ret|].
    apply resp_bind; [apply resp_gets|]. intros n σ1 _.
    case_bool_decide; [apply resp_ret|apply resp_ip_throw].
  - intros _ σ1 _. apply resp_try_except; [apply resp_gen_close|].
    intros e σ2 _. destruct e; try apply resp_raise.
    apply resp_modify, one_prim, p_log_warning.
Qed.

Lemma resp_propagate lv sp t σ :
  (forall p σ1, resp lv (sp p) σ1) -> resp lv (propagate sp t) σ.
Proof.
  intros Hsp. unfold propagate.
  apply resp_bind; [apply resp_modify, stop_timer_blocks|]. intros _ σ1 _.
  apply resp_bind.
  { apply resp_modify, one_prim, p_active. apply subseteq_difference_l. done. }
  intros _ σ2 _. apply resp_bind; [apply resp_gets|]. intros pre σ3 _.
  destruct pre as [p|]; [|apply resp_ret].
  apply resp_bind; [apply resp_gets|]. intros isco σ4 _.
  destruct isco; [|apply resp_ret].
  apply resp_bind; [|intros; apply Hsp].
  apply resp_modify, one_prim, p_disconnect. done.
Qed.

Lemma resp__stop lv fuel : forall t fin σ, resp lv (_stop fuel t fin) σ.
Proof.
  induction fuel as [|fuel IH]; intros t fin σ; simpl; [apply resp_diverge|].
  apply resp_bind; [|intros; apply resp_finalize].
  apply resp_propagate. intros p σ1.
  apply resp_bind; [apply resp_gets|]. intros g σ2 _.
  destruct g; [apply IH|apply resp_ret].
Qed.

Lemma resp_stop lv fuel t σ : resp lv (stop fuel t) σ.
Proof.
  unfold stop. apply resp_bind; [apply resp_gets|]. intros g σ2 _.
  destruct g; [apply resp__stop|apply resp_ret].
Qed.

Lemma resp_throw lv fuel t e σ : resp lv (throw fuel t e) σ.
Proof.
  unfold throw. apply resp_bind; [apply resp__stop|].
  intros; apply resp_ip_throw.
Qed.

Lemma resp__step lv fuel : 1 <= lv -> forall t σ, resp lv (_step fuel t) σ.
Proof.
  intros Hlv. induction fuel as [|fuel IH]; intros t σ; simpl;
    [apply resp_diverge|].
  apply resp_bind.
  - apply resp_try_except.
    + apply resp_bind; [apply resp_gets|]. intros pre σ1 _.
      apply resp_bind; [by apply resp_process|]. intros y σ2 _.
      apply resp_bind; [apply resp_modify, set_prerequisite_blocks|].
      intros _ σ3 _. destruct y as [|p|v]; try apply resp_ret.
      apply resp_bind; [apply resp_modify, set_prerequisite_blocks|].
      intros _ σ4 _. apply resp_bind; [apply resp_gets|]. intros f σ5 _.
      destruct f; [apply resp_ret|].
      apply resp_bind; [|intros; apply resp_ret].
      apply resp_modify, connect_both_blocks; done.
    + intros e σ1 _.
      assert (resp lv (throw fuel t e;;; if is_host_fatal e then raise e
                else ret (LReturn false)) σ1) as X.
      { apply resp_bind; [apply resp_throw|]. intros _ σ2 _.
        destruct (is_host_fatal e); [apply resp_raise|apply resp_ret]. }
      destruct e; try apply X. apply resp_ret.
  - intros x σ1 _. destruct x as [b|v|]; [apply resp_ret| |apply IH].
    apply resp_bind; [apply resp__stop|]. intros _ σ2 _.
    apply resp_bind; [apply resp_ip_finish|]. intros; apply resp_ret.
Qed.

Lemma resp_timer_fire lv fuel t σ : 1 <= lv -> resp lv (timer_fire fuel t) σ.
Proof.
  intros Hlv. unfold timer_fire.
  apply resp_bind; [apply resp_gets|]. intros tm σ1 _.
  destruct tm as [tm|]; [|apply resp_ret].
  destruct (t_active tm); [|apply resp_ret].
  apply resp_bind; [by apply resp__step|]. intros b σ2 _.
  destruct b; [apply resp_ret|apply resp_modify, stop_timer_blocks].
Qed.

Lemma resp_InProgress_init lv σ : 2 <= lv -> resp lv InProgress_init σ.
Proof.
  intros Hlv r σ' [= <- <-]. apply one_prim, p_alloc; [done|].
  apply not_elem_of_dom, is_fresh.
Qed.

Lemma InProgress_init_blank σ r σ' :
  InProgress_init σ = Some (r, σ') ->
  exists p, r = Ret p /\ heap σ !! p = None /\ obj σ' p = blank_ip /\
            σ' = set_heap (<[p := blank_ip]> (heap σ)) σ.
Proof.
  intros [= <- <-]. eexists; split; [done|]. split.
  - apply not_elem_of_dom, is_fresh.
  - split; [|done]. rewrite obj_alloc. by case_decide.
Qed.

Lemma resp_CoroutineInProgress_init lv g d locked σ :
  2 <= lv -> resp lv (CoroutineInProgress_init g d None locked) σ.
Proof.
  intros Hlv. unfold CoroutineInProgress_init.
  apply resp_bind; [by apply resp_InProgress_init|]. intros t σ1 Ht.
  apply InProgress_init_blank in Ht as (p & [= <-] & _ & Hb & _).
  apply resp_bind.
  { apply resp_modify, one_prim, p_make_co; [done|]. by rewrite Hb. }
  intros _ σ2 _. apply resp_bind; [|intros; apply resp_ret].
  apply resp_modify, one_prim, p_active_add. done.
Qed.

Lemma run_observer_blocks2 lv p x o σ :
  2 <= lv -> rtc (block lv) σ (run_observer p x σ o).
Proof.
  intros Hlv. destruct o; try (by apply run_observer_blocks).
  simpl. unfold cb. destruct (store_last σ !! k); [|done].
  apply one_prim, p_store. auto.
Qed.

Lemma connect_both_blocks2 lv p f g σ :
  2 <= lv -> rtc (block lv) σ (connect_both p f g σ).
Proof.
  intros Hlv. unfold connect_both.
  destruct (finished (obj σ p)).
  - destruct (_exception (obj σ p)).
    + etrans; [apply one_prim, p_unhandled|by apply run_observer_blocks2].
    + by apply run_observer_blocks2.
  - apply one_prim, p_register. auto.
Qed.

Lemma resp_CoroutineLockedInProgress_init lv g d σ :
  2 <= lv -> resp lv (CoroutineLockedInProgress_init g d) σ.
Proof.
  intros Hlv. unfold CoroutineLockedInProgress_init.
  apply resp_bind; [by apply resp_CoroutineInProgress_init|].
  intros t σ1 _. apply resp_bind; [apply resp_gets|]. intros l σ2 _.
  destruct l; [|apply resp_raise].
  apply resp_bind; [|intros; apply resp_ret].
  by apply resp_modify, connect_both_blocks2.
Qed.

Lemma resp_wrap lv k pr o σ : 2 <= lv -> resp lv (wrap k pr o) σ.
Proof.
  intros Hlv. unfold wrap. apply resp_bind.
  { destruct progress; [|apply resp_ret].
    by apply resp_modify, one_prim, p_progress. }
  intros _ σ1 _. apply resp_bind; [apply resp_gets|]. intros f σ2 _.
  apply resp_bind.
  { destruct (tracks_last && negb f); [|apply resp_ret].
    apply resp_bind; [|intros; by apply resp_modify, connect_both_blocks2].
    apply resp_modify, one_prim, p_store. auto. }
  intros _ σ3 _. apply resp_bind; [|intros; apply resp_ret].
  by apply resp_modify, one_prim, p_log_issue.
Qed.

Lemma resp_policy_prologue lv k σ : 2 <= lv -> resp lv (policy_prologue k) σ.
Proof.
  intros Hlv. unfold policy_prologue.
  destruct policy as [pol|]; [|apply resp_ret].
  apply resp_bind.
  - apply resp_modify. destruct (store_last σ !! k); [done|].
    apply one_prim, p_store. auto.
  - intros _ σ1 _. apply resp_bind; [apply resp_gets|]. intros l σ2 _.
    destruct pol, (py_last l); apply resp_ret.
Qed.

Lemma resp_invoke lv fuel a kw σ : 2 <= lv -> resp lv (invoke fuel a kw) σ.
Proof.
  intros Hlv. unfold invoke. apply resp_bind.
  { destruct progress; [|apply resp_ret].
    apply resp_bind; [apply resp_gets|]. intros n σ2 _.
    apply resp_bind; [|intros; apply resp_ret].
    by apply resp_modify, one_prim, p_bump. }
  intros pr σ2 _. apply resp_bind.
  { by apply resp_modify, one_prim, p_log_call. }
  intros _ σ3 _. destruct (func pr a kw) as [s| |e]; try apply resp_raise.
  apply resp_bind; [apply resp_gets|]. intros l σ4 _.
  apply resp_bind; [apply resp_gets|]. intros held σ5 _.
  destruct held.
  - apply resp_bind; [by apply resp_CoroutineLockedInProgress_init|].
    intros; by apply resp_wrap.
  - apply resp_bind; [by apply resp_CoroutineInProgress_init|].
    intros ip σ6 _. apply resp_bind.
    { case_bool_decide; [|apply resp_ret].
      apply resp_modify, one_prim, p_lock. }
    intros _ σ7 _. apply resp_bind; [apply resp__step; lia|].
    intros b σ8 _. apply resp_bind; [|intros; by apply resp_wrap].
    destruct b; [|apply resp_ret].
    apply resp_bind; [apply resp_gets|]. intros tm σ9 Htm.
    destruct tm as [tm|]; [|apply resp_raise].
    apply resp_modify, one_prim, p_co. intros c Hc.
    unfold gets, timer_of in Htm. simplify_eq. rewrite Hc in *. simpl in *.
    split; intros; congruence.
Qed.

Lemma resp_newfunc lv fuel a σ : 2 <= lv -> resp lv (newfunc fuel a) σ.
Proof.
  intros Hlv. unfold newfunc.
  apply resp_bind; [by apply resp_policy_prologue|].
  intros pre σ1 _. destruct pre as [t|kw]; [apply resp_ret|].
  by apply resp_invoke.
Qed.

Lemma resp_run_event fuel ev σ : resp 2 (run_event fuel ev) σ.
Proof.
  destruct ev; simpl.
  - apply resp_bind; [apply resp_newfunc; lia|]. intros; apply resp_ret.
  - apply resp_timer_fire; lia.
  - apply resp_stop.
  - apply resp_modify, set_interval_blocks.
  - apply resp_bind; [apply resp_InProgress_init; lia|]. intros; apply resp_ret.
  - apply resp_ip_finish.
  - apply resp_bind; [apply resp_gets|]. intros isco σ1 _.
    destruct isco; [apply resp_throw|apply resp_ip_throw].
  - apply resp_modify, connect_both_blocks; done.
Qed.


(** ** Settlements are sequences of elementary changes *)

Lemma run_observer_prims lv p x o σ :
  rtc (prim lv true) σ (run_observer p x σ o).
Proof.
  destruct o; simpl.
  - unfold _continue. apply rtc_once, p_co. solve_keeps_none.
  - unfold _try_again. destruct (func_lock σ) as [l|]; [|done].
    destruct (negb (finished (obj σ l))).
    + apply rtc_once, p_register. auto.
    + eapply rtc_l; [apply p_lock|]. unfold _continue.
      apply rtc_once, p_co. solve_keeps_none.
  - unfold cb. destruct (store_last σ !! k); [|done].
    apply rtc_once, p_store. auto.
  - apply rtc_once, p_log_notice.
Qed.

Lemma emit_prims lv p x obs : forall σ, rtc (prim lv true) σ (emit p x obs σ).
Proof.
  unfold emit. induction obs as [|o obs IH]; intros σ; simpl; [done|].
  etrans; [apply run_observer_prims|apply IH].
Qed.

Lemma block_prims lv σ σ' : block lv σ σ' -> rtc (prim lv true) σ σ'.
Proof.
  intros [σ1 σ2 H|p v σ1 σ2 H|p e σ1 σ2 H].
  - apply rtc_once. eapply prim_mono; [| |exact H]; [lia|done].
  - unfold ip_finish in H. destruct (finished (obj σ1 p)) eqn:E; simplify_eq.
    eapply rtc_l; [by apply p_settle|].
    etrans; [apply emit_prims|]. by apply rtc_once, p_clear.
  - unfold ip_throw in H. destruct (finished (obj σ1 p)) eqn:E; simplify_eq.
    eapply rtc_l; [by apply p_settle|].
    etrans; [apply emit_prims|]. by apply rtc_once, p_clear.
Qed.

Lemma blocks_prims lv σ σ' : rtc (block lv) σ σ' -> rtc (prim lv true) σ σ'.
Proof.
  induction 1; [done|]. etrans; [by apply block_prims|done].
Qed.

(** A relation that contains the elementary changes and is a preorder
    contains every run of an operation. *)
Lemma prims_within (R : state -> state -> Prop) lv em :
  (forall σ, R σ σ) ->
  (forall σ1 σ2 σ3, R σ1 σ2 -> R σ2 σ3 -> R σ1 σ3) ->
  (forall σ σ', prim lv em σ σ' -> R σ σ') ->
  forall σ σ', rtc (prim lv em) σ σ' -> R σ σ'.
Proof.
  intros Hrefl Htrans Hprim σ σ' H. induction H; [apply Hrefl|].
  eapply Htrans; [by apply Hprim|done].
Qed.

(** ** What no operation undoes *)

(** A settled promise keeps its outcome, and a cleared marker stays
    cleared. *)
Definition settled_kept (p : nat) (σ σ' : state) : Prop :=
  finished (obj σ p) = true ->
  finished (obj σ' p) = true /\
  _result (obj σ' p) = _result (obj σ p) /\
  _exception (obj σ' p) = _exception (obj σ p) /\
  (_unhandled_exception (obj σ p) = None ->
   _unhandled_exception (obj σ' p) = None).

Ltac obj_cases :=
  repeat first
    [ rewrite obj_update
    | rewrite obj_alloc
    | rewrite co_update_co ];
  repeat case_decide; subst; simpl in *.

Lemma prim_settled_kept lv em p σ σ' : prim lv em σ σ' -> settled_kept p σ σ'.
Proof.
  intros H Hfin. destruct H; simpl;
    unfold update_co, register_both, disconnect_both in *;
    try (unfold obj at 1 2 3 4; simpl; fold (obj σ p); by auto);
    try (obj_cases; by auto).
  - obj_cases; [congruence|by auto].
  - obj_cases; [|by auto].
    unfold obj in Hfin. rewrite H0 in Hfin. done.
Qed.

Lemma prims_settled_kept lv em p σ σ' :
  rtc (prim lv em) σ σ' -> settled_kept p σ σ'.
Proof.
  apply prims_within.
  - intros σ0 H. auto.
  - intros σ1 σ2 σ3 H12 H23 H. destruct (H12 H) as (F & R2 & E2 & U2).
    destruct (H23 F) as (F3 & R3 & E3 & U3).
    repeat split; [done|congruence|congruence|auto].
  - intros σ0 σ0'. apply prim_settled_kept.
Qed.


(** Operations that neither resume a generator nor create anything leave
    the logs of resumptions, calls and issued tasks alone, and add nothing
    to [_active_coroutines]. *)
Definition quiet (σ σ' : state) : Prop :=
  advances σ' = advances σ /\ issued σ' = issued σ /\ calls σ' = calls σ /\
  _active_coroutines σ' ⊆ _active_coroutines σ.

Lemma prim_quiet em σ σ' : prim 0 em σ σ' -> quiet σ σ'.
Proof.
  intros H. destruct H; try lia; unfold quiet; simpl; auto.
Qed.

Lemma prims_quiet em σ σ' : rtc (prim 0 em) σ σ' -> quiet σ σ'.
Proof.
  apply prims_within.
  - intros σ0. unfold quiet. auto.
  - intros σ1 σ2 σ3 (A & B & C & D) (A' & B' & C' & D').
    unfold quiet. repeat split; try congruence. set_solver.
  - intros σ0 σ0'. apply prim_quiet.
Qed.

Lemma resp_quiet {A} (m : M A) σ r σ' :
  resp 0 m σ -> m σ = Some (r, σ') -> quiet σ σ'.
Proof. intros H E. eapply prims_quiet, blocks_prims, H, E. Qed.

(** Stepping creates nothing either. *)
Definition creates_nothing (σ σ' : state) : Prop :=
  issued σ' = issued σ /\ calls σ' = calls σ /\
  _active_coroutines σ' ⊆ _active_coroutines σ /\
  dom (heap σ) ⊆ dom (heap σ').

Lemma prim_creates_nothing em σ σ' : prim 1 em σ σ' -> creates_nothing σ σ'.
Proof.
  intros H. destruct H; try lia; unfold creates_nothing; simpl; auto;
    unfold update_co, register_both, disconnect_both, update; simpl;
    repeat split; auto; set_solver.
Qed.

Lemma prims_creates_nothing em σ σ' :
  rtc (prim 1 em) σ σ' -> creates_nothing σ σ'.
Proof.
  apply prims_within.
  - intros σ0. unfold creates_nothing. auto.
  - intros σ1 σ2 σ3 (A & B & C & D) (A' & B' & C' & D').
    unfold creates_nothing. repeat split; try congruence; set_solver.
  - intros σ0 σ0'. apply prim_creates_nothing.
Qed.


(** ** The loop of [_step] *)

(** The generator of [t] is suspended at a yield. *)
Definition suspended (σ : state) (t : nat) : Prop :=
  exists c s, co σ t = Some c /\ _coroutine c = Some (GenSuspended s).

(** What [_process] hands back, against the directive it logged. *)
Definition handed (d : directive) (r : res yielded) (σ : state) (t : nat)
  : Prop :=
  match r with
  | Ret NotFinished => d = DContinueNow
  | Ret (YInProgress p) => d = DAwait p (finished (obj σ p)) /\ suspended σ t
  | Ret (YValue v) => d = DDone v
  | Exc StopIteration => d = DDone PyNone
  | Exc e => d = DRaised e
  end.

Lemma gen_run_trace t s w σ r σ1 :
  gen_run t s w σ = Some (r, σ1) -> is_Some (co σ t) ->
  exists d, advances σ1 = advances σ ++ [(t, d)] /\ handed d r σ1 t.
Proof.
  unfold gen_run. intros H [c Hc].
  destruct (resume s w) as [y s'| |e] eqn:E; simplify_eq; simpl.
  - eexists; split; [done|]. destruct y as [|p|v]; simpl; try done.
    split.
    + by rewrite finished_update_co.
    + exists (with_coroutine (Some (GenSuspended s')) c), s'.
      split; [|done]. rewrite co_update_co. case_decide; [|done].
      change (co (log_advance t DContinueNow σ) t) with (co σ t) || idtac.
      unfold co, obj in *. simpl. by rewrite Hc.
  - eexists; split; done.
  - eexists; split; [done|]. by destruct e.
Qed.

Lemma gen_resume_trace t w σ r σ1 :
  gen_resume t w σ = Some (r, σ1) ->
  (advances σ1 = advances σ /\ (exists e, r = Exc e) /\ ~ suspended σ t) \/
  (exists d, advances σ1 = advances σ ++ [(t, d)] /\ handed d r σ1 t).
Proof.
  unfold gen_resume. intros H.
  destruct (co σ t) as [c|] eqn:Hc.
  2:{ simplify_eq. left. repeat split; eauto.
      intros (c & s & Hc' & _). unfold co in *. congruence. }
  destruct (_coroutine c) as [[s|s|]|] eqn:Hg.
  - destruct w as [|[|z]|e].
    + right. eapply gen_run_trace; eauto.
    + right. eapply gen_run_trace; eauto.
    + simplify_eq. left. repeat split; eauto.
      intros (c' & s' & Hc' & Hs'). unfold co in *. congruence.
    + simplify_eq. left. repeat split; eauto.
      intros (c' & s' & Hc' & Hs'). unfold co in *. congruence.
  - right. eapply gen_run_trace; eauto.
  - left. destruct w; simplify_eq; repeat split; eauto;
      intros (c' & s' & Hc' & Hs'); unfold co in *; congruence.
  - simplify_eq. left. repeat split; eauto.
    intros (c' & s' & Hc' & Hs'). unfold co in *. congruence.
Qed.

Lemma suspended_update p f σ t :
  (forall x, ip_co (f x) = ip_co x) -> suspended (update p f σ) t <-> suspended σ t.
Proof.
  intros Hf. unfold suspended, co. rewrite obj_update.
  case_decide; subst; [rewrite Hf|]; done.
Qed.

Lemma process_trace t pre σ r σ1 :
  _process t pre σ = Some (r, σ1) ->
  (advances σ1 = advances σ /\ (exists e, r = Exc e) /\ ~ suspended σ t) \/
  (exists d, advances σ1 = advances σ ++ [(t, d)] /\ handed d r σ1 t).
Proof.
  unfold _process. destruct pre as [p|]; [|apply gen_resume_trace].
  unfold bind, gets, modify. destruct (_exception (obj σ p)) as [e|].
  - intros H. apply gen_resume_trace in H. simpl in H.
    destruct H as [(A & B & C)|H]; [left|by right].
    repeat split; auto. intros Hs. apply C.
    by apply suspended_update.
  - apply gen_resume_trace.
Qed.

(** The directives of one [_step] call: any number of awaits on terminal
    promises, then the directive that ends the loop. *)
Definition ends_loop (d : directive) (r : res bool) : Prop :=
  match d with
  | DContinueNow => r = Ret true
  | DAwait _ terminal => terminal = false /\ r = Ret false
  | DDone _ | DRaised _ => r <> Ret true
  end.

Definition loop_form (ds : list directive) (r : res bool) : Prop :=
  exists ps d, ds = map (fun p => DAwait p true) ps ++ [d] /\ ends_loop d r.

Definition inline_run (ds : list directive) (r : res bool) : Prop :=
  loop_form ds r \/ (ds = [] /\ r <> Ret true).

Lemma finish_path_quiet fuel t v σ r σ' :
  (_stop fuel t true ;;; ip_finish t v ;;; ret false) σ = Some (r, σ') ->
  quiet σ σ' /\ r <> Ret true.
Proof.
  intros H. split.
  - eapply (resp_quiet _ _ _ _ _ H). Unshelve.
    apply resp_bind; [apply resp__stop|]. intros _ σ1 _.
    apply resp_bind; [apply resp_ip_finish|]. intros; apply resp_ret.
  - unfold bind, ret in H.
    destruct (_stop fuel t true σ) as [[[[]|e] σ1]|]; simplify_eq; [|done].
    destruct (ip_finish t v σ1) as [[[[]|e] σ2]|]; simplify_eq; done.
Qed.

Lemma throw_path_quiet fuel t e σ r σ' :
  (throw fuel t e ;;; if is_host_fatal e then raise e else ret (LReturn false)) σ
    = Some (r, σ') ->
  quiet σ σ' /\ forall b, r = Ret (LReturn b) -> b = false.
Proof.
  intros H. split.
  - eapply (resp_quiet _ _ _ _ _ H). Unshelve.
    apply resp_bind; [apply resp_throw|]. intros _ σ1 _.
    destruct (is_host_fatal e); [apply resp_raise|apply resp_ret].
  - unfold bind in H.
    destruct (throw fuel t e σ) as [[[[]|e'] σ1]|]; simplify_eq; [|done].
    destruct (is_host_fatal e); unfold raise, ret in H; simplify_eq; [done|].
    intros b [=]. done.
Qed.


(** ** Taking runs apart *)

Lemma bind_inv {A B} (m : M A) (k : A -> M B) σ r σ' :
  bind m k σ = Some (r, σ') ->
  (exists a σ1, m σ = Some (Ret a, σ1) /\ k a σ1 = Some (r, σ')) \/
  (exists e, m σ = Some (Exc e, σ') /\ r = Exc e).
Proof.
  unfold bind. destruct (m σ) as [[[a|e] σ1]|]; intros H; simplify_eq; eauto.
Qed.

Lemma try_except_inv {A} (m : M A) h σ r σ' :
  try_except m h σ = Some (r, σ') ->
  (exists a, m σ = Some (Ret a, σ') /\ r = Ret a) \/
  (exists e σ1, m σ = Some (Exc e, σ1) /\ h e σ1 = Some (r, σ')).
Proof.
  unfold try_except. destruct (m σ) as [[[a|e] σ1]|]; intros H; simplify_eq; eauto.
Qed.

Lemma try_finally_inv {A} (m : M A) f σ r σ' :
  try_finally m f σ = Some (r, σ') ->
  exists σ1, m σ = Some (r, σ1) /\ σ' = f σ1.
Proof.
  unfold try_finally. destruct (m σ) as [[r1 σ1]|]; intros H; simplify_eq; eauto.
Qed.

Lemma gets_inv {A} (f : state -> A) σ r σ' :
  gets f σ = Some (r, σ') -> r = Ret (f σ) /\ σ' = σ.
Proof. intros [= <- <-]. done. Qed.

Lemma modify_inv f σ r σ' :
  modify f σ = Some (r, σ') -> r = Ret tt /\ σ' = f σ.
Proof. intros [= <- <-]. done. Qed.

Lemma ret_inv {A} (a : A) σ r σ' :
  ret a σ = Some (r, σ') -> r = Ret a /\ σ' = σ.
Proof. intros [= <- <-]. done. Qed.

Lemma raise_inv {A} e σ (r : res A) σ' :
  raise e σ = Some (r, σ') -> r = Exc e /\ σ' = σ.
Proof. intros [= <- <-]. done. Qed.

Ltac minv1 :=
  match goal with
  | H : gets _ _ = Some _ |- _ => apply gets_inv in H as [? ?]; simplify_eq
  | H : modify _ _ = Some _ |- _ => apply modify_inv in H as [? ?]; simplify_eq
  | H : ret _ _ = Some _ |- _ => apply ret_inv in H as [? ?]; simplify_eq
  | H : raise _ _ = Some _ |- _ => apply raise_inv in H as [? ?]; simplify_eq
  | H : diverge _ = Some _ |- _ => discriminate H
  | H : bind _ _ _ = Some _ |- _ =>
      apply bind_inv in H as [(? & ? & ? & H)|(? & H & ?)]
  | H : try_finally _ _ _ = Some _ |- _ =>
      apply try_finally_inv in H as (? & H & ?)
  | H : try_except _ _ _ = Some _ |- _ =>
      apply try_except_inv in H as [(? & H & ?)|(? & ? & ? & H)]
  end.
Ltac minv := repeat minv1.

Lemma suspended_update_co t f σ u :
  (forall c, _coroutine (f c) = _coroutine c) ->
  suspended (update_co t f σ) u <-> suspended σ u.
Proof.
  intros Hf. unfold suspended. rewrite co_update_co.
  case_decide; subst; [|done]. split.
  - intros (c & s & Hc & Hs). destruct (co σ u) as [c0|]; simplify_eq/=.
    exists c0, s. by rewrite <- Hf.
  - intros (c & s & Hc & Hs). exists (f c), s. rewrite Hc. simpl.
    by rewrite Hf.
Qed.

Lemma step_trace fuel : forall t σ r σ',
  _step fuel t σ = Some (r, σ') ->
  exists ds, advances σ' = advances σ ++ map (pair t) ds /\
    (loop_form ds r \/ (ds = [] /\ r <> Ret true /\ ~ suspended σ t)).
Proof.
  induction fuel as [|fuel IH]; intros t σ r σ' H; simpl in H; [done|].
  apply bind_inv in H as [(x & σx & Hbody & Hk)|(e & Hbody & ->)].
  - apply try_except_inv in Hbody as [(x' & Hbody & [= <-])|(e & σ1 & Hbody & Hh)].
    + (* the body of the loop ran without raising *)
      apply bind_inv in Hbody as [(pre & σ0 & Hpre & Hbody)|(e & Hpre & ?)];
        [|by apply gets_inv in Hpre as [? _]].
      apply gets_inv in Hpre as [? ?]; simplify_eq.
      apply bind_inv in Hbody as [(y & σ1 & Hp & Hbody)|(e & Hp & ?)]; [|done].
      apply process_trace in Hp as [(_ & (e & ?) & _)|(d & Hadv & Hd)]; [done|].
      apply bind_inv in Hbody as [([] & σ2 & Hm & Hbody)|(e & Hm & ?)];
        [|by apply modify_inv in Hm as [? _]].
      apply modify_inv in Hm as [_ ?]; simplify_eq.
      destruct y as [|p|v]; simpl in Hd.
      * minv. exists [DContinueNow]. split; [done|].
        left. exists [], DContinueNow. done.
      * destruct Hd as [-> Hsus].
        apply bind_inv in Hbody as [([] & σ3 & Hm & Hbody)|(e & Hm & ?)];
          [|by apply modify_inv in Hm as [? _]].
        apply modify_inv in Hm as [_ ?]; simplify_eq.
        apply bind_inv in Hbody as [(f & σ4 & Hf & Hbody)|(e & Hf & ?)];
          [|by apply gets_inv in Hf as [? _]].
        apply gets_inv in Hf as [? ?]; simplify_eq.
        rewrite !finished_update_co in Hbody.
        destruct (finished (obj σ1 p)) eqn:Hfin.
        -- apply ret_inv in Hbody as [? ?]; simplify_eq.
           apply IH in Hk as (ds & Hadv' & Hform).
           exists (DAwait p true :: ds). split.
           { rewrite Hadv'. simpl. rewrite Hadv. by rewrite <- app_assoc. }
           left. destruct Hform as [(ps & d & -> & Hend)|(_ & _ & Hns)].
           ++ exists (p :: ps), d. done.
           ++ exfalso. apply Hns. by rewrite !suspended_update_co.
        -- minv. exists [DAwait p false]. split.
           { pose proof (connect_both_blocks 0 p (ObsContinue t) (ObsContinue t)
               (update_co t (with_prerequisite (Some p))
                  (update_co t (with_prerequisite None) σ1)) I I) as Hq.
             apply blocks_prims, prims_quiet in Hq as (Hq & _).
             rewrite Hq. done. }
           left. exists [], (DAwait p false). done.
      * apply ret_inv in Hbody as [? ?]; simplify_eq.
        apply finish_path_quiet in Hk as [(Hq & _) Hr].
        exists [DDone v]. split; [by rewrite Hq|].
        left. exists [], (DDone v). done.
    + (* [_process] raised *)
      apply bind_inv in Hbody as [(pre & σ0 & Hpre & Hbody)|(e' & Hpre & ?)];
        [|by apply gets_inv in Hpre as [? _]].
      apply gets_inv in Hpre as [? ?]; simplify_eq.
      apply bind_inv in Hbody as [(y & σ2 & Hp & Hbody)|(e' & Hp & [= <-])].
      { (* nothing after [_process] raises *)
        exfalso. minv. destruct y; minv.
        destruct (finished _); minv. }
      assert (exists ds, advances σ1 = advances σ ++ map (pair t) ds /\
                (ds = [] /\ ~ suspended σ t \/
                 ds = [DDone PyNone] /\ e = StopIteration \/
                 ds = [DRaised e] /\ e <> StopIteration)) as (ds & Hadv & Hds).
      { apply process_trace in Hp as [(Ha & _ & Hns)|(d & Ha & Hd)].
        - exists []. rewrite app_nil_r. auto.
        - exists [d]. split; [done|]. right. simpl in Hd.
          destruct e; subst; auto. }
      assert (quiet σ1 σ' /\ r <> Ret true) as [(Hq & _) Hr].
      { destruct (decide (e = StopIteration)) as [->|Hne].
        - apply ret_inv in Hh as [? ?]; simplify_eq.
          by apply finish_path_quiet in Hk.
        - assert ((throw fuel t e ;;; if is_host_fatal e then raise e
                   else ret (LReturn false)) σ1 = Some (Ret x, σx)) as Hh'.
          { by destruct e. }
          apply throw_path_quiet in Hh' as [Hq Hb].
          destruct x as [b|v|].
          + apply ret_inv in Hk as [? ?]; simplify_eq. split; [done|].
            specialize (Hb b eq_refl). subst. done.
          + exfalso. clear -Hh Hne. destruct e; try done;
              unfold bind in Hh;
              destruct (throw _ _ _ _) as [[[[]|?] ?]|]; simplify_eq;
              simpl in Hh; unfold raise, ret in Hh; simplify_eq.
          + exfalso. clear -Hh Hne. destruct e; try done;
              unfold bind in Hh;
              destruct (throw _ _ _ _) as [[[[]|?] ?]|]; simplify_eq;
              simpl in Hh; unfold raise, ret in Hh; simplify_eq. }
      exists ds. split; [by rewrite Hq|].
      destruct Hds as [[-> Hns]|[[-> ->]|[-> Hne]]].
      * right. done.
      * left. exists [], (DDone PyNone). done.
      * left. exists [], (DRaised e). done.
  - (* the handler raised *)
    apply try_except_inv in Hbody as [(x' & Hbody & [=])|(e' & σ1 & Hbody & Hh)].
    apply bind_inv in Hbody as [(pre & σ0 & Hpre & Hbody)|(e'' & Hpre & ?)];
      [|by apply gets_inv in Hpre as [? _]].
    apply gets_inv in Hpre as [? ?]; simplify_eq.
    apply bind_inv in Hbody as [(y & σ2 & Hp & Hbody)|(e'' & Hp & [= <-])].
    { exfalso. minv. destruct y; minv. destruct (finished _); minv. }
    assert (e' <> StopIteration) as Hne.
    { intros ->. by apply ret_inv in Hh as [? _]. }
    assert ((throw fuel t e' ;;; if is_host_fatal e' then raise e'
             else ret (LReturn false)) σ1 = Some (Exc e, σ')) as Hh'.
    { by destruct e'. }
    apply throw_path_quiet in Hh' as [(Hq & _) _].
    apply process_trace in Hp as [(Ha & _ & Hns)|(d & Ha & Hd)].
    + exists []. rewrite app_nil_r. split; [by rewrite Hq|]. right. done.
    + exists [d]. split; [by rewrite Hq|]. left. exists [], d. split; [done|].
      simpl in Hd. destruct e'; subst; done.
Qed.


(** A call of [_step] that has come back has resumed the generator
    again, inline, exactly after each [Await(p)] on an already terminal
    [p], and has left the loop at the first other directive. *)
Lemma step_inline_shape fuel t σ r σ' :
  _step fuel t σ = Some (r, σ') ->
  exists ds, advances σ' = advances σ ++ map (pair t) ds /\ inline_run ds r.
Proof.
  intros H. apply step_trace in H as (ds & Hadv & [Hf|(-> & Hr & _)]).
  - exists ds. split; [done|]. by left.
  - exists []. split; [done|]. by right.
Qed.

(** ** Events *)

(** One event, whatever it returned or raised. *)
Definition step (σ σ' : state) : Prop :=
  exists fuel ev r, run_event fuel ev σ = Some (r, σ').

Lemma step_prims σ σ' : step σ σ' -> rtc (prim 2 true) σ σ'.
Proof.
  intros (fuel & ev & r & H). eapply blocks_prims, resp_run_event, H.
Qed.

Lemma steps_prims σ σ' : rtc step σ σ' -> rtc (prim 2 true) σ σ'.
Proof. induction 1; [done|]. etrans; [by apply step_prims|done]. Qed.

Lemma reachable_steps σ : reachable σ <-> rtc step init_state σ.
Proof.
  split.
  - induction 1 as [|σ fuel ev r σ' _ IH H]; [done|].
    eapply rtc_r; [done|]. by exists fuel, ev, r.
  - intros H. apply rtc_nsteps in H as [n H].
    remember init_state as σ0. revert σ Heqσ0 H.
    induction n as [|n IH]; intros σ -> H.
    + inversion H; subst. constructor.
    + apply nsteps_inv_r in H as (σ1 & H1 & (fuel & ev & r & Hs)).
      eapply reachable_step; [|done]. by apply IH.
Qed.

(** ** Failures consumed by a task *)

(** Modelled from the spec: the diagnostic that async.py (not in src)
    emits for a promise reclaimed with its failure still unhandled,
    section 4.1; it depends on the marker alone. *)
Definition reports_unhandled (σ : state) (p : nat) : Prop :=
  _unhandled_exception (obj σ p) <> None.

Lemma gen_resume_total t w σ : is_Some (gen_resume t w σ).
Proof.
  unfold gen_resume, gen_run.
  destruct (co σ t) as [c|]; [|done].
  destruct (_coroutine c) as [[s|s|]|]; try done.
  - destruct w as [|[]|]; try done; by destruct (resume s RNext).
  - by destruct (resume s w).
  - by destruct w.
Qed.

(** [_process] with a promise [p] that has failed with [e] first clears
    the unhandled marker of [p] and then throws [e] into the generator;
    the marker is clear when [_process] returns and stays clear whatever
    happens afterwards. *)
Lemma process_clears_marker t p e σ :
  finished (obj σ p) = true -> _exception (obj σ p) = Some e ->
  exists r σ1,
    _process t (Some p) σ = Some (r, σ1) /\
    gen_resume t (RThrow e) (update p (with_unhandled None) σ) = Some (r, σ1) /\
    _unhandled_exception (obj σ1 p) = None /\
    forall σ2, rtc step σ1 σ2 -> ~ reports_unhandled σ2 p.
Proof.
  intros Hfin Hexc.
  destruct (gen_resume_total t (RThrow e) (update p (with_unhandled None) σ))
    as [[r σ1] Hg].
  exists r, σ1.
  assert (_process t (Some p) σ = Some (r, σ1)) as Hp.
  { unfold _process, bind, gets, modify. by rewrite Hexc. }
  assert (settled_kept p (update p (with_unhandled None) σ) σ1) as Hk.
  { eapply prims_settled_kept, blocks_prims, (resp_gen_resume 1); [lia|done]. }
  destruct Hk as (F1 & _ & _ & U1).
  { by rewrite obj_update_eq. }
  specialize (U1 ltac:(by rewrite obj_update_eq)).
  repeat split; try done.
  intros σ2 Hsteps Hrep. apply Hrep.
  apply steps_prims, (prims_settled_kept _ _ p) in Hsteps.
  by apply Hsteps.
Qed.


(** ** Cancelled tasks *)

(** A task without generator and without timer. *)
Definition dead (σ : state) (t : nat) : Prop :=
  exists c, co σ t = Some c /\ _coroutine c = None /\ _timer c = None.

(** The resumptions of task [t], oldest first. *)
Definition advances_of (t : nat) (σ : state) : list directive :=
  (filter (fun a => a.1 = t) (advances σ)).*2.

Definition stays_dead (t : nat) (σ σ' : state) : Prop :=
  dead σ t -> dead σ' t /\ advances_of t σ' = advances_of t σ.

Lemma co_update_keeps p f σ t :
  (forall x, ip_co (f x) = ip_co x) -> co (update p f σ) t = co σ t.
Proof.
  intros Hf. unfold co. rewrite obj_update. case_decide; subst; by rewrite ?Hf.
Qed.

Lemma prim_stays_dead lv em t σ σ' : prim lv em σ σ' -> stays_dead t σ σ'.
Proof.
  intros H (c & Hc & Hg & Ht).
  assert (forall p f, (forall x, ip_co (f x) = ip_co x) ->
            dead (update p f σ) t /\
            advances_of t (update p f σ) = advances_of t σ) as Hkeep.
  { intros p f Hf. split; [|done]. exists c. by rewrite co_update_keeps. }
  assert (dead σ t) as Hdead by (by exists c).
  destruct H; try (by split); try (by apply Hkeep).
  - (* co fields *)
    split; [|done]. destruct (decide (t0 = t)) as [->|Hne].
    + destruct (H c Hc) as [Hg' Ht']. exists (f c).
      rewrite co_update_co. case_decide; [|done]. rewrite Hc. auto.
    + exists c. rewrite co_update_co. by case_decide.
  - (* resumption of a generator *)
    split; [done|]. unfold advances_of. simpl. rewrite filter_app.
    destruct (decide (t0 = t)) as [->|Hne].
    + destruct H0 as (c' & g & Hc' & Hg'). congruence.
    + rewrite filter_cons_False; [|done]. rewrite filter_nil.
      by rewrite app_nil_r.
  - (* allocation *)
    split; [|done]. exists c. split; [|done].
    unfold co. rewrite obj_alloc. case_decide; [|done]. subst.
    unfold co, obj in Hc. by rewrite H0 in Hc.
  - (* a new coroutine object *)
    split; [|done]. exists c. split; [|done].
    unfold co. rewrite obj_update. case_decide; [|done]. subst.
    unfold co in Hc. congruence.
Qed.

Lemma prims_stays_dead lv em t σ σ' :
  rtc (prim lv em) σ σ' -> stays_dead t σ σ'.
Proof.
  apply prims_within.
  - intros σ0 H. done.
  - intros σ1 σ2 σ3 H12 H23 H. destruct (H12 H) as [D2 A2].
    destruct (H23 D2) as [D3 A3]. split; [done|congruence].
  - intros σ0 σ0'. apply prim_stays_dead.
Qed.

(** User observers are told in registration order. *)
Definition user_notices (p : nat) (x : notice) (obs : list observer)
  : list (nat * nat * notice) :=
  omap (fun o => match o with ObsUser n => Some (n, p, x) | _ => None end) obs.

Lemma notices_update p f σ : notices (update p f σ) = notices σ.
Proof. done. Qed.

Lemma run_observer_notices p x o σ :
  notices (run_observer p x σ o) = notices σ ++ user_notices p x [o].
Proof.
  destruct o; simpl; rewrite ?app_nil_r; try done.
  - unfold _try_again. destruct (func_lock σ); [|done].
    by destruct (negb _).
  - unfold cb. by destruct (store_last σ !! k).
Qed.

Lemma emit_notices p x obs : forall σ,
  notices (emit p x obs σ) = notices σ ++ user_notices p x obs.
Proof.
  unfold emit. induction obs as [|o obs IH]; intros σ; simpl.
  - by rewrite app_nil_r.
  - rewrite IH, run_observer_notices. rewrite <- app_assoc. f_equal.
    unfold user_notices. simpl. by destruct o.
Qed.

Lemma run_observer_settled p x o σ q :
  finished (obj (run_observer p x σ o) q) = finished (obj σ q) /\
  _exception (obj (run_observer p x σ o) q) = _exception (obj σ q).
Proof.
  destruct o; simpl.
  - unfold _continue, update_co. rewrite obj_update. by case_decide; subst.
  - unfold _try_again. destruct (func_lock σ); [|done].
    destruct (negb _).
    + unfold register_both. rewrite obj_update. by case_decide; subst.
    + unfold _continue, update_co. rewrite obj_update. by case_decide; subst.
  - unfold cb. by destruct (store_last σ !! k).
  - done.
Qed.

Lemma emit_settled p x obs q : forall σ,
  finished (obj (emit p x obs σ) q) = finished (obj σ q) /\
  _exception (obj (emit p x obs σ) q) = _exception (obj σ q).
Proof.
  unfold emit. induction obs as [|o obs IH]; intros σ; simpl; [done|].
  destruct (IH (run_observer p x σ o)) as [-> ->].
  apply run_observer_settled.
Qed.

(** What a successful [throw] of the base class does. *)
Lemma ip_throw_effect p e σ σ' :
  ip_throw p e σ = Some (Ret tt, σ') ->
  finished (obj σ p) = false /\
  finished (obj σ' p) = true /\
  _exception (obj σ' p) = Some e /\
  notices σ' = notices σ ++ user_notices p (NoticeError e) (sig_exception (obj σ p)).
Proof.
  unfold ip_throw. destruct (finished (obj σ p)) eqn:E; [done|].
  intros [= <-]. split; [done|].
  rewrite obj_update_eq. simpl.
  destruct (emit_settled p (NoticeError e) (sig_exception (obj σ p)) p
              (update p (with_outcome PyNone (Some e)
                 match sig_exception (obj σ p) with [] => Some e | _ => None end) σ))
    as [-> ->].
  rewrite obj_update_eq. simpl. repeat split.
  unfold update at 1. simpl. by rewrite emit_notices.
Qed.


Lemma gen_close_effect t σ r σ' :
  gen_close t σ = Some (r, σ') ->
  (r = Exc AttributeError /\ σ' = σ /\ coroutine_of σ t = None) \/
  (exists g, σ' = update_co t (with_coroutine (Some g)) (log_close t σ) /\
             is_Some (co σ t)) \/
  (σ' = log_close t σ /\ r = Ret tt /\ is_Some (co σ t)).
Proof.
  unfold gen_close, coroutine_of. intros H.
  destruct (co σ t) as [c|] eqn:Hc; [|simplify_eq; by left].
  simpl. destruct (_coroutine c) as [[s|s|]|] eqn:Hg.
  - simplify_eq. right; left. eauto.
  - destruct (resume s (RThrow GeneratorExit)) as [y s'| |[]]; simplify_eq;
      right; left; eauto.
  - simplify_eq. right; right. eauto.
  - simplify_eq. by left.
Qed.

(** What [finalize], aborting, has done when it returns normally. *)
Lemma finalize_abort t σ1 σ' :
  finalize t false σ1 = Some (Ret tt, σ') ->
  exists σ2 σ3,
    (sig_exception (obj σ1 t) = [] /\ σ2 = σ1 \/
     sig_exception (obj σ1 t) <> [] /\
     ip_throw t GeneratorExit σ1 = Some (Ret tt, σ2)) /\
    closes σ3 = closes σ2 ++ [t] /\ notices σ3 = notices σ2 /\
    finished (obj σ3 t) = finished (obj σ2 t) /\
    _exception (obj σ3 t) = _exception (obj σ2 t) /\
    is_Some (co σ3 t) /\
    σ' = release t σ3.
Proof.
  unfold finalize. intros H.
  apply try_finally_inv in H as (σ3 & H & ->).
  apply bind_inv in H as [([] & σ2 & Hthrow & Hclose)|(e & _ & [=])].
  exists σ2, σ3.
  assert (sig_exception (obj σ1 t) = [] /\ σ2 = σ1 \/
          sig_exception (obj σ1 t) <> [] /\
          ip_throw t GeneratorExit σ1 = Some (Ret tt, σ2)) as Hfirst.
  { simpl in Hthrow.
    apply bind_inv in Hthrow as [(n & σx & Hn & Hthrow)|(e & Hn & [=])].
    apply gets_inv in Hn as [? ?]; simplify_eq.
    case_bool_decide as Hlen.
    - apply ret_inv in Hthrow as [_ ->]. left. split; [|done].
      by apply nil_length_inv.
    - right. split; [|done]. intros Hnil. apply Hlen. by rewrite Hnil. }
  split; [done|].
  assert (exists r2 σc, gen_close t σ2 = Some (r2, σc) /\
            (r2 = Ret tt /\ σ3 = σc \/
             r2 = Exc RuntimeError /\ σ3 = log_warning t σc)) as
    (r2 & σc & Hc & Hr2).
  { apply try_except_inv in Hclose as [([] & Hc & _)|(e & σc & Hc & Hh)].
    - exists (Ret tt), σ3. auto.
    - exists (Exc e), σc. destruct e; try (by apply raise_inv in Hh as [? _]).
      apply modify_inv in Hh as [_ ->]. auto. }
  apply gen_close_effect in Hc as [(-> & _)|[(g & -> & Hco)|(-> & _ & Hco)]].
  - by destruct Hr2 as [[? _]|[? _]].
  - assert (forall σx, σ3 = σx \/ σ3 = log_warning t σx ->
        closes σ3 = closes σx /\ notices σ3 = notices σx /\
        obj σ3 t = obj σx t /\ co σ3 t = co σx t) as Hw.
    { intros σx [->| ->]; done. }
    destruct (Hw (update_co t (with_coroutine (Some g)) (log_close t σ2)))
      as (-> & -> & -> & ->).
    { destruct Hr2 as [[_ ->]|[_ ->]]; auto. }
    simpl. rewrite finished_update_co. unfold update_co at 1.
    rewrite obj_update_eq. simpl. repeat split; try done.
    rewrite co_update_co. case_decide; [|done].
    destruct Hco as [c Hc]. change (co (log_close t σ2) t) with (co σ2 t).
    rewrite Hc. done.
  - destruct Hr2 as [[_ ->]|[_ ->]]; simpl; repeat split; done.
Qed.



Lemma co_stop_timer t σ u :
  prerequisite_of (stop_timer t σ) u = prerequisite_of σ u /\
  coroutine_of (stop_timer t σ) u = coroutine_of σ u /\
  (is_Some (co (stop_timer t σ) u) <-> is_Some (co σ u)).
Proof.
  unfold prerequisite_of, coroutine_of, stop_timer.
  rewrite co_update_co. case_decide; subst; [|done].
  destruct (co σ u) as [c|]; simpl; [|by rewrite !is_Some_alt].
  split_and!; try (by rewrite !is_Some_alt).
  - destruct (_timer c) as [tm|]; [destruct (t_active tm)|]; done.
  - destruct (_timer c) as [tm|]; [destruct (t_active tm)|]; done.
Qed.


Lemma emit_closes p x obs : forall σ, closes (emit p x obs σ) = closes σ.
Proof.
  unfold emit. induction obs as [|o obs IH]; intros σ; simpl; [done|].
  rewrite IH. destruct o; simpl; try done.
  - unfold _try_again. destruct (func_lock σ); [|done]. by destruct (negb _).
  - unfold cb. by destruct (store_last σ !! k).
Qed.

Lemma ip_throw_closes p e σ r σ' :
  ip_throw p e σ = Some (r, σ') -> closes σ' = closes σ.
Proof.
  unfold ip_throw. destruct (finished (obj σ p)); intros [= <- <-]; [done|].
  unfold update at 1. simpl. by rewrite emit_closes.
Qed.



(** ** The policy store *)

Lemma list_remove_first_absent x l : x ∉ l -> list_remove_first x l = l.
Proof.
  induction l as [|y l IH]; simpl; [done|]. intros Hx.
  apply not_elem_of_cons in Hx as [Hne Hx]. case_decide; [done|].
  by rewrite IH.
Qed.

Lemma filter_id {A} (P : A -> Prop) `{!forall x, Decision (P x)} (l : list A) :
  (forall x, x ∈ l -> P x) -> filter P l = l.
Proof.
  induction l as [|y l IH]; [done|]. intros HP.
  rewrite filter_cons_True; [|apply HP; left].
  rewrite IH; [done|]. intros x Hx. apply HP. by right.
Qed.

Lemma list_remove_first_NoDup x l :
  NoDup l -> list_remove_first x l = filter (fun y => y <> x) l.
Proof.
  induction l as [|y l IH]; simpl; [done|]. intros Hnd.
  apply NoDup_cons in Hnd as [Hy Hnd]. case_decide as Hxy.
  - subst. rewrite filter_cons_False; [|by intros ?].
    symmetry. apply filter_id. intros z Hz ->. done.
  - rewrite filter_cons_True; [|done]. by rewrite IH.
Qed.

Lemma filter_filter_ne (P : nat -> Prop) `{!forall x, Decision (P x)} p (l : list nat) :
  filter (fun y => y <> p) (filter P l) = filter (fun y => P y /\ y <> p) l.
Proof.
  induction l as [|y l IH]; [done|].
  destruct (decide (P y)) as [HP|HP].
  - rewrite (filter_cons_True P); [|done].
    destruct (decide (y = p)) as [->|Hne].
    + rewrite filter_cons_False; [|by intros ?].
      rewrite filter_cons_False; [done|]. by intros [_ ?].
    + rewrite !filter_cons_True; [|done..]. by rewrite IH.
  - rewrite (filter_cons_False P); [|done].
    rewrite filter_cons_False; [done|]. by intros [? _].
Qed.

(** What the invariant of the store looks at. *)
Definition has_cb (σ : state) (p k t : nat) : Prop :=
  ObsCb k t ∈ sig_finished (obj σ p) \/ ObsCb k t ∈ sig_exception (obj σ p).

(** The invariant of the store under the policies that keep [last]: the
    list holds the unfinished tasks issued for the key, oldest first, and
    each of them carries the closure [cb] on both of its signals. *)
Record store_inv (σ : state) : Prop := StoreInv {
  inv_last : forall k, last_of k σ = filter (unfinished σ) (issued_for k σ);
  inv_cb : forall k t, t ∈ last_of k σ ->
    ObsCb k t ∈ sig_finished (obj σ t) /\ ObsCb k t ∈ sig_exception (obj σ t);
  inv_own : forall p k t, has_cb σ p k t -> p = t;
  inv_nodup : NoDup (issued σ).*2;
  inv_heap : forall k t, (k, t) ∈ issued σ -> t ∈ dom (heap σ)
}.

(** Changes the invariant does not see. *)
Record same_tracking (σ σ' : state) : Prop := SameTracking {
  st_last : forall k, last_of k σ' = last_of k σ;
  st_issued : issued σ' = issued σ;
  st_finished : forall p, finished (obj σ' p) = finished (obj σ p);
  st_cbf : forall p k t,
    ObsCb k t ∈ sig_finished (obj σ' p) <-> ObsCb k t ∈ sig_finished (obj σ p);
  st_cbe : forall p k t,
    ObsCb k t ∈ sig_exception (obj σ' p) <-> ObsCb k t ∈ sig_exception (obj σ p);
  st_dom : dom (heap σ) ⊆ dom (heap σ')
}.

Lemma same_tracking_refl σ : same_tracking σ σ.
Proof. by split. Qed.

Lemma same_tracking_trans σ1 σ2 σ3 :
  same_tracking σ1 σ2 -> same_tracking σ2 σ3 -> same_tracking σ1 σ3.
Proof.
  intros [A B C D E F] [A' B' C' D' E' F']. split.
  - intros k. by rewrite A', A.
  - by rewrite B', B.
  - intros p. by rewrite C', C.
  - intros p k t. by rewrite D', D.
  - intros p k t. by rewrite E', E.
  - set_solver.
Qed.

Lemma issued_for_same σ σ' k : issued σ' = issued σ -> issued_for k σ' = issued_for k σ.
Proof. unfold issued_for. by intros ->. Qed.

Lemma filter_unfinished_same σ σ' (l : list nat) :
  (forall p, finished (obj σ' p) = finished (obj σ p)) ->
  filter (unfinished σ') l = filter (unfinished σ) l.
Proof.
  intros H. apply list_filter_iff. intros x. unfold unfinished. by rewrite H.
Qed.

Lemma same_tracking_inv σ σ' : same_tracking σ σ' -> store_inv σ -> store_inv σ'.
Proof.
  intros [A B C D E F] [I1 I2 I3 I4 I5]. split.
  - intros k. rewrite A, I1, (issued_for_same _ _ _ B).
    symmetry. by apply filter_unfinished_same.
  - intros k t Ht. rewrite A in Ht. rewrite D, E. by apply I2.
  - intros p k t [H|H]; apply (I3 p k t); [left; by apply D|right; by apply E].
  - by rewrite B.
  - intros k t Ht. rewrite B in Ht. apply F. by eapply I5.
Qed.

Lemma same_tracking_update p f σ :
  (forall x, finished (f x) = finished x) ->
  (forall x k t, ObsCb k t ∈ sig_finished (f x) <-> ObsCb k t ∈ sig_finished x) ->
  (forall x k t, ObsCb k t ∈ sig_exception (f x) <-> ObsCb k t ∈ sig_exception x) ->
  same_tracking σ (update p f σ).
Proof.
  intros Hf Hsf Hse. split; try done.
  - intros q. rewrite obj_update. case_decide; by subst.
  - intros q k t. rewrite obj_update. case_decide; by subst.
  - intros q k t. rewrite obj_update. case_decide; by subst.
  - unfold update. simpl. set_solver.
Qed.

Lemma elem_of_app_non_cb k t (l : list observer) o :
  non_cb o -> ObsCb k t ∈ l ++ [o] <-> ObsCb k t ∈ l.
Proof.
  intros Ho. rewrite elem_of_app, list_elem_of_singleton.
  split; [|auto]. intros [H| <-]; done.
Qed.

Lemma elem_of_filter_non_cb k t (l : list observer) o :
  non_cb o -> ObsCb k t ∈ filter (fun x => x <> o) l <-> ObsCb k t ∈ l.
Proof.
  intros Ho. rewrite list_elem_of_filter. split; [by intros [_ ?]|].
  intros H. split; [|done]. by intros <-.
Qed.

Lemma prim_same_tracking lv σ σ' :
  lv <= 1 -> prim lv false σ σ' -> same_tracking σ σ'.
Proof.
  intros Hlv H. destruct H; try lia; try done; try (by split);
    try (apply same_tracking_update; by intros).
  - destruct H as [?|[?|[Hf Hg]]]; [done|lia|].
    apply same_tracking_update; simpl; intros; try done;
      by apply elem_of_app_non_cb.
  - apply same_tracking_update; simpl; intros; try done;
      by apply elem_of_filter_non_cb.
Qed.


(** The state while the observers [rem] of the just settled [p] are still
    to be called, against the state [σ] before the settlement. *)
Record emitting (σ : state) (p : nat) (rem : list observer) (σ' : state)
  : Prop := Emitting {
  em_last : forall k,
    last_of k σ' = filter (fun t => t <> p) (last_of k σ) \/
    (ObsCb k p ∈ rem /\ last_of k σ' = last_of k σ);
  em_issued : issued σ' = issued σ;
  em_finished : forall q,
    finished (obj σ' q) = if decide (q = p) then true else finished (obj σ q);
  em_cbf : forall q k t,
    ObsCb k t ∈ sig_finished (obj σ' q) <-> ObsCb k t ∈ sig_finished (obj σ q);
  em_cbe : forall q k t,
    ObsCb k t ∈ sig_exception (obj σ' q) <-> ObsCb k t ∈ sig_exception (obj σ q);
  em_dom : dom (heap σ) ⊆ dom (heap σ')
}.

Lemma last_of_set_store_last k l σ k' :
  last_of k' (set_store_last k l σ) = if decide (k = k') then l else last_of k' σ.
Proof.
  unfold last_of. simpl. case_decide; subst.
  - by rewrite lookup_insert_eq.
  - by rewrite lookup_insert_ne.
Qed.

Lemma emitting_same σ p rem σ' σ'' o :
  non_cb o -> emitting σ p (o :: rem) σ' -> same_tracking σ' σ'' ->
  emitting σ p rem σ''.
Proof.
  intros Ho [A B C D E F] [A' B' C' D' E' F']. split.
  - intros k. rewrite A'. destruct (A k) as [H|[Hin H]]; [by left|right].
    split; [|done]. apply elem_of_cons in Hin as [<-|Hin]; done.
  - by rewrite B', B.
  - intros q. by rewrite C', C.
  - intros q k t. by rewrite D', D.
  - intros q k t. by rewrite E', E.
  - set_solver.
Qed.

Lemma emitting_step σ p x o rem σ' :
  (forall k, NoDup (last_of k σ)) ->
  (forall k t, o = ObsCb k t -> t = p) ->
  emitting σ p (o :: rem) σ' -> emitting σ p rem (run_observer p x σ' o).
Proof.
  intros Hnd Ho Hem. destruct o as [t|t|k t|n]; simpl.
  - eapply emitting_same; [|done|]; [done|].
    apply (prim_same_tracking 0); [lia|]. apply p_co. solve_keeps_none.
  - eapply emitting_same; [|done|]; [done|].
    unfold _try_again. destruct (func_lock σ') as [l|];
      [|apply same_tracking_refl].
    destruct (negb _).
    + apply (prim_same_tracking 0); [lia|]. apply p_register.
      right; right. done.
    + eapply same_tracking_trans.
      * apply (prim_same_tracking 0); [lia|]. apply p_lock.
      * apply (prim_same_tracking 0); [lia|]. apply p_co. solve_keeps_none.
  - rewrite (Ho k t eq_refl) in *. clear Ho t.
    destruct Hem as [A B C D E F]. unfold cb.
    destruct (store_last σ' !! k) as [l|] eqn:Hl.
    + assert (last_of k σ' = l) as Hlk by (unfold last_of; by rewrite Hl).
      split; try done. intros k'. rewrite last_of_set_store_last.
      case_decide as Hk; subst.
      * left. destruct (A k') as [H|[_ H]].
        -- rewrite H. apply list_remove_first_absent.
           rewrite list_elem_of_filter. by intros [? _].
        -- rewrite H. by apply list_remove_first_NoDup.
      * destruct (A k') as [H|[Hin H]]; [by left|right]. split; [|done].
        apply elem_of_cons in Hin as [[=]|Hin]; done.
    + assert (last_of k σ' = []) as Hlk by (unfold last_of; by rewrite Hl).
      split; try done. intros k'.
      destruct (A k') as [H|[Hin H]]; [by left|].
      apply elem_of_cons in Hin as [[= <-]|Hin]; [|by right].
      left. rewrite <- H, Hlk. done.
  - eapply emitting_same; [|done|]; [done|].
    apply (prim_same_tracking 0); [lia|]. apply p_log_notice.
Qed.

Lemma emitting_emit σ p x obs : forall σ',
  (forall k, NoDup (last_of k σ)) ->
  (forall k t, ObsCb k t ∈ obs -> t = p) ->
  emitting σ p obs σ' -> emitting σ p [] (emit p x obs σ').
Proof.
  unfold emit. induction obs as [|o obs IH]; intros σ' Hnd Ho Hem; [done|].
  simpl. apply IH; [done| |].
  - intros k t Hin. apply (Ho k t). by right.
  - apply emitting_step; [done| |done]. intros k t ->. apply (Ho k t). by left.
Qed.

Lemma issued_for_NoDup k σ : NoDup (issued σ).*2 -> NoDup (issued_for k σ).
Proof.
  unfold issued_for. generalize (issued σ). intros l.
  induction l as [|[k' t] l IH]; simpl; [constructor|].
  intros Hnd. apply NoDup_cons in Hnd as [Hnin Hnd].
  destruct (decide (k' = k)) as [->|Hne].
  - rewrite filter_cons_True; [|done]. simpl. apply NoDup_cons. split; [|auto].
    intros Hin. apply Hnin. apply list_elem_of_fmap in Hin as ([k2 t2] & -> & Hin).
    apply list_elem_of_filter in Hin as [_ Hin].
    apply list_elem_of_fmap. by exists (k2, t2).
  - rewrite filter_cons_False; [|done]. auto.
Qed.

Lemma last_of_NoDup σ k : store_inv σ -> NoDup (last_of k σ).
Proof.
  intros [I1 _ _ I4 _]. rewrite I1. apply NoDup_filter.
  by apply issued_for_NoDup.
Qed.

(** Settling [p] and telling the observers [obs] keeps the invariant,
    when [obs] holds the closures that watch [p]. *)
Lemma settle_inv p v e u obs x σ :
  store_inv σ -> finished (obj σ p) = false ->
  (forall k, p ∈ last_of k σ -> ObsCb k p ∈ obs) ->
  (forall k t, ObsCb k t ∈ obs -> t = p) ->
  store_inv (update p (with_signals [] [])
               (emit p x obs (update p (with_outcome v e u) σ))).
Proof.
  intros Hinv Hfin Hcb Hown.
  assert (emitting σ p obs (update p (with_outcome v e u) σ)) as Hem.
  { split; try done.
    - intros k. change (last_of k (update p (with_outcome v e u) σ))
        with (last_of k σ).
      destruct (decide (p ∈ last_of k σ)) as [Hin|Hnin].
      + right. auto.
      + left. symmetry. apply filter_id. intros t Ht ->. done.
    - intros q. rewrite obj_update. case_decide; subst; by case_decide.
    - intros q k t. rewrite obj_update. by case_decide; subst.
    - intros q k t. rewrite obj_update. by case_decide; subst.
    - unfold update. simpl. set_solver. }
  apply (emitting_emit σ p x) in Hem; [|intros; by apply last_of_NoDup|done].
  destruct Hem as [A B C D E F]. destruct Hinv as [I1 I2 I3 I4 I5].
  set (σ2 := emit p x obs _) in *.
  assert (forall k, last_of k σ2 =
            filter (unfinished (update p (with_signals [] []) σ2))
                   (issued_for k σ)) as Hlast.
  { intros k. destruct (A k) as [H|[Hin _]]; [|by apply elem_of_nil in Hin].
    rewrite H, I1, filter_filter_ne. apply list_filter_iff. intros t.
    unfold unfinished. rewrite obj_update.
    case_decide as Ht; subst; simpl; rewrite C; case_decide; naive_solver. }
  split.
  - intros k. change (last_of k (update p (with_signals [] []) σ2))
      with (last_of k σ2).
    rewrite Hlast. f_equal. apply issued_for_same. done.
  - intros k t. change (last_of k (update p (with_signals [] []) σ2))
      with (last_of k σ2). intros Ht.
    destruct (A k) as [H|[Hin _]]; [|by apply elem_of_nil in Hin].
    rewrite H in Ht. apply list_elem_of_filter in Ht as [Hne Ht].
    rewrite obj_update_ne; [|done]. rewrite D, E. by apply I2.
  - intros q k t [H|H]; rewrite obj_update in H; case_decide; subst;
      simpl in H; try (by apply elem_of_nil in H).
    + apply (I3 q k t). left. by apply D.
    + apply (I3 q k t). right. by apply E.
  - change (issued (update p (with_signals [] []) σ2)) with (issued σ2).
    by rewrite B.
  - intros k t. change (issued (update p (with_signals [] []) σ2))
      with (issued σ2). rewrite B. intros Ht.
    unfold update. simpl. apply elem_of_dom. rewrite lookup_insert.
    case_decide; [done|]. apply elem_of_dom, F. by eapply I5.
Qed.

Lemma finish_inv p v σ σ' :
  store_inv σ -> ip_finish p v σ = Some (Ret tt, σ') -> store_inv σ'.
Proof.
  intros Hinv H. unfold ip_finish in H.
  destruct (finished (obj σ p)) eqn:Hfin; simplify_eq.
  apply settle_inv; try done.
  - intros k Hk. by apply (inv_cb σ Hinv).
  - intros k t Hk. symmetry. apply (inv_own σ Hinv p k t). by left.
Qed.

Lemma throw_inv p e σ σ' :
  store_inv σ -> ip_throw p e σ = Some (Ret tt, σ') -> store_inv σ'.
Proof.
  intros Hinv H. unfold ip_throw in H.
  destruct (finished (obj σ p)) eqn:Hfin; simplify_eq.
  apply settle_inv; try done.
  - intros k Hk. by apply (inv_cb σ Hinv).
  - intros k t Hk. symmetry. apply (inv_own σ Hinv p k t). by right.
Qed.

Lemma block_inv lv σ σ' :
  lv <= 1 -> block lv σ σ' -> store_inv σ -> store_inv σ'.
Proof.
  intros Hlv [σ1 σ2 H|p v σ1 σ2 H|p e σ1 σ2 H] Hinv.
  - eapply same_tracking_inv; [|done]. by eapply prim_same_tracking.
  - by eapply finish_inv.
  - by eapply throw_inv.
Qed.

Lemma blocks_inv lv σ σ' :
  lv <= 1 -> rtc (block lv) σ σ' -> store_inv σ -> store_inv σ'.
Proof.
  intros Hlv H. induction H; [done|]. intros Hinv.
  apply IHrtc. by eapply block_inv.
Qed.


(** ** Calls of the decorated function *)

Lemma tracks_last_policy :
  tracks_last = true ->
  policy = Some POLICY_SINGLETON \/ policy = Some POLICY_PASS_LAST.
Proof. unfold tracks_last. destruct policy as [[]|]; auto; done. Qed.

Lemma store_init_same k σ :
  same_tracking σ
    match store_last σ !! k with
    | Some _ => σ
    | None => set_store_last k [] σ
    end.
Proof.
  destruct (store_last σ !! k) eqn:E; [apply same_tracking_refl|].
  split; try done. intros k'. rewrite last_of_set_store_last.
  case_decide; [|done]. subst. unfold last_of. by rewrite E.
Qed.

(** What the prologue decides, and that it leaves everything as it is but
    for creating an empty [last]. *)
Lemma policy_prologue_spec k σ r σ1 :
  policy_prologue k σ = Some (r, σ1) ->
  same_tracking σ σ1 /\ calls σ1 = calls σ /\ heap σ1 = heap σ /\
  (is_Some (store_last σ !! k) \/ policy = None -> σ1 = σ) /\
  r = Ret match policy, py_last (last_of k σ) with
          | Some POLICY_SINGLETON, Some t => PReturn t
          | Some POLICY_PASS_LAST, l => PCall (Some l)
          | _, _ => PCall None
          end.
Proof.
  unfold policy_prologue. intros H. destruct policy as [pol|].
  - apply bind_inv in H as [([] & σa & Ha & H)|(e & Ha & _)];
      [|by apply modify_inv in Ha as [? _]].
    apply modify_inv in Ha as [_ ->].
    apply bind_inv in H as [(l & σb & Hb & H)|(e & Hb & _)];
      [|by apply gets_inv in Hb as [? _]].
    apply gets_inv in Hb as [? ?]; simplify_eq.
    pose proof (store_init_same k σ) as Hsame.
    set (σa := match store_last σ !! k with Some _ => σ | None => _ end) in *.
    assert (last_of k σa = last_of k σ) as Hl by apply Hsame.
    assert (σ1 = σa /\ r = Ret match pol, py_last (last_of k σ) with
          | POLICY_SINGLETON, Some t => PReturn t
          | POLICY_PASS_LAST, l => PCall (Some l)
          | _, _ => PCall None
          end) as [-> ->].
    { rewrite Hl in H. destruct pol, (py_last (last_of k σ));
        apply ret_inv in H as [? ?]; by subst. }
    split; [done|]. split; [subst σa; by destruct (store_last σ !! k)|].
    split; [subst σa; by destruct (store_last σ !! k)|].
    split; [|done]. intros [[l Hs]|?]; [|done]. subst σa. by rewrite Hs.
  - apply ret_inv in H as [-> ->]. repeat split; done.
Qed.

Lemma obj_set_active s σ q : obj (set_active s σ) q = obj σ q.
Proof. done. Qed.

(** What the constructor of a coroutine object leaves behind. *)
Lemma CoroutineInProgress_init_spec g d locked σ r σ' :
  CoroutineInProgress_init g d None locked σ = Some (r, σ') ->
  exists t, r = Ret t /\ (t ∉ dom (heap σ)) /\ (t ∈ dom (heap σ')) /\
    same_tracking σ σ' /\ calls σ' = calls σ /\
    obj σ' t = make_co {| _coroutine := Some g; _timer := Some (Timer false 0);
                          _interval := d; _prerequisite_ip := None;
                          _locked := locked |} blank_ip.
Proof.
  unfold CoroutineInProgress_init. intros H.
  apply bind_inv in H as [(t & σa & Ha & H)|(e & Ha & _)]; [|done].
  apply InProgress_init_blank in Ha as (t' & [= <-] & Hfresh & Hblank & ->).
  apply bind_inv in H as [([] & σb & Hb & H)|(e & Hb & _)];
    [|by apply modify_inv in Hb as [? _]].
  apply modify_inv in Hb as [_ ->].
  apply bind_inv in H as [([] & σc & Hc & H)|(e & Hc & _)];
    [|by apply modify_inv in Hc as [? _]].
  apply modify_inv in Hc as [_ ->]. apply ret_inv in H as [-> ->].
  exists t. split; [done|]. split; [by apply not_elem_of_dom|].
  assert (obj σ t = blank_ip) as Hold.
  { unfold obj. by rewrite Hfresh. }
  set (c := {| _coroutine := Some g; _timer := Some (Timer false 0);
               _interval := d; _prerequisite_ip := None; _locked := locked |}).
  set (σ1 := set_heap (<[t:=blank_ip]> (heap σ)) σ) in *.
  assert (forall q, obj (set_active (_active_coroutines (update t (make_co c) σ1) ∪ {[t]})
                           (update t (make_co c) σ1)) q
                    = if decide (t = q) then make_co c blank_ip else obj σ q) as Hobj.
  { intros q. rewrite obj_set_active, obj_update. unfold σ1.
    rewrite !obj_alloc. by repeat case_decide. }
  split; [simpl; set_solver|]. split; [|split; [done|]].
  - split; try done.
    + intros p. rewrite Hobj. case_decide; subst; [by rewrite Hold|done].
    + intros p k u. rewrite Hobj. case_decide; subst; [by rewrite Hold|done].
    + intros p k u. rewrite Hobj. case_decide; subst; [by rewrite Hold|done].
    + simpl. set_solver.
  - rewrite Hobj. by case_decide.
Qed.

(** [wrap] on a task not issued before. *)
Lemma wrap_spec k pr t σ r σ' :
  tracks_last = true -> store_inv σ ->
  t ∉ (issued σ).*2 -> t ∈ dom (heap σ) ->
  wrap k pr t σ = Some (r, σ') ->
  r = Ret t /\ store_inv σ' /\ issued σ' = issued σ ++ [(k, t)] /\
  calls σ' = calls σ /\
  last_of k σ' = (if finished (obj σ t) then last_of k σ else last_of k σ ++ [t]).
Proof.
  intros Htl Hinv Hnew Hdom H. unfold wrap in H. rewrite Htl in H.
  apply bind_inv in H as [([] & σa & Ha & H)|(e & Ha & _)].
  2:{ destruct progress; [by apply modify_inv in Ha as [? _]|
                          by apply ret_inv in Ha as [? _]]. }
  assert (same_tracking σ σa /\ calls σa = calls σ) as [Hsa Hca].
  { destruct progress.
    - apply modify_inv in Ha as [_ ->]. split; [|done].
      by apply same_tracking_update.
    - apply ret_inv in Ha as [_ ->]. split; [apply same_tracking_refl|done]. }
  pose proof (same_tracking_inv _ _ Hsa Hinv) as Hinva.
  apply bind_inv in H as [(f & σb & Hb & H)|(e & Hb & _)];
    [|by apply gets_inv in Hb as [? _]].
  apply gets_inv in Hb as [? ?]; simplify_eq.
  assert (finished (obj σa t) = finished (obj σ t)) as Hft by apply Hsa.
  rewrite Hft in H.
  assert (t ∉ (issued σa).*2) as Hnewa by (by rewrite (st_issued _ _ Hsa)).
  assert (t ∈ dom (heap σa)) as Hdoma by (by apply (st_dom _ _ Hsa)).
  assert (issued σa = issued σ) as Hia by apply Hsa.
  assert (last_of k σa = last_of k σ) as Hla by apply Hsa.
  destruct Hinva as [I1 I2 I3 I4 I5].
  destruct (finished (obj σ t)) eqn:Hfin; simpl in H.
  - (* already terminal: only handed out *)
    apply bind_inv in H as [([] & σc & Hc & H)|(e & Hc & _)];
      [|by apply ret_inv in Hc as [? _]].
    apply ret_inv in Hc as [_ ->].
    apply bind_inv in H as [([] & σd & Hd & H)|(e & Hd & _)];
      [|by apply modify_inv in Hd as [? _]].
    apply modify_inv in Hd as [_ ->]. apply ret_inv in H as [-> ->].
    split; [done|]. split; [|by rewrite <- Hia, <- Hla].
    split.
    + intros k'. change (last_of k' (log_issue k t σa)) with (last_of k' σa).
      rewrite I1. unfold issued_for. simpl. rewrite filter_app, fmap_app, filter_app.
      assert (filter (unfinished (log_issue k t σa))
                (filter (fun kt => kt.1 = k') [(k, t)]).*2 = []) as ->.
      { destruct (decide (k = k')) as [->|Hne].
        - rewrite filter_cons_True; [|done]. simpl.
          rewrite filter_cons_False; [done|]. unfold unfinished.
          change (obj (log_issue k' t σa) t) with (obj σa t). by rewrite Hft.
        - rewrite filter_cons_False; [done|]. done. }
      by rewrite app_nil_r.
    + done.
    + done.
    + simpl. rewrite fmap_app. apply NoDup_app. split; [done|]. split.
      * intros x Hx Hx'. apply list_elem_of_singleton in Hx'. by subst.
      * apply NoDup_singleton.
    + intros k' t'. simpl. rewrite elem_of_app, list_elem_of_singleton.
      intros [Hin|[= -> ->]]; [by eapply I5|done].
  - (* unfinished: appended to [last], with [cb] on both signals *)
    apply bind_inv in H as [([] & σc & Hc & H)|(e & Hc & _)].
    2:{ apply bind_inv in Hc as [(? & ? & Hc1 & Hc2)|(? & Hc1 & _)];
          [by apply modify_inv in Hc2 as [? _]|by apply modify_inv in Hc1 as [? _]]. }
    apply bind_inv in Hc as [([] & σc1 & Hc1 & Hc2)|(? & Hc1 & _)];
      [|by apply modify_inv in Hc1 as [? _]].
    apply modify_inv in Hc1 as [_ ->]. apply modify_inv in Hc2 as [_ ->].
    apply bind_inv in H as [([] & σd & Hd & H)|(e & Hd & _)];
      [|by apply modify_inv in Hd as [? _]].
    apply modify_inv in Hd as [_ ->]. apply ret_inv in H as [-> ->].
    set (σs := set_store_last k (last_of k σa ++ [t]) σa).
    assert (connect_both t (ObsCb k t) (ObsCb k t) σs
            = register_both t (ObsCb k t) (ObsCb k t) σs) as ->.
    { unfold connect_both. change (obj σs t) with (obj σa t).
      by rewrite Hft. }
    set (σr := register_both t (ObsCb k t) (ObsCb k t) σs).
    assert (forall q, finished (obj σr q) = finished (obj σa q)) as Hfr.
    { intros q. unfold σr, register_both. rewrite obj_update.
      case_decide; by subst. }
    assert (forall k', last_of k' σr =
              if decide (k = k') then last_of k σa ++ [t] else last_of k' σa)
      as Hlr.
    { intros k'. change (last_of k' σr) with (last_of k' σs).
      apply last_of_set_store_last. }
    split; [done|]. split.
    2:{ split; [simpl; by rewrite Hia|]. split; [done|].
        change (last_of k (log_issue k t σr)) with (last_of k σr).
        rewrite Hlr. case_decide; [|done]. by rewrite Hla. }
    split.
    + intros k'. change (last_of k' (log_issue k t σr)) with (last_of k' σr).
      rewrite Hlr. unfold issued_for. simpl.
      rewrite filter_app, fmap_app, filter_app.
      assert (forall l : list nat, filter (unfinished (log_issue k t σr)) l
                        = filter (unfinished σa) l) as Hfl.
      { intros l. apply filter_unfinished_same. intros q.
        change (obj (log_issue k t σr) q) with (obj σr q). apply Hfr. }
      rewrite !Hfl. fold (issued_for k' σa). rewrite <- I1.
      case_decide as Hk; subst.
      * rewrite filter_cons_True; [|done]. simpl.
        rewrite filter_cons_True; [done|]. unfold unfinished. by rewrite Hft.
      * rewrite filter_cons_False; [|done]. simpl. by rewrite app_nil_r.
    + intros k' t'. change (last_of k' (log_issue k t σr)) with (last_of k' σr).
      change (obj (log_issue k t σr) t') with (obj σr t').
      rewrite Hlr. unfold σr, register_both. rewrite obj_update. simpl.
      intros Hin. destruct (decide (t = t')) as [<-|Ht].
      * simpl. destruct (decide (k = k')) as [<-|Hne].
        -- split; apply elem_of_app; right; by apply list_elem_of_singleton.
        -- destruct (I2 k' t Hin). split; apply elem_of_app; by left.
      * change (obj σs t') with (obj σa t'). apply I2.
        destruct (decide (k = k')) as [<-|Hne]; [|done].
        apply elem_of_app in Hin as [Hin|Hin]; [done|].
        apply list_elem_of_singleton in Hin. by subst.
    + intros p k' t'. unfold has_cb.
      change (obj (log_issue k t σr) p) with (obj σr p).
      unfold σr, register_both. rewrite obj_update.
      case_decide as Hp; subst; simpl.
      * rewrite !elem_of_app, !list_elem_of_singleton.
        intros [[H|[=]]|[H|[=]]]; subst; try done.
        -- apply (I3 p k' t'). by left.
        -- apply (I3 p k' t'). by right.
      * apply (I3 p k' t').
    + simpl. rewrite fmap_app. apply NoDup_app. split; [done|]. split.
      * intros x Hx Hx'. apply list_elem_of_singleton in Hx'. by subst.
      * apply NoDup_singleton.
    + intros k' t'. simpl. rewrite elem_of_app, list_elem_of_singleton.
      intros [Hin|[= -> ->]].
      * apply elem_of_dom. rewrite lookup_insert. case_decide; [done|].
        apply elem_of_dom. by eapply I5.
      * apply elem_of_dom. by rewrite lookup_insert_eq.
Qed.


(** A coroutine object stays one. *)
Definition stays_coroutine (t : nat) (σ σ' : state) : Prop :=
  is_Some (co σ t) -> is_Some (co σ' t).

Lemma prim_stays_coroutine lv em t σ σ' : prim lv em σ σ' -> stays_coroutine t σ σ'.
Proof.
  intros H Hco.
  assert (forall p f, (forall x, ip_co (f x) = ip_co x) ->
            is_Some (co (update p f σ) t)) as Hkeep.
  { intros p f Hf. by rewrite co_update_keeps. }
  destruct H; try done; try (by apply Hkeep).
  - rewrite co_update_co. case_decide; subst; [|done].
    destruct Hco as [c ->]. by eexists.
  - unfold co. rewrite obj_alloc. case_decide; [|done]. subst.
    destruct Hco as [c Hc]. unfold co, obj in Hc. by rewrite H0 in Hc.
  - unfold co. rewrite obj_update. case_decide; [|done]. by eexists.
Qed.

Lemma prims_stays_coroutine lv em t σ σ' :
  rtc (prim lv em) σ σ' -> stays_coroutine t σ σ'.
Proof.
  apply prims_within.
  - by intros σ0 H.
  - intros σ1 σ2 σ3 H12 H23 H. auto.
  - intros σ0 σ0'. apply prim_stays_coroutine.
Qed.

Lemma issued_not_fresh σ t :
  store_inv σ -> t ∉ dom (heap σ) -> t ∉ (issued σ).*2.
Proof.
  intros Hinv Hfresh Hin. apply Hfresh.
  apply list_elem_of_fmap in Hin as ([k t'] & -> & Hin).
  by eapply (inv_heap σ Hinv).
Qed.

(** A call that gets as far as calling [func]. *)
Lemma invoke_spec fuel a kw σ r σ' :
  tracks_last = true -> store_inv σ ->
  invoke fuel a kw σ = Some (r, σ') ->
  store_inv σ' /\ calls σ' = calls σ ++ [(key_of a, kw)] /\
  ((forall pr, exists s, func pr a kw = FGenerator s) ->
   exists t, (t ∉ dom (heap σ)) /\ is_Some (co σ' t) /\
             (r = Ret t \/ exists e, r = Exc e)) /\
  match r with
  | Ret t => (t ∉ dom (heap σ)) /\ is_Some (co σ' t) /\
             issued σ' = issued σ ++ [(key_of a, t)]
  | Exc _ => issued σ' = issued σ
  end.
Proof.
  intros Htl Hinv H. unfold invoke in H.
  assert (policy <> Some POLICY_SYNCHRONIZED) as Hpol.
  { destruct (tracks_last_policy Htl) as [-> | ->]; done. }
  (* the Progress object *)
  apply bind_inv in H as [(pr & σa & Ha & H)|(e & Ha & _)].
  2:{ destruct progress; [|by apply ret_inv in Ha as [? _]].
      apply bind_inv in Ha as [(? & ? & Ha1 & Ha2)|(? & Ha1 & _)];
        [|by apply gets_inv in Ha1 as [? _]].
      apply bind_inv in Ha2 as [(? & ? & Ha2 & Ha3)|(? & Ha2 & _)];
        [by apply ret_inv in Ha3 as [? _]|by apply modify_inv in Ha2 as [? _]]. }
  assert (same_tracking σ σa /\ calls σa = calls σ /\ heap σa = heap σ)
    as (Hsa & Hca & Hha).
  { destruct progress.
    - apply bind_inv in Ha as [(n & σx & Ha1 & Ha2)|(? & Ha1 & _)];
        [|by apply gets_inv in Ha1 as [? _]].
      apply gets_inv in Ha1 as [? ?]; simplify_eq.
      apply bind_inv in Ha2 as [([] & σy & Ha2 & Ha3)|(? & Ha2 & _)];
        [|by apply modify_inv in Ha2 as [? _]].
      apply modify_inv in Ha2 as [_ ->]. apply ret_inv in Ha3 as [_ ->].
      by repeat split.
    - apply ret_inv in Ha as [_ ->]. by repeat split. }
  apply bind_inv in H as [([] & σb & Hb & H)|(e & Hb & _)];
    [|by apply modify_inv in Hb as [? _]].
  apply modify_inv in Hb as [_ ->].
  assert (same_tracking σ (log_call (key_of a) kw σa)) as Hsb.
  { eapply same_tracking_trans; [done|]. by split. }
  pose proof (same_tracking_inv _ _ Hsb Hinv) as Hinvb.
  assert (calls (log_call (key_of a) kw σa) = calls σ ++ [(key_of a, kw)]) as Hcb.
  { simpl. by rewrite Hca. }
  assert (issued (log_call (key_of a) kw σa) = issued σ) as Hib.
  { simpl. apply Hsa. }
  set (σb := log_call (key_of a) kw σa) in *.
  destruct (func pr a kw) as [s| |e] eqn:Hfunc.
  2:{ apply raise_inv in H as [-> ->].
      split; [done|]. split; [done|]. split; [|done].
      intros Hgen. destruct (Hgen pr) as [s Hs]. congruence. }
  2:{ apply raise_inv in H as [-> ->].
      split; [done|]. split; [done|]. split; [|done].
      intros Hgen. destruct (Hgen pr) as [s Hs]. congruence. }
  apply bind_inv in H as [(l & σx & Hl & H)|(e & Hl & _)];
    [|by apply gets_inv in Hl as [? _]].
  apply gets_inv in Hl as [? ?]; simplify_eq.
  apply bind_inv in H as [(held & σx & Hh & H)|(e & Hh & _)];
    [|by apply gets_inv in Hh as [? _]].
  apply gets_inv in Hh as [Hheld ?]; subst σx.
  assert (held = false) as ->.
  { injection Hheld as ->. clear -Hpol. by destruct policy as [[]|]. }
  clear Hheld.
  (* the new task *)
  apply bind_inv in H as [(t & σc & Hc & H)|(e & Hc & _)].
  2:{ apply CoroutineInProgress_init_spec in Hc as (? & [=] & _). }
  apply CoroutineInProgress_init_spec in Hc
    as (t' & [= <-] & Hfresh & Hdomc & Hsc & Hcc & Hobjc).
  rewrite bool_decide_eq_false_2 in H; [|done].
  apply bind_inv in H as [([] & σx & Hx & H)|(e & Hx & _)];
    [|by apply ret_inv in Hx as [? _]].
  apply ret_inv in Hx as [_ ->].
  assert (t ∉ dom (heap σ)) as Hfresh0.
  { subst σb. simpl in Hfresh. by rewrite Hha in Hfresh. }
  pose proof (same_tracking_inv _ _ Hsc Hinvb) as Hinvc.
  assert (is_Some (co σc t)) as Hcoc.
  { unfold co. rewrite Hobjc. simpl. by eexists. }
  (* the eager step *)
  apply bind_inv in H as [(b & σd & Hd & H)|(e & Hd & ->)].
  2:{ pose proof (resp__step 1 fuel ltac:(lia) t σc _ _ Hd) as Hblocks.
      pose proof (blocks_inv 1 _ _ ltac:(lia) Hblocks Hinvc) as Hinvd.
      apply blocks_prims in Hblocks.
      pose proof (prims_creates_nothing _ _ _ Hblocks) as (Hi & Hcl & _ & _).
      pose proof (prims_stays_coroutine _ _ t _ _ Hblocks Hcoc) as Hcod.
      split; [done|]. split; [by rewrite Hcl, Hcc|].
      split; [|by rewrite Hi, (st_issued _ _ Hsc)].
      intros _. exists t. eauto. }
  pose proof (resp__step 1 fuel ltac:(lia) t σc _ _ Hd) as Hblocks.
  pose proof (blocks_inv 1 _ _ ltac:(lia) Hblocks Hinvc) as Hinvd.
  apply blocks_prims in Hblocks.
  pose proof (prims_creates_nothing _ _ _ Hblocks) as (Hi & Hcl & _ & Hdomd).
  pose proof (prims_stays_coroutine _ _ t _ _ Hblocks Hcoc) as Hcod.
  assert (issued σd = issued σ) as Hid by (by rewrite Hi, (st_issued _ _ Hsc)).
  assert (calls σd = calls σ ++ [(key_of a, kw)]) as Hcd by (by rewrite Hcl, Hcc).
  (* starting the timer *)
  apply bind_inv in H as [([] & σe & He & H)|(e & He & ->)].
  2:{ destruct b; [|by apply ret_inv in He as [? _]].
      apply bind_inv in He as [(tm & σx & He1 & He2)|(? & He1 & _)];
        [|by apply gets_inv in He1 as [? _]].
      apply gets_inv in He1 as [? ?]; simplify_eq.
      destruct (timer_of _ t); [by apply modify_inv in He2 as [? _]|].
      apply raise_inv in He2 as [_ ->].
      split; [done|]. split; [done|]. split; [|done].
      intros _. exists t. eauto. }
  assert (same_tracking σd σe /\ calls σe = calls σd /\ is_Some (co σe t))
    as (Hse & Hce & Hcoe).
  { destruct b.
    - apply bind_inv in He as [(tm & σx & He1 & He2)|(? & He1 & _)];
        [|by apply gets_inv in He1 as [? _]].
      apply gets_inv in He1 as [? ?]; simplify_eq.
      destruct (timer_of σd t); [|by apply raise_inv in He2 as [? _]].
      apply modify_inv in He2 as [_ ->]. split; [|split; [done|]].
      + by apply same_tracking_update.
      + rewrite co_update_co. case_decide; [|done].
        destruct Hcod as [c ->]. by eexists.
    - apply ret_inv in He as [_ ->]. split; [apply same_tracking_refl|done]. }
  pose proof (same_tracking_inv _ _ Hse Hinvd) as Hinve.
  pose proof H as Hw.
  apply wrap_spec in H as (-> & Hinv' & Hi' & Hc' & _); try done.
  - split; [done|]. split; [by rewrite Hc', Hce|].
    assert (is_Some (co σ' t)) as Hco'.
    { (* [wrap] keeps the object a coroutine *)
      eapply (prims_stays_coroutine 2 true t σe σ'); [|done].
      apply blocks_prims. eapply (resp_wrap 2); [lia|exact Hw]. }
    split; [intros _; exists t; eauto|].
    split; [done|]. split; [done|].
    by rewrite Hi', (st_issued _ _ Hse), Hid.
  - rewrite (st_issued _ _ Hse), Hid. by apply issued_not_fresh.
  - by apply (st_dom _ _ Hse), Hdomd.
Qed.


Lemma newfunc_inv fuel a σ r σ' :
  tracks_last = true -> store_inv σ ->
  newfunc fuel a σ = Some (r, σ') -> store_inv σ'.
Proof.
  intros Htl Hinv H. unfold newfunc in H.
  apply bind_inv in H as [(pre & σ1 & Hpre & H)|(e & Hpre & _)].
  - apply policy_prologue_spec in Hpre as (Hs & _).
    pose proof (same_tracking_inv _ _ Hs Hinv) as Hinv1.
    destruct pre as [t|kw].
    + apply ret_inv in H as [_ ->]. done.
    + by apply invoke_spec in H as (? & _).
  - apply policy_prologue_spec in Hpre as (Hs & _).
    by apply (same_tracking_inv _ _ Hs).
Qed.

Lemma event_inv fuel ev σ r σ' :
  tracks_last = true -> store_inv σ ->
  run_event fuel ev σ = Some (r, σ') -> store_inv σ'.
Proof.
  intros Htl Hinv H. destruct ev; simpl in H.
  - apply bind_inv in H as [(t & σ1 & H1 & H)|(e0 & H1 & _)].
    + apply ret_inv in H as [_ ->]. by eapply newfunc_inv.
    + by eapply newfunc_inv.
  - eapply (blocks_inv 1); [lia| |done].
    eapply resp_timer_fire; [lia|done].
  - eapply (blocks_inv 0); [lia| |done]. eapply resp_stop. done.
  - apply modify_inv in H as [_ ->].
    eapply (blocks_inv 0); [lia|apply set_interval_blocks|done].
  - apply bind_inv in H as [(t & σ1 & H1 & H)|(e0 & H1 & _)]; [|done].
    apply ret_inv in H as [_ ->].
    apply InProgress_init_blank in H1 as (p & _ & Hfresh & _ & ->).
    eapply same_tracking_inv; [|done].
    assert (obj σ p = blank_ip) as Hold by (unfold obj; by rewrite Hfresh).
    split; try done.
    + intros q. rewrite obj_alloc. case_decide; subst; by rewrite ?Hold.
    + intros q k0 t0. rewrite obj_alloc. case_decide; subst; by rewrite ?Hold.
    + intros q k0 t0. rewrite obj_alloc. case_decide; subst; by rewrite ?Hold.
    + simpl. set_solver.
  - eapply (blocks_inv 0); [lia| |done]. eapply resp_ip_finish. done.
  - eapply (blocks_inv 0); [lia| |done].
    apply bind_inv in H as [(isco & σ1 & H1 & H)|(e0 & H1 & _)];
      [|by apply gets_inv in H1 as [? _]].
    apply gets_inv in H1 as [? ?]; simplify_eq.
    destruct (is_coroutine σ p); [by eapply resp_throw|by eapply resp_ip_throw].
  - apply modify_inv in H as [_ ->].
    eapply (blocks_inv 0); [lia| |done]. by apply connect_both_blocks.
Qed.

Lemma init_state_inv : store_inv init_state.
Proof.
  split; try done.
  - intros k t Hin. unfold last_of in Hin. simpl in Hin.
    rewrite lookup_empty in Hin. by apply elem_of_nil in Hin.
  - intros p k t [H|H]; unfold obj in H; simpl in H;
      rewrite lookup_empty in H; by apply elem_of_nil in H.
  - constructor.
  - intros k t Hin. by apply elem_of_nil in Hin.
Qed.

Lemma reachable_inv σ : tracks_last = true -> reachable σ -> store_inv σ.
Proof.
  intros Htl H. induction H as [|σ fuel ev r σ' _ IH H].
  - apply init_state_inv.
  - by eapply event_inv.
Qed.

(** ** At most one live task under the singleton policy *)

Lemma filter_length_mono {A} (P Q : A -> Prop)
    `{!forall x, Decision (P x)} `{!forall x, Decision (Q x)} (l : list A) :
  (forall x, P x -> Q x) -> length (filter P l) <= length (filter Q l).
Proof.
  intros HPQ. induction l as [|x l IH]; [done|].
  destruct (decide (P x)) as [HP|HP].
  - rewrite (filter_cons_True P), (filter_cons_True Q); auto. simpl. lia.
  - rewrite (filter_cons_False P); [|done].
    destruct (decide (Q x)).
    + rewrite filter_cons_True; [|done]. simpl. lia.
    + by rewrite filter_cons_False.
Qed.

Lemma finished_kept_prims lv em σ σ' p :
  rtc (prim lv em) σ σ' -> unfinished σ' p -> unfinished σ p.
Proof.
  intros H Hu. unfold unfinished in *.
  destruct (finished (obj σ p)) eqn:E; [|done].
  apply (prims_settled_kept _ _ p) in H. destruct (H E) as [F _]. congruence.
Qed.

Lemma last_shrinks σ σ' k :
  store_inv σ -> store_inv σ' -> issued_for k σ' = issued_for k σ ->
  (forall p, unfinished σ' p -> unfinished σ p) ->
  length (last_of k σ') <= length (last_of k σ).
Proof.
  intros Hinv Hinv' Hi Hmono.
  rewrite (inv_last _ Hinv), (inv_last _ Hinv'), Hi.
  by apply filter_length_mono.
Qed.

Definition single_inv (σ : state) : Prop :=
  forall k, length (last_of k σ) <= 1.

Lemma issued_for_app k σ σ' k' t :
  issued σ' = issued σ ++ [(k, t)] ->
  issued_for k' σ' = issued_for k' σ ++ (if decide (k = k') then [t] else []).
Proof.
  unfold issued_for. intros ->. rewrite filter_app, fmap_app. f_equal.
  case_decide.
  - by rewrite filter_cons_True.
  - by rewrite filter_cons_False.
Qed.

Lemma event_single fuel ev σ r σ' :
  policy = Some POLICY_SINGLETON -> store_inv σ -> single_inv σ ->
  run_event fuel ev σ = Some (r, σ') -> single_inv σ'.
Proof.
  intros Hpol Hinv Hsingle H.
  assert (tracks_last = true) as Htl by (unfold tracks_last; by rewrite Hpol).
  pose proof (event_inv _ _ _ _ _ Htl Hinv H) as Hinv'.
  pose proof (resp_run_event _ _ _ _ _ H) as Hprims.
  apply blocks_prims in Hprims.
  assert (forall p, unfinished σ' p -> unfinished σ p) as Hmono.
  { intros p. by eapply finished_kept_prims. }
  assert (issued σ' = issued σ -> single_inv σ') as Hsame.
  { intros Hi k. etrans; [|apply (Hsingle k)].
    apply last_shrinks; try done. by apply issued_for_same. }
  assert (quiet σ σ' -> single_inv σ') as Hq.
  { intros (_ & ? & _). by apply Hsame. }
  assert (creates_nothing σ σ' -> single_inv σ') as Hc.
  { intros (? & _). by apply Hsame. }
  destruct ev; simpl in H.
  - (* a call *)
    assert (exists t0, newfunc fuel a σ = Some (t0, σ')) as [r0 Hn].
    { apply bind_inv in H as [(t & σ1 & H1 & H)|(e0 & H1 & _)]; eauto.
      apply ret_inv in H as [_ ->]. eauto. }
    clear H. unfold newfunc in Hn.
    apply bind_inv in Hn as [(pre & σ1 & Hpre & H)|(e & Hpre & _)].
    2:{ apply policy_prologue_spec in Hpre as (_ & _ & _ & _ & ?). done. }
    apply policy_prologue_spec in Hpre as (Hs & _ & _ & _ & Hr).
    rewrite Hpol in Hr. injection Hr as ->.
    pose proof (same_tracking_inv _ _ Hs Hinv) as Hinv1.
    destruct (py_last (last_of (key_of a) σ)) as [t|] eqn:Hlast.
    + apply ret_inv in H as [_ ->]. apply Hsame, Hs.
    + assert (last_of (key_of a) σ = []) as Hnil.
      { unfold py_last in Hlast. by apply last_None. }
      apply invoke_spec in H as (_ & _ & _ & Hr); [|done..].
      destruct r0 as [t|e]; [|apply Hsame; by rewrite Hr, (st_issued _ _ Hs)].
      destruct Hr as (_ & _ & Hi).
      rewrite (st_issued _ _ Hs) in Hi. intros k.
      rewrite (inv_last _ Hinv'), (issued_for_app _ _ _ _ _ Hi), filter_app.
      rewrite length_app.
      assert (length (filter (unfinished σ') (issued_for k σ))
                <= length (last_of k σ)) as Hle.
      { rewrite (inv_last _ Hinv). by apply filter_length_mono. }
      case_decide; subst.
      * rewrite Hnil in Hle. simpl in Hle.
        etrans; [apply Nat.add_le_mono; [exact Hle|apply length_filter]|].
        done.
      * simpl. specialize (Hsingle k). lia.
  - apply Hc. eapply prims_creates_nothing, blocks_prims.
    eapply resp_timer_fire; [|done]. lia.
  - apply Hc. eapply prims_creates_nothing, blocks_prims.
    by eapply (resp_stop 1).
  - apply modify_inv in H as [_ ->]. by apply Hsame.
  - apply bind_inv in H as [(t & σ1 & H1 & H)|(e0 & H1 & _)]; [|done].
    apply ret_inv in H as [_ ->].
    apply InProgress_init_blank in H1 as (p & _ & _ & _ & ->). by apply Hsame.
  - apply Hq. eapply prims_quiet, blocks_prims. by eapply resp_ip_finish.
  - apply Hq.
    apply bind_inv in H as [(isco & σ1 & H1 & H)|(e0 & H1 & _)];
      [|by apply gets_inv in H1 as [? _]].
    apply gets_inv in H1 as [? ?]; simplify_eq.
    eapply prims_quiet, blocks_prims.
    destruct (is_coroutine σ p); [by eapply resp_throw|by eapply resp_ip_throw].
  - apply modify_inv in H as [_ ->]. apply Hq.
    eapply prims_quiet, blocks_prims. by apply connect_both_blocks.
Qed.

Lemma reachable_single σ :
  policy = Some POLICY_SINGLETON -> reachable σ -> single_inv σ.
Proof.
  intros Hpol H.
  assert (tracks_last = true) as Htl by (unfold tracks_last; by rewrite Hpol).
  induction H as [|σ fuel ev r σ' Hreach IH H].
  - intros k. unfold last_of. simpl. rewrite lookup_empty. simpl. lia.
  - eapply event_single; [done| |done|done]. by apply reachable_inv.
Qed.


(** ** The three policies, on reachable states *)

(** [stop()] in two phases: the prerequisite chain first, then the task. *)
Lemma stop_phases fuel t σ σ' :
  is_Some (coroutine_of σ t) ->
  stop fuel t σ = Some (Ret tt, σ') ->
  exists σ1, rtc (block 0) σ σ1 /\ rtc (block 0) σ1 σ' /\
    (sig_exception (obj σ1 t) <> [] -> finished (obj σ' t) = true).
Proof.
  intros [g Hg] H. unfold stop in H.
  apply bind_inv in H as [(g' & σx & Hg' & H)|(e & Hg' & _)];
    [|by apply gets_inv in Hg' as [? _]].
  apply gets_inv in Hg' as [? ?]; simplify_eq. rewrite Hg in H.
  destruct fuel as [|fuel']; [done|]. simpl in H.
  apply bind_inv in H as [([] & σ1 & Hprop & Hfin)|(e & _ & [=])].
  exists σ1. split.
  { eapply resp_propagate; [|exact Hprop]. intros p σ2. apply resp_stop. }
  split; [eapply resp_finalize; exact Hfin|].
  apply finalize_abort in Hfin
    as (σ2 & σ3 & Hfirst & _ & _ & Hf3 & _ & _ & ->).
  intros Hne. destruct Hfirst as [[Hnil _]|[_ Hthrow]]; [done|].
  apply ip_throw_effect in Hthrow as (_ & F2 & _).
  unfold release. by rewrite finished_update_co, Hf3.
Qed.

Lemma newfunc_issues fuel a σ t σ' :
  tracks_last = true -> store_inv σ ->
  newfunc fuel a σ = Some (Ret t, σ') ->
  t ∈ issued_for (key_of a) σ'.
Proof.
  intros Htl Hinv H. unfold newfunc in H.
  apply bind_inv in H as [(pre & σ1 & Hpre & H)|(e & _ & [=])].
  apply policy_prologue_spec in Hpre as (Hs & _ & _ & _ & Hr).
  pose proof (same_tracking_inv _ _ Hs Hinv) as Hinv1.
  destruct pre as [t'|kw].
  - apply ret_inv in H as [Heq ->]. injection Heq as Heq. subst t'.
    assert (t ∈ last_of (key_of a) σ) as Hin.
    { destruct policy as [[]|]; try done;
        destruct (py_last (last_of (key_of a) σ)) as [x|] eqn:E; try done.
      injection Hr as ->. unfold py_last in E.
      apply last_Some in E as [l ->]. set_solver. }
    rewrite <-(st_last _ _ Hs), (inv_last _ Hinv1) in Hin.
    by apply list_elem_of_filter in Hin as [_ ?].
  - apply invoke_spec in H as (_ & _ & _ & _ & _ & Hi); [|done..].
    rewrite (issued_for_app _ _ _ _ _ Hi).
    rewrite decide_True; [|done]. set_solver.
Qed.

(** C3, as amended.  The [last] list is kept under the Singleton and the
    PassLast policy.  In every state the engine can reach, the list of a
    key holds exactly the tasks handed out for that key that have not
    finished, oldest first: a task returned by the decorated call is in
    the list precisely when it is still unfinished after its first eager
    step, a finished or failed task is in no list, and [stop()] on a
    listed task that still has its generator takes it out of the list. *)
Theorem last_tracks_unfinished σ :
  tracks_last = true -> reachable σ ->
  (forall k, last_of k σ = filter (unfinished σ) (issued_for k σ)) /\
  (forall k t, finished (obj σ t) = true -> t ∉ last_of k σ) /\
  (forall fuel a t σ',
     newfunc fuel a σ = Some (Ret t, σ') ->
     (t ∈ last_of (key_of a) σ' <-> unfinished σ' t)) /\
  (forall fuel k t σ',
     t ∈ last_of k σ -> is_Some (coroutine_of σ t) ->
     stop fuel t σ = Some (Ret tt, σ') -> t ∉ last_of k σ').
Proof.
  intros Htl Hreach. pose proof (reachable_inv _ Htl Hreach) as Hinv.
  split_and!.
  - apply (inv_last _ Hinv).
  - intros k t Hf. rewrite (inv_last _ Hinv). intros Hin.
    apply list_elem_of_filter in Hin as [Hu _]. unfold unfinished in Hu.
    congruence.
  - intros fuel a t σ' H.
    pose proof (newfunc_inv _ _ _ _ _ Htl Hinv H) as Hinv'.
    rewrite (inv_last _ Hinv'), list_elem_of_filter.
    split; [by intros [? _]|]. intros Hu. split; [done|].
    exact (newfunc_issues _ _ _ _ _ Htl Hinv H).
  - intros fuel k t σ' Hin Hg H.
    apply stop_phases in H as (σ1 & H1 & H2 & Hfin); [|done].
    pose proof (blocks_inv 0 _ _ (Nat.le_0_l 1) H1 Hinv) as Hinv1.
    pose proof (blocks_inv 0 _ _ (Nat.le_0_l 1) H2 Hinv1) as Hinv'.
    assert (finished (obj σ' t) = true) as Hf.
    { destruct (finished (obj σ1 t)) eqn:E.
      - apply blocks_prims in H2.
        by apply (prims_settled_kept _ _ t) in H2 as [? _].
      - apply Hfin.
        assert (t ∈ last_of k σ1) as Hin1.
        { rewrite (inv_last _ Hinv1). apply list_elem_of_filter.
          split; [done|].
          apply blocks_prims, prims_quiet in H1 as (_ & Hi & _).
          rewrite (issued_for_same _ _ _ Hi).
          rewrite (inv_last _ Hinv) in Hin.
          by apply list_elem_of_filter in Hin as [_ ?]. }
        apply (inv_cb _ Hinv1) in Hin1 as [_ Hcb].
        intros Hnil. rewrite Hnil in Hcb. by apply elem_of_nil in Hcb. }
    rewrite (inv_last _ Hinv'). intros Hin'.
    apply list_elem_of_filter in Hin' as [Hu _]. unfold unfinished in Hu.
    congruence.
Qed.

(** C4, as amended.  Under the Singleton policy, in any state the engine
    can reach, while a task handed out for a key has not finished, a
    call with that key returns, whatever the fuel, the unfinished task
    handed out last for the key and changes nothing: no task is created,
    [func] is not called and no generator is resumed. *)
Theorem singleton_returns_live_task a t σ :
  policy = Some POLICY_SINGLETON -> reachable σ ->
  py_last (filter (unfinished σ) (issued_for (key_of a) σ)) = Some t ->
  forall fuel, newfunc fuel a σ = Some (Ret t, σ).
Proof.
  intros Hpol Hreach Hlast fuel.
  assert (tracks_last = true) as Htl by (unfold tracks_last; by rewrite Hpol).
  pose proof (reachable_inv _ Htl Hreach) as Hinv.
  rewrite <-(inv_last _ Hinv) in Hlast.
  unfold newfunc, bind.
  destruct (policy_prologue (key_of a) σ) as [[r σ1]|] eqn:Hpre.
  - apply policy_prologue_spec in Hpre as (_ & _ & _ & Hsame & ->).
    rewrite Hpol, Hlast. simpl. rewrite Hsame; [done|]. left.
    unfold last_of in Hlast. destruct (store_last σ !! key_of a); [done|].
    done.
  - unfold policy_prologue in Hpre. rewrite Hpol in Hpre.
    unfold bind, modify, gets in Hpre. simpl in Hpre.
    clear -Hpre. by destruct (py_last _).
Qed.

(** Under the PassLast policy, in any state the engine can reach, a
    call for key [k] that returns or raises has called [func] once, with
    [last] bound to the newest unfinished task handed out for [k], or to
    [None] when there is none; when [func] gives a generator a new task
    has been created for it, and a task that is returned is new and is
    recorded for [k].  So a call right after a call whose task is still
    unfinished sees that task, and the first call sees [None]. *)
Lemma pass_last_call fuel a σ r σ' :
  policy = Some POLICY_PASS_LAST -> reachable σ ->
  newfunc fuel a σ = Some (r, σ') ->
  calls σ' = calls σ ++
    [(key_of a, Some (py_last (filter (unfinished σ) (issued_for (key_of a) σ))))] /\
  ((forall pr kw, exists s, func pr a kw = FGenerator s) ->
   exists t, (t ∉ dom (heap σ)) /\ is_Some (co σ' t) /\
             (r = Ret t \/ exists e, r = Exc e)) /\
  (forall t, r = Ret t ->
     (t ∉ dom (heap σ)) /\ is_Some (co σ' t) /\
     issued σ' = issued σ ++ [(key_of a, t)]) /\
  (issued_for (key_of a) σ = [] ->
     calls σ' = calls σ ++ [(key_of a, Some None)]) /\
  (forall l t0, issued_for (key_of a) σ = l ++ [t0] -> unfinished σ t0 ->
     calls σ' = calls σ ++ [(key_of a, Some (Some t0))]).
Proof.
  intros Hpol Hreach H.
  assert (tracks_last = true) as Htl by (unfold tracks_last; by rewrite Hpol).
  pose proof (reachable_inv _ Htl Hreach) as Hinv.
  unfold newfunc in H.
  apply bind_inv in H as [(pre & σ1 & Hpre & H)|(e & Hpre & _)].
  2:{ apply policy_prologue_spec in Hpre as (_ & _ & _ & _ & ?). done. }
  apply policy_prologue_spec in Hpre as (Hs & Hc1 & Hh1 & _ & Hr).
  rewrite Hpol in Hr. injection Hr as ->.
  pose proof (same_tracking_inv _ _ Hs Hinv) as Hinv1.
  apply invoke_spec in H as (_ & Hcalls & Hnew & Hret); [|done..].
  rewrite Hc1, (inv_last _ Hinv) in Hcalls. rewrite Hh1 in Hnew, Hret.
  rewrite (st_issued _ _ Hs) in Hret.
  split_and!.
  - done.
  - intros Hgen. apply Hnew. intros pr. apply Hgen.
  - intros t ->. done.
  - intros Hnil. by rewrite Hcalls, Hnil.
  - intros l t0 Hl Hu. rewrite Hcalls, Hl, filter_app.
    rewrite filter_cons_True; [|done]. rewrite filter_nil.
    unfold py_last. by rewrite last_snoc.
Qed.


(** ** Runs of the engine *)

(** Playing a list of events, each with its fuel; the results of the
    events, returned or raised, are dropped as the main loop drops them. *)
Fixpoint run_events (evs : list (nat * event)) (σ : state) : option state :=
  match evs with
  | [] => Some σ
  | (fuel, ev) :: evs' =>
      match run_event fuel ev σ with
      | Some (_, σ') => run_events evs' σ'
      | None => None
      end
  end.

Lemma run_events_reachable evs σ σ' :
  reachable σ -> run_events evs σ = Some σ' -> reachable σ'.
Proof.
  revert σ. induction evs as [|[fuel ev] evs IH]; intros σ Hr H; simpl in H.
  - by simplify_eq.
  - destruct (run_event fuel ev σ) as [[r σ1]|] eqn:E; [|done].
    eapply IH; [|exact H]. by eapply reachable_step.
Qed.


(** * Further properties of the engine *)

(** ** How [_stop] leaves a task *)


Lemma propagate_unregisters fuel t σ r σ1 :
  propagate (stop fuel) t σ = Some (r, σ1) -> t ∉ _active_coroutines σ1.
Proof.
  intros Hprop. unfold propagate in Hprop.
  apply bind_inv in Hprop as [([] & σa & Ha & Hprop)|(e & Ha & _)];
    [|by apply modify_inv in Ha as [? _]].
  apply modify_inv in Ha as [_ ->].
  apply bind_inv in Hprop as [([] & σb & Hb & Hprop)|(e & Hb & _)];
    [|by apply modify_inv in Hb as [? _]].
  apply modify_inv in Hb as [_ ->].
  eapply resp_quiet in Hprop as (_ & _ & _ & Hsub).
  - intros Hin. apply Hsub in Hin. simpl in Hin. set_solver.
  - apply resp_bind; [apply resp_gets|]. intros pre σ3 _.
    destruct pre as [p|]; [|apply resp_ret].
    apply resp_bind; [apply resp_gets|]. intros isco σ4 _.
    destruct isco; [|apply resp_ret].
    apply resp_bind; [|intros; apply resp_stop].
    by apply resp_modify, one_prim, p_disconnect.
Qed.

(** [finalize] that returns has closed the generator and dropped it. *)
Lemma finalize_released t fin σ1 σ' :
  finalize t fin σ1 = Some (Ret tt, σ') ->
  dead σ' t /\ exists cs, closes σ' = cs ++ [t].
Proof.
  unfold finalize. intros H.
  apply try_finally_inv in H as (σ3 & H & ->).
  apply bind_inv in H as [([] & σ2 & _ & Hclose)|(e & _ & [=])].
  assert (exists r2 σc, gen_close t σ2 = Some (r2, σc) /\
            (r2 = Ret tt /\ σ3 = σc \/
             r2 = Exc RuntimeError /\ σ3 = log_warning t σc)) as
    (r2 & σc & Hc & Hr2).
  { apply try_except_inv in Hclose as [([] & Hc & _)|(e & σc & Hc & Hh)].
    - exists (Ret tt), σ3. auto.
    - exists (Exc e), σc. destruct e; try (by apply raise_inv in Hh as [? _]).
      apply modify_inv in Hh as [_ ->]. auto. }
  assert (is_Some (co σ3 t) /\ closes σ3 = closes σ2 ++ [t]) as [[c3 Hc3] Hcl].
  { apply gen_close_effect in Hc as [(-> & _)|[(g & -> & [c Hco])|(-> & _ & [c Hco])]].
    - by destruct Hr2 as [[? _]|[? _]].
    - assert (is_Some (co (update_co t (with_coroutine (Some g)) (log_close t σ2)) t)) as Hs.
      { rewrite co_update_co. case_decide; [|done].
        change (co (log_close t σ2) t) with (co σ2 t). rewrite Hco. by eexists. }
      destruct Hr2 as [[_ ->]|[_ ->]]; done.
    - assert (is_Some (co (log_close t σ2) t)) as Hs.
      { change (co (log_close t σ2) t) with (co σ2 t). by eexists. }
      destruct Hr2 as [[_ ->]|[_ ->]]; done. }
  split.
  - exists (with_prerequisite None (with_coroutine None (with_timer None c3))).
    unfold release. rewrite co_update_co. case_decide; [|done]. by rewrite Hc3.
  - exists (closes σ2). unfold release. by rewrite <-Hcl.
Qed.

(** [_stop] that returns leaves the task without generator and timer and
    outside [_active_coroutines]. *)
Lemma _stop_released fuel t fin σ σ' :
  _stop fuel t fin σ = Some (Ret tt, σ') ->
  dead σ' t /\ (t ∉ _active_coroutines σ') /\ t ∈ closes σ'.
Proof.
  destruct fuel as [|fuel]; [done|]. simpl. intros H.
  apply bind_inv in H as [([] & σ1 & Hprop & Hfin)|(e & _ & [=])].
  apply (propagate_unregisters fuel) in Hprop.
  assert (quiet σ1 σ') as (_ & _ & _ & Hsub).
  { eapply resp_quiet; [apply resp_finalize|exact Hfin]. }
  apply finalize_released in Hfin as [Hdead [cs Hcs]].
  split; [done|]. split; [set_solver|]. rewrite Hcs. set_solver.
Qed.

(** [stop()] twice is [stop()] once: when a call of [stop()] has
    returned, another call returns at once and changes nothing. *)
Theorem stop_is_idempotent fuel t σ σ' :
  stop fuel t σ = Some (Ret tt, σ') ->
  forall fuel', stop fuel' t σ' = Some (Ret tt, σ').
Proof.
  intros H fuel'. unfold stop in H.
  apply bind_inv in H as [(g & σx & Hg & H)|(e & Hg & _)];
    [|by apply gets_inv in Hg as [? _]].
  apply gets_inv in Hg as [Hr ->]. injection Hr as ->.
  destruct (coroutine_of σ t) as [g|] eqn:Hg.
  - apply _stop_released in H as ((c & Hc & Hnone & _) & _).
    unfold stop, bind, gets, coroutine_of. rewrite Hc. simpl. by rewrite Hnone.
  - apply ret_inv in H as [_ ->]. unfold stop, bind, gets. by rewrite Hg.
Qed.

(** [CoroutineInProgress.throw(e)] that returns: the task has been
    stopped as a finished one, so its promise has not been failed with
    [GeneratorExit]; the generator has been closed, timer and generator
    are dropped, the task has left [_active_coroutines]; then the promise
    has failed with [e] itself and its exception observers have heard
    [e].  No generator has been resumed, and none of the task ever is
    again. *)
Theorem throw_closes_then_fails fuel t e σ σ' :
  throw fuel t e σ = Some (Ret tt, σ') ->
  exists σ1,
    _stop fuel t true σ = Some (Ret tt, σ1) /\
    finished (obj σ1 t) = false /\
    finished (obj σ' t) = true /\ _exception (obj σ' t) = Some e /\
    notices σ' = notices σ1 ++
      user_notices t (NoticeError e) (sig_exception (obj σ1 t)) /\
    dead σ' t /\ (t ∉ _active_coroutines σ') /\ t ∈ closes σ' /\
    advances σ' = advances σ /\
    forall σ2, rtc step σ' σ2 ->
      dead σ2 t /\ advances_of t σ2 = advances_of t σ'.
Proof.
  intros H.
  assert (quiet σ σ') as (Hadv & _ & _ & _).
  { eapply resp_quiet; [apply resp_throw|exact H]. }
  unfold throw in H.
  apply bind_inv in H as [([] & σ1 & Hstop & Hthrow)|(e' & _ & [=])].
  exists σ1. split; [done|].
  pose proof (_stop_released _ _ _ _ _ Hstop) as (Hdead & Hact & Hcl).
  assert (rtc (prim 0 true) σ1 σ') as Hprims.
  { eapply blocks_prims, resp_ip_throw, Hthrow. }
  pose proof (ip_throw_closes _ _ _ _ _ Hthrow) as Hcl'.
  apply ip_throw_effect in Hthrow as (F1 & F2 & E2 & N2).
  assert (dead σ' t) as Hdead'.
  { by apply (prims_stays_dead _ _ t) in Hprims as [? _]. }
  split_and!; try done.
  - apply prims_quiet in Hprims as (_ & _ & _ & Hsub). set_solver.
  - by rewrite Hcl'.
  - intros σ2 Hsteps.
    apply steps_prims, (prims_stays_dead _ _ t) in Hsteps. by apply Hsteps.
Qed.


(** ** How a call of [_step] ends *)

Lemma run_observer_result p x o σ q :
  _result (obj (run_observer p x σ o) q) = _result (obj σ q).
Proof.
  destruct o; simpl.
  - unfold _continue, update_co. rewrite obj_update. by case_decide; subst.
  - unfold _try_again. destruct (func_lock σ); [|done].
    destruct (negb _).
    + unfold register_both. rewrite obj_update. by case_decide; subst.
    + unfold _continue, update_co. rewrite obj_update. by case_decide; subst.
  - unfold cb. by destruct (store_last σ !! k).
  - done.
Qed.

Lemma emit_result p x obs q : forall σ,
  _result (obj (emit p x obs σ) q) = _result (obj σ q).
Proof.
  unfold emit. induction obs as [|o obs IH]; intros σ; simpl; [done|].
  rewrite IH. apply run_observer_result.
Qed.

(** What a successful [finish] of the base class does. *)
Lemma ip_finish_effect p v σ σ' :
  ip_finish p v σ = Some (Ret tt, σ') ->
  finished (obj σ p) = false /\
  finished (obj σ' p) = true /\
  _result (obj σ' p) = v /\
  _exception (obj σ' p) = None /\
  notices σ' = notices σ ++ user_notices p (NoticeValue v) (sig_finished (obj σ p)).
Proof.
  unfold ip_finish. destruct (finished (obj σ p)) eqn:E; [done|].
  intros [= <-]. split; [done|].
  rewrite obj_update_eq. simpl.
  destruct (emit_settled p (NoticeValue v) (sig_finished (obj σ p)) p
              (update p (with_outcome v None None) σ)) as [-> ->].
  rewrite emit_result, obj_update_eq. simpl. repeat split.
  unfold update at 1. simpl. by rewrite emit_notices.
Qed.

(** The task is over: its promise is settled, generator and timer are
    dropped, and it has left [_active_coroutines]. *)
Definition over (σ : state) (t : nat) : Prop :=
  finished (obj σ t) = true /\ dead σ t /\ t ∉ _active_coroutines σ.

Lemma finish_path_effect fuel t v σ σ' :
  (_stop fuel t true ;;; ip_finish t v ;;; ret false) σ = Some (Ret false, σ') ->
  over σ' t /\ _result (obj σ' t) = v /\ _exception (obj σ' t) = None.
Proof.
  intros H.
  apply bind_inv in H as [([] & σ1 & Hstop & H)|(e & _ & [=])].
  apply bind_inv in H as [([] & σ2 & Hfin & H)|(e & _ & [=])].
  apply ret_inv in H as [_ <-].
  apply _stop_released in Hstop as (Hdead & Hact & _).
  assert (rtc (prim 0 true) σ1 σ') as Hprims.
  { eapply blocks_prims, resp_ip_finish, Hfin. }
  apply ip_finish_effect in Hfin as (_ & F & R & E & _).
  unfold over. split_and!; try done.
  - by apply (prims_stays_dead _ _ t) in Hprims as [? _].
  - apply prims_quiet in Hprims as (_ & _ & _ & Hsub). set_solver.
Qed.

Lemma throw_settles fuel t e σ σ' :
  throw fuel t e σ = Some (Ret tt, σ') ->
  over σ' t /\ _exception (obj σ' t) = Some e.
Proof.
  unfold throw. intros H.
  apply bind_inv in H as [([] & σ1 & Hstop & Hthrow)|(e' & _ & [=])].
  apply _stop_released in Hstop as (Hdead & Hact & _).
  assert (rtc (prim 0 true) σ1 σ') as Hprims.
  { eapply blocks_prims, resp_ip_throw, Hthrow. }
  apply ip_throw_effect in Hthrow as (_ & F & E & _).
  unfold over. split_and!; try done.
  - by apply (prims_stays_dead _ _ t) in Hprims as [? _].
  - apply prims_quiet in Hprims as (_ & _ & _ & Hsub). set_solver.
Qed.

Lemma throw_path_effect fuel t e σ x σ' :
  (throw fuel t e ;;; if is_host_fatal e then raise e else ret (LReturn false)) σ
    = Some (Ret x, σ') ->
  x = LReturn false /\ is_host_fatal e = false /\
  over σ' t /\ _exception (obj σ' t) = Some e.
Proof.
  intros H.
  apply bind_inv in H as [([] & σ1 & Hthrow & H)|(e' & _ & [=])].
  destruct (is_host_fatal e); [by apply raise_inv in H as [? _]|].
  apply ret_inv in H as [[= <-] ->].
  apply throw_settles in Hthrow as [? ?]. done.
Qed.

(** The task waits for [p]: [p] is its prerequisite, is not settled, and
    [_continue] of the task is connected to both signals of [p]. *)
Definition waits_for (σ : state) (t p : nat) : Prop :=
  prerequisite_of σ t = Some p /\ finished (obj σ p) = false /\
  ObsContinue t ∈ sig_finished (obj σ p) /\
  ObsContinue t ∈ sig_exception (obj σ p).

(** What the directive that ends the loop of [_step] says about the
    result and the state [_step] leaves. *)
Definition step_effect (t : nat) (d : directive) (r : res bool) (σ' : state)
  : Prop :=
  match d with
  | DContinueNow => r = Ret true
  | DAwait p b => b = false /\ r = Ret false /\ waits_for σ' t p
  | DDone v =>
      r = Ret false ->
      over σ' t /\ _result (obj σ' t) = v /\ _exception (obj σ' t) = None
  | DRaised e =>
      (r = Ret false ->
       is_host_fatal e = false /\ over σ' t /\ _exception (obj σ' t) = Some e) /\
      (is_host_fatal e = true -> exists e', r = Exc e')
  end.

Lemma step_ends fuel : forall t σ r σ',
  _step fuel t σ = Some (r, σ') ->
  exists ds, advances σ' = advances σ ++ map (pair t) ds /\
    ((ds = [] /\ ~ suspended σ t) \/
     exists ds0 d, ds = ds0 ++ [d] /\ step_effect t d r σ').
Proof.
  induction fuel as [|fuel IH]; intros t σ r σ' H; simpl in H; [done|].
  apply bind_inv in H as [(x & σx & Hbody & Hk)|(e & Hbody & ->)].
  - apply try_except_inv in Hbody as [(x' & Hbody & [= <-])|(e & σ1 & Hbody & Hh)].
    + (* the body of the loop ran without raising *)
      apply bind_inv in Hbody as [(pre & σ0 & Hpre & Hbody)|(e & Hpre & ?)];
        [|by apply gets_inv in Hpre as [? _]].
      apply gets_inv in Hpre as [? ?]; simplify_eq.
      apply bind_inv in Hbody as [(y & σ1 & Hp & Hbody)|(e & Hp & ?)]; [|done].
      apply process_trace in Hp as [(_ & (e & ?) & _)|(d & Hadv & Hd)]; [done|].
      apply bind_inv in Hbody as [([] & σ2 & Hm & Hbody)|(e & Hm & ?)];
        [|by apply modify_inv in Hm as [? _]].
      apply modify_inv in Hm as [_ ?]; simplify_eq.
      destruct y as [|p|v]; simpl in Hd.
      * minv. exists [DContinueNow]. split; [done|].
        right. exists [], DContinueNow. done.
      * destruct Hd as [-> Hsus].
        apply bind_inv in Hbody as [([] & σ3 & Hm & Hbody)|(e & Hm & ?)];
          [|by apply modify_inv in Hm as [? _]].
        apply modify_inv in Hm as [_ ?]; simplify_eq.
        apply bind_inv in Hbody as [(f & σ4 & Hf & Hbody)|(e & Hf & ?)];
          [|by apply gets_inv in Hf as [? _]].
        apply gets_inv in Hf as [? ?]; simplify_eq.
        rewrite !finished_update_co in Hbody.
        destruct (finished (obj σ1 p)) eqn:Hfin.
        -- apply ret_inv in Hbody as [? ?]; simplify_eq.
           apply IH in Hk as (ds & Hadv' & Hform).
           exists (DAwait p true :: ds). split.
           { rewrite Hadv'. simpl. rewrite Hadv. by rewrite <- app_assoc. }
           right. destruct Hform as [(_ & Hns)|(ds0 & d & -> & Hend)].
           ++ exfalso. apply Hns. by rewrite !suspended_update_co.
           ++ exists (DAwait p true :: ds0), d. done.
        -- minv. exists [DAwait p false]. split.
           { pose proof (connect_both_blocks 0 p (ObsContinue t) (ObsContinue t)
               (update_co t (with_prerequisite (Some p))
                  (update_co t (with_prerequisite None) σ1)) I I) as Hq.
             apply blocks_prims, prims_quiet in Hq as (Hq & _).
             rewrite Hq. done. }
           right. exists [], (DAwait p false). split; [done|].
           split; [done|]. split; [done|].
           set (σb := update_co t (with_prerequisite (Some p))
                        (update_co t (with_prerequisite None) σ1)).
           assert (finished (obj σb p) = false) as Hfb.
           { unfold σb. by rewrite !finished_update_co. }
           unfold connect_both. fold σb. rewrite Hfb.
           destruct Hsus as (c & s & Hc & _).
           unfold waits_for, register_both. rewrite obj_update_eq. simpl.
           split_and!.
           ++ unfold prerequisite_of. rewrite co_update_keeps; [|done].
              unfold σb. rewrite !co_update_co, !decide_True by done.
              rewrite Hc. done.
           ++ done.
           ++ set_solver.
           ++ set_solver.
      * apply ret_inv in Hbody as [? ?]; simplify_eq.
        exists [DDone v].
        pose proof (finish_path_quiet _ _ _ _ _ _ Hk) as [(Hq & _) _].
        split; [by rewrite Hq|].
        right. exists [], (DDone v). split; [done|].
        intros ->. by apply finish_path_effect in Hk.
    + (* [_process] raised *)
      apply bind_inv in Hbody as [(pre & σ0 & Hpre & Hbody)|(e' & Hpre & ?)];
        [|by apply gets_inv in Hpre as [? _]].
      apply gets_inv in Hpre as [? ?]; simplify_eq.
      apply bind_inv in Hbody as [(y & σ2 & Hp & Hbody)|(e' & Hp & [= <-])].
      { exfalso. minv. destruct y; minv.
        destruct (finished _); minv. }
      assert (exists ds, advances σ1 = advances σ ++ map (pair t) ds /\
                (ds = [] /\ ~ suspended σ t \/
                 ds = [DDone PyNone] /\ e = StopIteration \/
                 ds = [DRaised e] /\ e <> StopIteration)) as (ds & Hadv & Hds).
      { apply process_trace in Hp as [(Ha & _ & Hns)|(d & Ha & Hd)].
        - exists []. rewrite app_nil_r. auto.
        - exists [d]. split; [done|]. right. simpl in Hd.
          destruct e; subst; auto. }
      destruct (decide (e = StopIteration)) as [->|Hne].
      * apply ret_inv in Hh as [? ?]; simplify_eq.
        pose proof (finish_path_quiet _ _ _ _ _ _ Hk) as [(Hq & _) _].
        exists ds. split; [by rewrite Hq|].
        destruct Hds as [[-> Hns]|[[-> _]|[_ ?]]]; [by left| |done].
        right. exists [], (DDone PyNone). split; [done|].
        intros ->. by apply finish_path_effect in Hk.
      * assert ((throw fuel t e ;;; if is_host_fatal e then raise e
                 else ret (LReturn false)) σ1 = Some (Ret x, σx)) as Hh'.
        { by destruct e. }
        pose proof (throw_path_quiet _ _ _ _ _ _ Hh') as [(Hq & _) _].
        apply throw_path_effect in Hh' as (-> & Hnf & Hover & Hexc).
        apply ret_inv in Hk as [? ?]; simplify_eq.
        exists ds. split; [by rewrite Hq|].
        destruct Hds as [[-> Hns]|[[_ ?]|[-> _]]]; [by left|done|].
        right. exists [], (DRaised e). split; [done|]. split.
        -- done.
        -- intros Hf. congruence.
  - (* the handler raised *)
    apply try_except_inv in Hbody as [(x' & Hbody & [=])|(e' & σ1 & Hbody & Hh)].
    apply bind_inv in Hbody as [(pre & σ0 & Hpre & Hbody)|(e'' & Hpre & ?)];
      [|by apply gets_inv in Hpre as [? _]].
    apply gets_inv in Hpre as [? ?]; simplify_eq.
    apply bind_inv in Hbody as [(y & σ2 & Hp & Hbody)|(e'' & Hp & [= <-])].
    { exfalso. minv. destruct y; minv. destruct (finished _); minv. }
    assert (e' <> StopIteration) as Hne.
    { intros ->. by apply ret_inv in Hh as [? _]. }
    assert ((throw fuel t e' ;;; if is_host_fatal e' then raise e'
             else ret (LReturn false)) σ1 = Some (Exc e, σ')) as Hh'.
    { by destruct e'. }
    apply throw_path_quiet in Hh' as [(Hq & _) _].
    apply process_trace in Hp as [(Ha & _ & Hns)|(d & Ha & Hd)].
    + exists []. rewrite app_nil_r. split; [by rewrite Hq|]. by left.
    + exists [d]. split; [by rewrite Hq|]. right. exists [], d. split; [done|].
      simpl in Hd. destruct e'; subst; simpl; try done; split; try done; eauto.
Qed.

Lemma last_directive t σ σ' ds ds0 d :
  advances σ' = advances σ ++ map (pair t) ds ->
  advances σ' = advances σ ++ map (pair t) (ds0 ++ [d]) ->
  ds = ds0 ++ [d].
Proof.
  intros -> H. apply app_inv_head in H.
  revert H. generalize (ds0 ++ [d]). clear. 
  induction ds as [|x ds IH]; intros [|y l]; simpl; intros H; try done.
  injection H as -> H. f_equal. by apply IH.
Qed.

Lemma step_last_effect fuel t σ r σ' ds0 d :
  _step fuel t σ = Some (r, σ') ->
  advances σ' = advances σ ++ map (pair t) (ds0 ++ [d]) ->
  step_effect t d r σ'.
Proof.
  intros H Hadv. apply step_ends in H as (ds & Hadv' & Hform).
  pose proof (last_directive _ _ _ _ _ _ Hadv' Hadv) as ->.
  destruct Hform as [[Hnil _]|(ds1 & d1 & Heq & Heff)].
  - by destruct ds0.
  - apply app_inj_tail in Heq as [_ ->]. done.
Qed.

(** [_step] that returns [False] after the generator has given a plain
    value [v], or has returned ([v] is [None] then): the promise of the
    task is finished with [v], the generator and the timer are dropped
    and the task has left [_active_coroutines]. *)
Theorem step_done_finishes fuel t σ σ' ds v :
  _step fuel t σ = Some (Ret false, σ') ->
  advances σ' = advances σ ++ map (pair t) (ds ++ [DDone v]) ->
  finished (obj σ' t) = true /\ _result (obj σ' t) = v /\
  _exception (obj σ' t) = None /\
  dead σ' t /\ (t ∉ _active_coroutines σ').
Proof.
  intros H Hadv.
  pose proof (step_last_effect _ _ _ _ _ _ _ H Hadv) as Heff. simpl in Heff.
  destruct (Heff eq_refl) as ((F & D & A) & R & E). done.
Qed.

(** When the generator has raised [e] in a call of [_step]: if [_step]
    returns [False], [e] is neither KeyboardInterrupt nor SystemExit, the
    promise of the task has failed with [e], generator and timer are
    dropped and the task has left [_active_coroutines]; and if [e] is
    KeyboardInterrupt or SystemExit, [_step] does not return but raises. *)
Theorem step_raised_fails fuel t σ r σ' ds e :
  _step fuel t σ = Some (r, σ') ->
  advances σ' = advances σ ++ map (pair t) (ds ++ [DRaised e]) ->
  (r = Ret false ->
   is_host_fatal e = false /\
   finished (obj σ' t) = true /\ _exception (obj σ' t) = Some e /\
   dead σ' t /\ (t ∉ _active_coroutines σ')) /\
  (is_host_fatal e = true -> exists e', r = Exc e') /\
  r <> Ret true.
Proof.
  intros H Hadv.
  pose proof (step_last_effect _ _ _ _ _ _ _ H Hadv) as [Hret Hfatal].
  split_and!.
  - intros Hr. destruct (Hret Hr) as (Hnf & (F & D & A) & E). done.
  - done.
  - intros ->. apply step_trace in H as (ds' & Hadv' & Hform).
    pose proof (last_directive _ _ _ _ _ _ Hadv' Hadv) as ->.
    destruct Hform as [(ps & d & Heq & Hend)|(Hnil & _)].
    + apply app_inj_tail in Heq as [_ <-]. by simpl in Hend.
    + by destruct ds.
Qed.

(** When the generator has yielded a promise [p] that is not settled,
    [_step] returns [False] with [p] as the prerequisite of the task and
    [_continue] of the task connected to both signals of [p]. *)
Theorem step_await_connects fuel t σ r σ' ds p b :
  _step fuel t σ = Some (r, σ') ->
  advances σ' = advances σ ++ map (pair t) (ds ++ [DAwait p b]) ->
  b = false /\ r = Ret false /\
  prerequisite_of σ' t = Some p /\ finished (obj σ' p) = false /\
  ObsContinue t ∈ sig_finished (obj σ' p) /\
  ObsContinue t ∈ sig_exception (obj σ' p).
Proof.
  intros H Hadv.
  pose proof (step_last_effect _ _ _ _ _ _ _ H Hadv) as (-> & -> & W).
  destruct W as (? & ? & ? & ?). done.
Qed.


(** ** Waking a waiting task *)


Lemma timer_of_update p f σ t :
  (forall x, ip_co (f x) = ip_co x) -> timer_of (update p f σ) t = timer_of σ t.
Proof. intros Hf. unfold timer_of. by rewrite co_update_keeps. Qed.





(** ** A decorated function that is not a generator function *)



(** ** The Synchronized policy *)

(** The state [CoroutineInProgress.__init__] leaves, for the new task. *)
Definition with_task (g : generator GenState) (d : Z) (locked : bool)
    (σ : state) : state :=
  let t := fresh (dom (heap σ)) in
  set_active (_active_coroutines σ ∪ {[t]})
    (update t (make_co {| _coroutine := Some g; _timer := Some (Timer false 0);
                          _interval := d; _prerequisite_ip := None;
                          _locked := locked |})
       (set_heap (<[t := blank_ip]> (heap σ)) σ)).

Lemma CoroutineInProgress_init_exact g d locked σ :
  CoroutineInProgress_init g d None locked σ
  = Some (Ret (fresh (dom (heap σ))), with_task g d locked σ).
Proof. reflexivity. Qed.

Lemma obj_with_task g d locked σ q :
  obj (with_task g d locked σ) q =
  if decide (fresh (dom (heap σ)) = q)
  then make_co {| _coroutine := Some g; _timer := Some (Timer false 0);
                  _interval := d; _prerequisite_ip := None;
                  _locked := locked |} blank_ip
  else obj σ q.
Proof.
  unfold with_task. rewrite obj_set_active, obj_update.
  case_decide; [|by rewrite obj_alloc, decide_False].
  by rewrite obj_alloc, decide_True.
Qed.

Lemma allocated_not_fresh σ l : is_Some (heap σ !! l) -> fresh (dom (heap σ)) <> l.
Proof.
  intros Hl <-. apply elem_of_dom in Hl. by apply is_fresh in Hl.
Qed.

(** A call under the Synchronized policy while the lock of the function
    is held by an unfinished task returns, whatever the fuel, a new task
    that has not been started: no generator is resumed, the generator of
    the new task is fresh and its timer is not running; the lock stays
    with its holder, and [_try_again] of the new task is connected to
    both signals of the holder. *)
Theorem locked_call_waits fuel a σ l s :
  policy = Some POLICY_SYNCHRONIZED ->
  (forall pr kw, func pr a kw = FGenerator s) ->
  func_lock σ = Some l -> is_Some (heap σ !! l) ->
  finished (obj σ l) = false ->
  exists t σ',
    newfunc fuel a σ = Some (Ret t, σ') /\
    (t ∉ dom (heap σ)) /\
    advances σ' = advances σ /\ func_lock σ' = Some l /\
    coroutine_of σ' t = Some (GenFresh s) /\
    timer_of σ' t = Some (Timer false 0) /\
    finished (obj σ' t) = false /\
    (t ∈ _active_coroutines σ') /\
    sig_finished (obj σ' l) = sig_finished (obj σ l) ++ [ObsTryAgain t] /\
    sig_exception (obj σ' l) = sig_exception (obj σ l) ++ [ObsTryAgain t] /\
    issued σ' = issued σ ++ [(key_of a, t)].
Proof.
  intros Hpol Hf Hlock Hl Hfin.
  pose proof (allocated_not_fresh σ l Hl) as Hne.
  exists (fresh (dom (heap σ))).
  unfold newfunc, policy_prologue, invoke, wrap, tracks_last,
    CoroutineLockedInProgress_init, CoroutineInProgress_init, InProgress_init,
    bind, modify, gets, ret, raise.
  revert Hpol. destruct policy as [[]|]; intros Hpol; try done.
  unfold obj in Hfin.
  assert (forall (m : gmap nat inprogress) x y,
            (<[fresh (dom (heap σ)) := x]> (<[fresh (dom (heap σ)) := y]> m)) !! l
            = m !! l) as Hlk.
  { intros m x y. by rewrite !lookup_insert_ne. }
  destruct (store_last σ !! key_of a) eqn:Hs; destruct progress; simpl;
    rewrite Hf; simpl; rewrite Hlock; unfold obj; simpl; rewrite Hfin; simpl;
    rewrite Hlock;
    unfold connect_both, register_both, update, obj; simpl;
    rewrite ?Hlk, Hfin;
    (eexists; split; [reflexivity|]);
    unfold coroutine_of, timer_of, co, obj; simpl;
    repeat first [ rewrite lookup_insert_eq
                 | rewrite lookup_insert_ne by done ]; simpl;
    (split_and!; try done; try apply is_fresh; try set_solver).
Qed.








(** ** The eager first step of a call *)

(** [_step] on a task whose generator is resumed by the first round of
    the loop: the directives logged are those of an inline loop, one at
    least. *)
Lemma first_step_trace fuel t σ r σ' :
  (forall y σ1, _process t (prerequisite_of σ t) σ = Some (y, σ1) ->
     exists d, advances σ1 = advances σ ++ [(t, d)] /\ handed d y σ1 t) ->
  _step fuel t σ = Some (r, σ') ->
  exists ds, advances σ' = advances σ ++ map (pair t) ds /\ loop_form ds r.
Proof.
  intros Hfirst H. destruct fuel as [|fuel]; simpl in H; [done|].
  pose proof (step_trace fuel) as IH.
  apply bind_inv in H as [(x & σx & Hbody & Hk)|(e & Hbody & ->)].
  - apply try_except_inv in Hbody as [(x' & Hbody & [= <-])|(e & σ1 & Hbody & Hh)].
    + apply bind_inv in Hbody as [(pre & σ0 & Hpre & Hbody)|(e & Hpre & ?)];
        [|by apply gets_inv in Hpre as [? _]].
      apply gets_inv in Hpre as [? ?]; simplify_eq.
      apply bind_inv in Hbody as [(y & σ1 & Hp & Hbody)|(e & Hp & ?)]; [|done].
      apply Hfirst in Hp as (d & Hadv & Hd).
      apply bind_inv in Hbody as [([] & σ2 & Hm & Hbody)|(e & Hm & ?)];
        [|by apply modify_inv in Hm as [? _]].
      apply modify_inv in Hm as [_ ?]; simplify_eq.
      destruct y as [|p|v]; simpl in Hd.
      * minv. exists [DContinueNow]. split; [done|].
        exists [], DContinueNow. done.
      * destruct Hd as [-> Hsus].
        apply bind_inv in Hbody as [([] & σ3 & Hm & Hbody)|(e & Hm & ?)];
          [|by apply modify_inv in Hm as [? _]].
        apply modify_inv in Hm as [_ ?]; simplify_eq.
        apply bind_inv in Hbody as [(f & σ4 & Hf & Hbody)|(e & Hf & ?)];
          [|by apply gets_inv in Hf as [? _]].
        apply gets_inv in Hf as [? ?]; simplify_eq.
        rewrite !finished_update_co in Hbody.
        destruct (finished (obj σ1 p)) eqn:Hfin.
        -- apply ret_inv in Hbody as [? ?]; simplify_eq.
           apply IH in Hk as (ds & Hadv' & Hform).
           exists (DAwait p true :: ds). split.
           { rewrite Hadv'. simpl. rewrite Hadv. by rewrite <- app_assoc. }
           destruct Hform as [(ps & d & -> & Hend)|(_ & _ & Hns)].
           ++ exists (p :: ps), d. done.
           ++ exfalso. apply Hns. by rewrite !suspended_update_co.
        -- minv. exists [DAwait p false]. split.
           { pose proof (connect_both_blocks 0 p (ObsContinue t) (ObsContinue t)
               (update_co t (with_prerequisite (Some p))
                  (update_co t (with_prerequisite None) σ1)) I I) as Hq.
             apply blocks_prims, prims_quiet in Hq as (Hq & _).
             rewrite Hq. done. }
           exists [], (DAwait p false). done.
      * apply ret_inv in Hbody as [? ?]; simplify_eq.
        apply finish_path_quiet in Hk as [(Hq & _) Hr].
        exists [DDone v]. split; [by rewrite Hq|].
        exists [], (DDone v). done.
    + apply bind_inv in Hbody as [(pre & σ0 & Hpre & Hbody)|(e' & Hpre & ?)];
        [|by apply gets_inv in Hpre as [? _]].
      apply gets_inv in Hpre as [? ?]; simplify_eq.
      apply bind_inv in Hbody as [(y & σ2 & Hp & Hbody)|(e' & Hp & [= <-])].
      { exfalso. minv. destruct y; minv.
        destruct (finished _); minv. }
      apply Hfirst in Hp as (d & Hadv & Hd).
      assert (quiet σ1 σ' /\ r <> Ret true) as [(Hq & _) Hr].
      { destruct (decide (e = StopIteration)) as [->|Hne].
        - apply ret_inv in Hh as [? ?]; simplify_eq.
          by apply finish_path_quiet in Hk.
        - assert ((throw fuel t e ;;; if is_host_fatal e then raise e
                   else ret (LReturn false)) σ1 = Some (Ret x, σx)) as Hh'.
          { by destruct e. }
          apply throw_path_quiet in Hh' as [Hq Hb].
          destruct x as [b|v|].
          + apply ret_inv in Hk as [? ?]; simplify_eq. split; [done|].
            specialize (Hb b eq_refl). subst. done.
          + exfalso. clear -Hh Hne. destruct e; try done;
              unfold bind in Hh;
              destruct (throw _ _ _ _) as [[[[]|?] ?]|]; simplify_eq;
              simpl in Hh; unfold raise, ret in Hh; simplify_eq.
          + exfalso. clear -Hh Hne. destruct e; try done;
              unfold bind in Hh;
              destruct (throw _ _ _ _) as [[[[]|?] ?]|]; simplify_eq;
              simpl in Hh; unfold raise, ret in Hh; simplify_eq. }
      exists [d]. split; [by rewrite Hq|].
      exists [], d. split; [done|]. simpl in Hd.
      destruct e; subst; done.
  - apply try_except_inv in Hbody as [(x' & Hbody & [=])|(e' & σ1 & Hbody & Hh)].
    apply bind_inv in Hbody as [(pre & σ0 & Hpre & Hbody)|(e'' & Hpre & ?)];
      [|by apply gets_inv in Hpre as [? _]].
    apply gets_inv in Hpre as [? ?]; simplify_eq.
    apply bind_inv in Hbody as [(y & σ2 & Hp & Hbody)|(e'' & Hp & [= <-])].
    { exfalso. minv. destruct y; minv. destruct (finished _); minv. }
    assert (e' <> StopIteration) as Hne.
    { intros ->. by apply ret_inv in Hh as [? _]. }
    assert ((throw fuel t e' ;;; if is_host_fatal e' then raise e'
             else ret (LReturn false)) σ1 = Some (Exc e, σ')) as Hh'.
    { by destruct e'. }
    apply throw_path_quiet in Hh' as [(Hq & _) _].
    apply Hfirst in Hp as (d & Ha & Hd).
    exists [d]. split; [by rewrite Hq|]. exists [], d. split; [done|].
    simpl in Hd. destruct e'; subst; done.
Qed.

(** A task whose generator has not been started and that awaits nothing
    is advanced by [_step]. *)
Lemma fresh_step_trace fuel t c s σ r σ' :
  co σ t = Some c -> _coroutine c = Some (GenFresh s) ->
  _prerequisite_ip c = None ->
  _step fuel t σ = Some (r, σ') ->
  exists ds, advances σ' = advances σ ++ map (pair t) ds /\ loop_form ds r.
Proof.
  intros Hc Hg Hp. apply first_step_trace.
  intros y σ1. unfold prerequisite_of. rewrite Hc. simpl. rewrite Hp.
  unfold _process, gen_resume. rewrite Hc, Hg.
  intros H. eapply gen_run_trace; eauto.
Qed.

Lemma wrap_keeps k pr o σ r σ' :
  wrap k pr o σ = Some (r, σ') ->
  r = Ret o /\ advances σ' = advances σ /\
  forall u, timer_of σ' u = timer_of σ u.
Proof.
  intros H. unfold wrap in H.
  apply bind_inv in H as [([] & σa & Ha & H)|(e & Ha & _)];
    [|by destruct progress; minv].
  assert (advances σa = advances σ /\
          forall u, timer_of σa u = timer_of σ u) as [Haa Hta].
  { destruct progress; minv; (split; [done|]); intros u;
      first [done | by apply timer_of_update]. }
  apply bind_inv in H as [(f & σb & Hb & H)|(e & Hb & _)];
    [|by apply gets_inv in Hb as [? _]].
  apply gets_inv in Hb as [[= ->] ->].
  destruct (tracks_last && negb (finished (obj σa o))) eqn:E.
  - apply andb_true_iff in E as [_ Hf]. apply negb_true_iff in Hf.
    minv. split; [done|].
    unfold connect_both.
    change (obj (set_store_last k (last_of k σa ++ [o]) σa) o) with (obj σa o).
    rewrite Hf. split; [done|]. intros u. rewrite <-Hta.
    unfold register_both.
    change (timer_of (log_issue k o ?s) u) with (timer_of s u).
    by rewrite timer_of_update.
  - minv. done.
Qed.

(** No unfinished task holds the lock of the function. *)
Definition lock_free (σ : state) : Prop :=
  policy = Some POLICY_SYNCHRONIZED ->
  forall l, func_lock σ = Some l -> finished (obj σ l) = true.

Lemma invoke_steps fuel a kw σ t σ' :
  lock_free σ ->
  invoke fuel a kw σ = Some (Ret t, σ') ->
  t = fresh (dom (heap σ)) /\
  exists ds d,
    advances σ' = advances σ ++ map (pair t) (ds ++ [d]) /\
    (d = DContinueNow -> timer_of σ' t = Some (Timer true interval)).
Proof.
  intros Hfree H. unfold invoke in H.
  apply bind_inv in H as [(pr & σ1 & Hpr & H)|(e & _ & [=])].
  assert (heap σ1 = heap σ /\ advances σ1 = advances σ /\
          func_lock σ1 = func_lock σ /\ forall q, obj σ1 q = obj σ q)
    as (Hh1 & Ha1 & Hl1 & Ho1).
  { destruct progress.
    - unfold bind, gets, modify, ret in Hpr. by simplify_eq.
    - apply ret_inv in Hpr as [_ ->]. done. }
  apply bind_inv in H as [([] & σ2 & Hm & H)|(e & _ & [=])].
  apply modify_inv in Hm as [_ ->].
  destruct (func pr a kw) as [s| |e]; [|by apply raise_inv in H as [? _]..].
  apply bind_inv in H as [(l & σ3 & Hg & H)|(e & _ & [=])].
  apply gets_inv in Hg as [[= ->] ->].
  apply bind_inv in H as [(held & σ3 & Hg & H)|(e & _ & [=])].
  apply gets_inv in Hg as [[= ->] ->].
  set (σ2 := log_call (key_of a) kw σ1) in *.
  assert (match policy, func_lock σ1 with
          | Some POLICY_SYNCHRONIZED, Some l => negb (finished (obj σ2 l))
          | _, _ => false
          end = false) as Hheld.
  { destruct policy as [[]|] eqn:Hpol; try done.
    rewrite Hl1.
    destruct (func_lock σ) as [l|] eqn:Hl; [|done].
    change (obj σ2 l) with (obj σ1 l). rewrite Ho1.
    by rewrite (Hfree Hpol l Hl). }
  cbv beta in H. rewrite Hheld in H.
  apply bind_inv in H as [(ip & σ3 & Hi & H)|(e & _ & [=])].
  rewrite CoroutineInProgress_init_exact in Hi. injection Hi as <- <-.
  change (heap σ2) with (heap σ1) in *. rewrite Hh1 in *.
  set (ip := fresh (dom (heap σ))) in *.
  apply bind_inv in H as [([] & σ4 & Hm & H)|(e & _ & [=])].
  assert (advances σ4 = advances σ /\
          co σ4 ip = Some {| _coroutine := Some (GenFresh s);
                             _timer := Some (Timer false 0);
                             _interval := interval;
                             _prerequisite_ip := None;
                             _locked := false |}) as [Ha4 Hc4].
  { assert (co (with_task (GenFresh s) interval false σ2) ip = Some
              {| _coroutine := Some (GenFresh s); _timer := Some (Timer false 0);
                 _interval := interval; _prerequisite_ip := None;
                 _locked := false |}) as Hco.
    { unfold co. rewrite obj_with_task.
      change (heap σ2) with (heap σ1). rewrite Hh1. fold ip.
      by rewrite decide_True. }
    case_bool_decide.
    - apply modify_inv in Hm as [_ ->]. done.
    - apply ret_inv in Hm as [_ ->]. done. }
  apply bind_inv in H as [(b & σ5 & Hs & H)|(e & _ & [=])].
  pose proof Hs as Hs'.
  apply (fresh_step_trace _ _ _ s _ _ _ Hc4 eq_refl eq_refl) in Hs
    as (ds & Ha5 & (ps & d & -> & Hend)).
  apply bind_inv in H as [([] & σ6 & Ht & H)|(e & _ & [=])].
  apply wrap_keeps in H as ([= ->] & Ha' & Ht').
  split; [done|].
  exists (map (fun p => DAwait p true) ps), d.
  assert (advances σ6 = advances σ5) as Ha6.
  { destruct b.
    - unfold bind, gets, modify, raise, ret in Ht.
      destruct (timer_of σ5 ip); by simplify_eq.
    - by apply ret_inv in Ht as [_ ->]. }
  split; [by rewrite Ha', Ha6, Ha5, Ha4|].
  intros ->. simpl in Hend. injection Hend as ->.
  rewrite Ht'. unfold bind, gets, modify, raise, ret in Ht.
  destruct (timer_of σ5 ip) as [tm|] eqn:Htm; [|done].
  injection Ht as <-. unfold timer_of in *. rewrite co_update_co, decide_True by done.
  destruct (co σ5 ip) as [c5|]; [|done]. done.
Qed.

(** The tasks of a call that is neither answered with the live task of
    the Singleton policy nor made to wait for the lock of the
    Synchronized policy. *)
Definition starts_at_once (a : args) (σ : state) : Prop :=
  (policy = Some POLICY_SINGLETON -> last_of (key_of a) σ = []) /\
  lock_free σ.

(** A call that returns a task, and is neither answered with the live
    task of the Singleton policy nor made to wait for the lock of the
    Synchronized policy, has run the generator of the new task before it
    returns: the task is a new object, the call resumed its generator at
    least once and no other generator, and when the last directive was
    to continue, the timer of the task is running with the interval of
    the decorator. *)
Theorem call_steps_eagerly fuel a σ t σ' :
  starts_at_once a σ ->
  newfunc fuel a σ = Some (Ret t, σ') ->
  (t ∉ dom (heap σ)) /\
  exists ds d,
    advances σ' = advances σ ++ map (pair t) (ds ++ [d]) /\
    (d = DContinueNow -> timer_of σ' t = Some (Timer true interval)).
Proof.
  intros [Hsingle Hfree] H.
  assert (exists kw σ0, invoke fuel a kw σ0 = Some (Ret t, σ') /\
            heap σ0 = heap σ /\ advances σ0 = advances σ /\ lock_free σ0)
    as (kw & σ0 & Hi & Hh & Ha & Hf).
  { unfold newfunc, policy_prologue in H.
    destruct policy as [pol|] eqn:Hpol.
    - unfold bind, modify, gets, ret in H.
      assert (forall σ0 : state, lock_free σ0 -> lock_free
                (match store_last σ0 !! key_of a with
                 | Some _ => σ0
                 | None => set_store_last (key_of a) [] σ0
                 end)) as Hkeep.
      { intros σ0 Hσ0. by destruct (store_last σ0 !! key_of a). }
      assert (forall σ0 : state,
                heap (match store_last σ0 !! key_of a with
                      | Some _ => σ0
                      | None => set_store_last (key_of a) [] σ0
                      end) = heap σ0 /\
                advances (match store_last σ0 !! key_of a with
                      | Some _ => σ0
                      | None => set_store_last (key_of a) [] σ0
                      end) = advances σ0) as Hsame.
      { intros σ0. by destruct (store_last σ0 !! key_of a). }
      assert (last_of (key_of a)
                (match store_last σ !! key_of a with
                 | Some _ => σ
                 | None => set_store_last (key_of a) [] σ
                 end) = last_of (key_of a) σ) as Hlast.
      { unfold last_of. destruct (store_last σ !! key_of a) eqn:E; simpl.
        - by rewrite E.
        - by rewrite lookup_insert_eq. }
      simpl in H. rewrite Hlast in H.
      destruct (Hsame σ) as [Hh Ha].
      destruct pol.
      + simpl in H. destruct (py_last (last_of (key_of a) σ)); simpl in H;
          eexists _, _; (split; [exact H|]); split_and!; auto.
      + rewrite (Hsingle eq_refl) in H. simpl in H.
        eexists _, _. split; [exact H|]. split_and!; auto.
      + simpl in H. eexists _, _. split; [exact H|]. split_and!; auto.
    - unfold bind, ret in H. simpl in H. eexists _, _. split; [exact H|]. done. }
  apply invoke_steps in Hi as (-> & ds & d & Hadv & Htm); [|done].
  rewrite Hh, Ha in *. split; [apply is_fresh|]. by exists ds, d.
Qed.


(** * Runs that come back *)

(** ** One round of the loop of [_step] *)

(** What [_process] resumes the generator with: [next()] when there is
    no prerequisite, else the result or the failure of the prerequisite. *)
Definition feed (σ : state) (pre : option nat) : resume_with :=
  match pre with
  | Some p =>
      match _exception (obj σ p) with
      | Some e => RThrow e
      | None => RSend (_result (obj σ p))
      end
  | None => RNext
  end.

(** The state in which the generator is resumed: the failure of the
    prerequisite has been marked as handled. *)
Definition consumed (σ : state) (pre : option nat) : state :=
  match pre with
  | Some p =>
      match _exception (obj σ p) with
      | Some _ => update p (with_unhandled None) σ
      | None => σ
      end
  | None => σ
  end.

(** The generator of [t] can be resumed from [s] the way [_step] does it:
    it is suspended at a yield, or it has not been started and the task
    has no prerequisite. *)
Definition poised (σ : state) (t : nat) (s : GenState) : Prop :=
  coroutine_of σ t = Some (GenSuspended s) \/
  coroutine_of σ t = Some (GenFresh s) /\ prerequisite_of σ t = None.

Lemma process_poised t s σ :
  poised σ t s ->
  _process t (prerequisite_of σ t) σ
  = gen_run t s (feed σ (prerequisite_of σ t)) (consumed σ (prerequisite_of σ t)).
Proof.
  unfold poised, coroutine_of, prerequisite_of.
  destruct (co σ t) as [c|] eqn:Hc; simpl; [|by intros [|[]]].
  intros [Hg|[Hg Hp]].
  - unfold _process. destruct (_prerequisite_ip c) as [p|]; simpl.
    + unfold bind, gets, modify.
      destruct (_exception (obj σ p)) as [e|].
      * unfold gen_resume. rewrite co_update_keeps by done. by rewrite Hc, Hg.
      * unfold gen_resume. by rewrite Hc, Hg.
    + unfold gen_resume. by rewrite Hc, Hg.
  - rewrite Hp. simpl. unfold gen_resume. by rewrite Hc, Hg.
Qed.

(** One pass through the body of the loop, by what [_process] gives. *)
Lemma step_round fuel t σ y σ1 :
  _process t (prerequisite_of σ t) σ = Some (y, σ1) ->
  _step (S fuel) t σ =
    match y with
    | Ret NotFinished =>
        Some (Ret true, update_co t (with_prerequisite None) σ1)
    | Ret (YInProgress p) =>
        let σ2 := update_co t (with_prerequisite (Some p))
                    (update_co t (with_prerequisite None) σ1) in
        if finished (obj σ1 p) then _step fuel t σ2
        else Some (Ret false,
                   connect_both p (ObsContinue t) (ObsContinue t) σ2)
    | Ret (YValue v) =>
        (_stop fuel t true ;;; ip_finish t v ;;; ret false)
          (update_co t (with_prerequisite None) σ1)
    | Exc StopIteration =>
        (_stop fuel t true ;;; ip_finish t PyNone ;;; ret false) σ1
    | Exc e =>
        (throw fuel t e ;;; if is_host_fatal e then raise e else ret false) σ1
    end.
Proof.
  intros H. simpl. unfold bind at 1. unfold try_except.
  unfold bind at 1. unfold gets at 1. cbv beta. unfold bind at 1.
  rewrite H. destruct y as [[|p|v]|e].
  - reflexivity.
  - unfold bind, modify, gets, ret. cbv beta.
    rewrite !finished_update_co.
    destruct (finished (obj σ1 p)); reflexivity.
  - reflexivity.
  - assert (forall (m : M unit) (b : bool),
              bind (bind m (fun _ => if b then raise e
                                     else ret (LReturn false)))
                (fun x => match x with
                          | LReturn b0 => ret b0
                          | LBreak v =>
                              _stop fuel t true ;;; ip_finish t v ;;; ret false
                          | LAgain => _step fuel t
                          end) σ1
              = bind m (fun _ => if b then raise e else ret false) σ1) as Hthrow.
    { intros m b. unfold bind. destruct (m σ1) as [[[[]|e'] σt]|]; try done.
      by destruct b. }
    destruct e; try apply Hthrow. reflexivity.
Qed.

(** ** [_stop] and the chain of prerequisites *)

(** The prerequisite of [t] that [_stop] passes the stop on to: a
    coroutine that still has its generator. *)
Definition next_stopped (σ : state) (t : nat) : option nat :=
  match prerequisite_of σ t with
  | Some p =>
      match coroutine_of σ p with
      | Some _ => Some p
      | None => None
      end
  | None => None
  end.

(** The tasks stopped after [t], in the order [_stop] reaches them, when
    there are at most [n] of them. *)
Fixpoint stop_chain (n : nat) (σ : state) (t : nat) : option (list nat) :=
  match next_stopped σ t with
  | None => Some []
  | Some p =>
      match n with
      | 0 => None
      | S n' => cons p <$> stop_chain n' σ p
      end
  end.

(** The state [_stop] has made when it passes the stop on or, with
    nothing to pass it on to, enters its [try]. *)
Definition detached (t : nat) (σ : state) : state :=
  let σb := set_active (_active_coroutines σ ∖ {[t]}) (stop_timer t σ) in
  match prerequisite_of σ t with
  | Some p =>
      if is_coroutine σ p then disconnect_both p (ObsContinue t) σb else σb
  | None => σb
  end.

Lemma is_coroutine_stop_timer t σ p :
  is_coroutine (stop_timer t σ) p = is_coroutine σ p.
Proof.
  unfold is_coroutine. apply bool_decide_ext.
  apply (co_stop_timer t σ p).
Qed.

Lemma _stop_unfold fuel t fin σ :
  _stop (S fuel) t fin σ =
    match next_stopped σ t with
    | Some p => (_stop fuel p false ;;; finalize t fin) (detached t σ)
    | None => finalize t fin (detached t σ)
    end.
Proof.
  simpl. unfold propagate, detached, next_stopped.
  unfold bind at 1. unfold bind at 1. unfold modify at 1.
  unfold bind at 1. unfold modify at 1. unfold bind at 1. unfold gets at 1.
  cbv beta.
  set (σb := set_active _ (stop_timer t σ)).
  change (prerequisite_of σb t) with (prerequisite_of (stop_timer t σ) t).
  destruct (co_stop_timer t σ t) as (-> & _ & _).
  destruct (prerequisite_of σ t) as [p|]; [|reflexivity].
  unfold bind at 1. unfold gets at 1. cbv beta.
  change (is_coroutine σb p) with (is_coroutine (stop_timer t σ) p).
  rewrite is_coroutine_stop_timer.
  destruct (is_coroutine σ p) eqn:Hisco.
  - unfold bind at 1. unfold modify at 1. unfold bind at 1. unfold gets at 1.
    cbv beta.
    assert (coroutine_of (disconnect_both p (ObsContinue t) σb) p
            = coroutine_of σ p) as ->.
    { unfold coroutine_of, disconnect_both. rewrite co_update_keeps by done.
      change (co σb p) with (co (stop_timer t σ) p).
      apply (co_stop_timer t σ p). }
    destruct (coroutine_of σ p); reflexivity.
  - assert (coroutine_of σ p = None) as ->; [|reflexivity].
    unfold is_coroutine in Hisco. apply bool_decide_eq_false in Hisco.
    unfold coroutine_of. destruct (co σ p); [|done].
    exfalso. apply Hisco. by eexists.
Qed.

Lemma gen_close_total t σ : is_Some (gen_close t σ).
Proof.
  unfold gen_close. destruct (co σ t) as [c|]; [|done].
  destruct (_coroutine c) as [[s|s|]|]; try done.
  by destruct (resume s (RThrow GeneratorExit)) as [y s'| |[]].
Qed.

Lemma finalize_total t fin σ : is_Some (finalize t fin σ).
Proof.
  unfold finalize, try_finally, bind, try_except.
  assert (forall σ2, is_Some
            (match
               match gen_close t σ2 with
               | Some (Exc e, σ') =>
                   match e with
                   | RuntimeError => modify (log_warning t)
                   | _ => raise e
                   end σ'
               | r => r
               end
             with
             | Some (r, σ') => Some (r, release t σ')
             | None => None
             end)) as Hclose.
  { intros σ2. destruct (gen_close_total t σ2) as [[[[]|e] σc] ->]; [done|].
    by destruct e. }
  destruct fin.
  - simpl. apply Hclose.
  - unfold gets at 1. cbv beta. case_bool_decide.
    + simpl. apply Hclose.
    + unfold ip_throw. destruct (finished (obj σ t)); [done|]. apply Hclose.
Qed.

(** States with the same prerequisites and generators. *)
Definition same_links (σ σ' : state) : Prop :=
  forall u, prerequisite_of σ' u = prerequisite_of σ u /\
            coroutine_of σ' u = coroutine_of σ u.

Lemma same_links_refl σ : same_links σ σ.
Proof. done. Qed.

Lemma same_links_trans σ1 σ2 σ3 :
  same_links σ1 σ2 -> same_links σ2 σ3 -> same_links σ1 σ3.
Proof.
  intros H12 H23 u. destruct (H12 u) as [A B], (H23 u) as [C D].
  split; congruence.
Qed.

Lemma same_links_update p f σ :
  (forall x, ip_co (f x) = ip_co x) -> same_links σ (update p f σ).
Proof.
  intros Hf u. unfold prerequisite_of, coroutine_of.
  by rewrite co_update_keeps.
Qed.

Lemma same_links_update_co t f σ :
  (forall c, _coroutine (f c) = _coroutine c /\
             _prerequisite_ip (f c) = _prerequisite_ip c) ->
  same_links σ (update_co t f σ).
Proof.
  intros Hf u. unfold prerequisite_of, coroutine_of. rewrite co_update_co.
  case_decide; subst; [|done].
  destruct (co σ u) as [c|]; [|done]. simpl. by destruct (Hf c) as [-> ->].
Qed.

Lemma next_stopped_same σ σ' t :
  same_links σ σ' -> next_stopped σ' t = next_stopped σ t.
Proof.
  intros H. unfold next_stopped. destruct (H t) as [-> _].
  destruct (prerequisite_of σ t) as [p|]; [|done]. by destruct (H p) as [_ ->].
Qed.

Lemma stop_chain_same n σ σ' t :
  same_links σ σ' -> stop_chain n σ' t = stop_chain n σ t.
Proof.
  intros H. revert t. induction n as [|n IH]; intros t; simpl;
    rewrite (next_stopped_same _ _ _ H); [done|].
  destruct (next_stopped σ t); [|done]. by rewrite IH.
Qed.

Lemma stop_timer_links t σ : same_links σ (stop_timer t σ).
Proof.
  apply same_links_update_co. intros c.
  destruct (_timer c) as [tm|]; [destruct (t_active tm)|]; done.
Qed.

Lemma detached_links t σ : same_links σ (detached t σ).
Proof.
  unfold detached.
  set (σb := set_active _ (stop_timer t σ)).
  assert (same_links σ σb) as Hb by apply stop_timer_links.
  destruct (prerequisite_of σ t) as [p|]; [|done].
  destruct (is_coroutine σ p); [|done].
  eapply same_links_trans; [exact Hb|]. by apply same_links_update.
Qed.


(** [_stop] comes back when the chain of prerequisites it follows ends. *)
Lemma _stop_total n : forall σ t l fin fuel,
  stop_chain n σ t = Some l -> n < fuel -> is_Some (_stop fuel t fin σ).
Proof.
  induction n as [|n IH]; intros σ t l fin fuel Hch Hfuel;
    (destruct fuel as [|fuel]; [lia|]); rewrite _stop_unfold;
    simpl in Hch; destruct (next_stopped σ t) as [p|] eqn:Hn;
    try done; try apply finalize_total.
  destruct (stop_chain n σ p) as [l'|] eqn:Hl; [|done].
  unfold bind.
  destruct (IH (detached t σ) p l' false fuel) as [[[[]|e] σ1] ->];
    [by rewrite (stop_chain_same _ _ _ _ (detached_links t σ))|lia| |done].
  apply finalize_total.
Qed.







(** The exception that closing the generator of [u] lets out of [_stop]:
    [GeneratorExit] and [StopIteration] end the close, [RuntimeError] is
    logged. *)
Definition close_exception (σ : state) (u : nat) : option pyexc :=
  match coroutine_of σ u with
  | Some (GenSuspended s) =>
      match resume s (RThrow GeneratorExit) with
      | GRaise e =>
          match e with
          | GeneratorExit | StopIteration | RuntimeError => None
          | _ => Some e
          end
      | _ => None
      end
  | _ => None
  end.



(** A task that [_stop] passes without raising: its promise is pending
    and the close of its generator raises nothing [_stop] lets out. *)
Definition calm (σ : state) (u : nat) : Prop :=
  finished (obj σ u) = false /\ close_exception σ u = None.

Global Instance calm_dec σ u : Decision (calm σ u).
Proof. unfold calm. apply _. Defined.


(** ** The inline loop, run to its end *)

(** States in which every promise has the same outcome. *)
Definition same_outcomes (σ σ' : state) : Prop :=
  forall q, finished (obj σ' q) = finished (obj σ q) /\
            _exception (obj σ' q) = _exception (obj σ q) /\
            _result (obj σ' q) = _result (obj σ q).

Lemma same_outcomes_trans σ1 σ2 σ3 :
  same_outcomes σ1 σ2 -> same_outcomes σ2 σ3 -> same_outcomes σ1 σ3.
Proof.
  intros H12 H23 q. destruct (H12 q) as (A & B & C), (H23 q) as (D & E & F).
  split_and!; congruence.
Qed.

Lemma same_outcomes_update p f σ :
  (forall x, finished (f x) = finished x /\ _exception (f x) = _exception x /\
             _result (f x) = _result x) ->
  same_outcomes σ (update p f σ).
Proof.
  intros Hf q. rewrite obj_update. case_decide; subst; [apply Hf|done].
Qed.

Lemma same_outcomes_update_co t f σ : same_outcomes σ (update_co t f σ).
Proof. by apply same_outcomes_update. Qed.

Lemma consumed_outcomes σ pre : same_outcomes σ (consumed σ pre).
Proof.
  unfold consumed. destruct pre as [p|]; [|done].
  destruct (_exception (obj σ p)); [|done]. by apply same_outcomes_update.
Qed.

Lemma consumed_links σ pre : same_links σ (consumed σ pre).
Proof.
  unfold consumed. destruct pre as [p|]; [|done].
  destruct (_exception (obj σ p)); [|done]. by apply same_links_update.
Qed.

Lemma feed_same σ σ' pre : same_outcomes σ σ' -> feed σ' pre = feed σ pre.
Proof.
  intros H. unfold feed. destruct pre as [p|]; [|done].
  by destruct (H p) as (_ & -> & ->).
Qed.

Lemma classify_same σ σ' o : same_outcomes σ σ' -> classify σ' o = classify σ o.
Proof.
  intros H. destruct o as [[|p|v] s'| |e]; simpl; try done.
  by destruct (H p) as (-> & _).
Qed.

(** The run of the generator from [s], resumed with [w], for as long as
    it yields promises that are terminal in [σ], each of which is fed
    back at once: the promises awaited on the way and the outcome that
    ends the run.  At most [n] promises are followed. *)
Fixpoint inline (n : nat) (σ : state) (s : GenState) (w : resume_with)
  : option (list nat * gen_outcome GenState) :=
  match resume s w with
  | GYield (YInProgress p) s' =>
      if finished (obj σ p) then
        match n with
        | 0 => None
        | S n' =>
            match inline n' σ s' (feed σ (Some p)) with
            | Some (ps, o) => Some (p :: ps, o)
            | None => None
            end
        end
      else Some ([], GYield (YInProgress p) s')
  | o => Some ([], o)
  end.

Lemma inline_eq n σ s w :
  inline n σ s w =
    match resume s w with
    | GYield (YInProgress p) s' =>
        if finished (obj σ p) then
          match n with
          | 0 => None
          | S n' =>
              match inline n' σ s' (feed σ (Some p)) with
              | Some (ps, o) => Some (p :: ps, o)
              | None => None
              end
          end
        else Some ([], GYield (YInProgress p) s')
    | o => Some ([], o)
    end.
Proof. by destruct n. Qed.

Lemma inline_same n σ σ' : same_outcomes σ σ' ->
  forall s w, inline n σ' s w = inline n σ s w.
Proof.
  intros H. induction n as [|n IH]; intros s w; simpl;
    destruct (resume s w) as [[|p|v] s'| |e]; try done;
    destruct (H p) as (Hf & He & Hr); rewrite Hf; try done.
  destruct (finished (obj σ p)); [|done].
  rewrite IH. unfold feed. by rewrite He, Hr.
Qed.

(** The generator has returned or raised. *)
Definition exits (o : gen_outcome GenState) : Prop :=
  match o with
  | GYield _ _ => False
  | _ => True
  end.

(** What [_process] hands back for an outcome of the generator. *)
Definition handed_back (o : gen_outcome GenState) : res yielded :=
  match o with
  | GYield y _ => Ret y
  | GReturn => Exc StopIteration
  | GRaise e => Exc e
  end.

Lemma process_run t s σ :
  poised σ t s ->
  let pre := prerequisite_of σ t in
  let o := resume s (feed σ pre) in
  exists σ1,
    _process t pre σ = Some (handed_back o, σ1) /\
    advances σ1 = advances σ ++ [(t, classify σ o)] /\
    same_outcomes σ σ1 /\
    prerequisite_of σ1 t = pre /\
    coroutine_of σ1 t = Some (match o with
                              | GYield _ s' => GenSuspended s'
                              | _ => GenExhausted
                              end) /\
    (forall q, q <> t -> coroutine_of σ1 q = coroutine_of σ q) /\
    (forall q, _unhandled_exception (obj σ1 q)
               = _unhandled_exception (obj (consumed σ pre) q)).
Proof.
  intros Hp. cbv zeta. rewrite (process_poised _ _ _ Hp).
  set (pre := prerequisite_of σ t). set (o := resume s (feed σ pre)).
  pose proof (consumed_outcomes σ pre) as Hout.
  pose proof (consumed_links σ pre) as Hlinks.
  set (σm := consumed σ pre) in *.
  assert (is_Some (co σ t)) as [c Hc].
  { destruct Hp as [Hp|[Hp _]]; unfold coroutine_of in Hp;
      destruct (co σ t); by eauto. }
  assert (co σm t = Some c) as Hcm.
  { unfold σm, consumed. destruct pre as [p|]; [|done].
    destruct (_exception (obj σ p)); [|done].
    by rewrite co_update_keeps. }
  assert (forall g τ,
            τ = update_co t (with_coroutine (Some g))
                  (log_advance t (classify σm o) σm) ->
            advances τ = advances σ ++ [(t, classify σ o)] /\
            same_outcomes σ τ /\
            prerequisite_of τ t = pre /\
            coroutine_of τ t = Some g /\
            (forall q, q <> t -> coroutine_of τ q = coroutine_of σ q) /\
            (forall q, _unhandled_exception (obj τ q)
                       = _unhandled_exception (obj σm q))) as Hall.
  { intros g τ ->. split_and!.
    - simpl. rewrite (classify_same _ _ _ Hout).
      f_equal. unfold σm, consumed. destruct pre as [p|]; [|done].
      by destruct (_exception (obj σ p)).
    - eapply same_outcomes_trans; [exact Hout|].
      apply (same_outcomes_update_co t _ (log_advance t _ σm)).
    - unfold prerequisite_of. rewrite co_update_co, decide_True by done.
      change (co (log_advance t (classify σm o) σm) t) with (co σm t).
      rewrite Hcm. simpl. subst pre. unfold prerequisite_of. by rewrite Hc.
    - unfold coroutine_of. rewrite co_update_co, decide_True by done.
      change (co (log_advance t (classify σm o) σm) t) with (co σm t).
      by rewrite Hcm.
    - intros q Hq. unfold coroutine_of. rewrite co_update_co.
      rewrite decide_False by done.
      change (co (log_advance t (classify σm o) σm) q) with (co σm q).
      by destruct (Hlinks q) as [_ ?].
    - intros q. unfold update_co. rewrite obj_update.
      case_decide; by subst. }
  unfold gen_run. fold o. destruct o as [y s'| |e] eqn:Ho;
    (eexists; split; [reflexivity|]); by apply Hall.
Qed.

Lemma ip_finish_total p v σ : is_Some (ip_finish p v σ).
Proof. unfold ip_finish. by destruct (finished (obj σ p)). Qed.

Lemma ip_throw_total p e σ : is_Some (ip_throw p e σ).
Proof. unfold ip_throw. by destruct (finished (obj σ p)). Qed.

Lemma finish_path_total k t v σ :
  next_stopped σ t = None ->
  is_Some ((_stop (S k) t true ;;; ip_finish t v ;;; ret false) σ).
Proof.
  intros Hn. unfold bind at 1. rewrite _stop_unfold, Hn.
  destruct (finalize_total t true (detached t σ)) as [[[[]|e] σ1] ->]; [|done].
  unfold bind. by destruct (ip_finish_total t v σ1) as [[[[]|e] σ2] ->].
Qed.

Lemma throw_path_total k t e σ :
  next_stopped σ t = None ->
  is_Some ((throw (S k) t e ;;;
            if is_host_fatal e then raise e else ret false) σ).
Proof.
  intros Hn. unfold throw. unfold bind at 1. unfold bind at 1.
  rewrite _stop_unfold, Hn.
  destruct (finalize_total t true (detached t σ)) as [[[[]|e'] σ1] ->]; [|done].
  destruct (ip_throw_total t e σ1) as [[[[]|e'] σ2] ->]; [|done].
  by destruct (is_host_fatal e).
Qed.

Lemma throw_path_bool fuel t e σ r σ' :
  (throw fuel t e ;;; if is_host_fatal e then raise e else ret false) σ
    = Some (r, σ') ->
  quiet σ σ' /\ r <> Ret true.
Proof.
  intros H. split.
  - eapply (resp_quiet _ _ _ _ _ H). Unshelve.
    apply resp_bind; [apply resp_throw|]. intros _ σ1 _.
    destruct (is_host_fatal e); [apply resp_raise|apply resp_ret].
  - unfold bind in H.
    destruct (throw fuel t e σ) as [[[[]|e'] σ1]|]; simplify_eq; [|done].
    destruct (is_host_fatal e); unfold raise, ret in H; by simplify_eq.
Qed.

(** A round that ends the call. *)
Lemma step_last t s σ fuel :
  poised σ t s ->
  let pre := prerequisite_of σ t in
  let o := resume s (feed σ pre) in
  (forall p s', o = GYield (YInProgress p) s' -> finished (obj σ p) = false) ->
  (exits o -> forall q, pre = Some q -> coroutine_of σ q = None) ->
  1 < fuel ->
  exists r σ',
    _step fuel t σ = Some (r, σ') /\
    advances σ' = advances σ ++ [(t, classify σ o)] /\
    ends_loop (classify σ o) r.
Proof.
  intros Hp. cbv zeta. intros Hwait Hexit Hfuel.
  destruct fuel as [|[|k]]; [lia..|].
  destruct (process_run t s σ Hp)
    as (σ1 & Hproc & Hadv & Hout & Hpre1 & Hg1 & Hgo & _).
  cbv zeta in *. rewrite (step_round _ _ _ _ _ Hproc).
  assert (coroutine_of σ t <> None) as Hlive.
  { by destruct Hp as [->|[-> _]]. }
  assert (exits (resume s (feed σ (prerequisite_of σ t))) ->
          next_stopped σ1 t = None) as Hstop.
  { intros Hex. unfold next_stopped. rewrite Hpre1.
    destruct (prerequisite_of σ t) as [q|] eqn:Hq; [|done].
    pose proof (Hexit Hex q eq_refl) as Hnone.
    rewrite Hgo; [by rewrite Hnone|]. intros ->. done. }
  assert (next_stopped (update_co t (with_prerequisite None) σ1) t = None)
    as Hreset.
  { unfold next_stopped, prerequisite_of.
    rewrite co_update_co, decide_True by done. by destruct (co σ1 t). }
  destruct (resume s (feed σ (prerequisite_of σ t)))
    as [[|p|v] s'| |e] eqn:Ho; simpl handed_back; cbv iota beta.
  - eexists _, _. split; [reflexivity|]. split; [simpl; by rewrite Hadv|done].
  - pose proof (Hwait p s' eq_refl) as Hfin.
    destruct (Hout p) as (Hfp & _). rewrite Hfp, Hfin.
    eexists _, _. split; [reflexivity|].
    split; [|by simpl; rewrite Hfin].
    unfold connect_both. rewrite !finished_update_co, Hfp, Hfin.
    change (advances (register_both p (ObsContinue t) (ObsContinue t)
              (update_co t (with_prerequisite (Some p))
                 (update_co t (with_prerequisite None) σ1))))
      with (advances σ1).
    by rewrite Hadv.
  - destruct (finish_path_total k t v _ Hreset) as [[r σ'] Hfp].
    exists r, σ'. split; [exact Hfp|].
    apply finish_path_quiet in Hfp as [(Hq & _) Hr].
    split; [|done]. rewrite Hq. simpl. by rewrite Hadv.
  - destruct (finish_path_total k t PyNone σ1 (Hstop I)) as [[r σ'] Hfp].
    exists r, σ'. split; [exact Hfp|].
    apply finish_path_quiet in Hfp as [(Hq & _) Hr].
    split; [|done]. rewrite Hq. simpl. by rewrite Hadv.
  - pose proof (Hstop I) as Hn.
    destruct (decide (e = StopIteration)) as [->|Hne].
    + destruct (finish_path_total k t PyNone σ1 Hn) as [[r σ'] Hfp].
      exists r, σ'. split; [exact Hfp|].
      apply finish_path_quiet in Hfp as [(Hq & _) Hr].
      split; [|done]. rewrite Hq. simpl. by rewrite Hadv.
    + destruct (throw_path_total k t e σ1 Hn) as [[r σ'] Htp].
      exists r, σ'. split; [by destruct e|].
      apply throw_path_bool in Htp as [(Hq & _) Hr].
      split; [rewrite Hq; simpl; by rewrite Hadv|]. by destruct e.
Qed.

(** A round after which the loop goes round again. *)
Lemma step_again t s σ p s' :
  poised σ t s ->
  resume s (feed σ (prerequisite_of σ t)) = GYield (YInProgress p) s' ->
  finished (obj σ p) = true ->
  exists σ2,
    (forall fuel, _step (S fuel) t σ = _step fuel t σ2) /\
    coroutine_of σ2 t = Some (GenSuspended s') /\
    prerequisite_of σ2 t = Some p /\
    same_outcomes σ σ2 /\
    advances σ2 = advances σ ++ [(t, DAwait p true)] /\
    (forall q, q <> t -> coroutine_of σ2 q = coroutine_of σ q) /\
    (forall q, _unhandled_exception (obj σ2 q)
               = _unhandled_exception
                   (obj (consumed σ (prerequisite_of σ t)) q)).
Proof.
  intros Hp Ho Hfin.
  destruct (process_run t s σ Hp)
    as (σ1 & Hproc & Hadv & Hout & Hpre1 & Hg1 & Hgo & Hun).
  cbv zeta in *. rewrite Ho in *. simpl in Hproc, Hadv.
  set (σ2 := update_co t (with_prerequisite (Some p))
               (update_co t (with_prerequisite None) σ1)).
  assert (forall q, coroutine_of σ2 q = coroutine_of σ1 q) as Hg2.
  { intros q. unfold σ2, coroutine_of. rewrite !co_update_co.
    destruct (decide (t = q)) as [->|]; [|done].
    rewrite decide_True by done. by destruct (co σ1 q). }
  exists σ2. split_and!.
  - intros fuel. rewrite (step_round _ _ _ _ _ Hproc). cbv zeta.
    destruct (Hout p) as (-> & _). by rewrite Hfin.
  - by rewrite Hg2.
  - unfold σ2, prerequisite_of. rewrite !co_update_co, !decide_True by done.
    unfold coroutine_of in Hg1. by destruct (co σ1 t).
  - eapply same_outcomes_trans; [exact Hout|].
    eapply same_outcomes_trans; apply same_outcomes_update_co.
  - change (advances σ2) with (advances σ1). by rewrite Hadv, Hfin.
  - intros q Hq. rewrite Hg2. by apply Hgo.
  - intros q. rewrite <-Hun. unfold σ2, update_co. rewrite !obj_update.
    repeat case_decide; by subst.
Qed.

(** The inline loop comes back.  When the generator of [t], fed the
    outcomes of the terminal promises it yields, awaits [ps] and then
    ends the run with [o], one call of [_step] with a unit of fuel for
    each of these resumptions, and one more, resumes it that often and
    returns at [o]. *)
Lemma step_runs_inline n : forall σ t s ps o fuel,
  poised σ t s ->
  inline n σ s (feed σ (prerequisite_of σ t)) = Some (ps, o) ->
  (exits o ->
   forall q, last (option_list (prerequisite_of σ t) ++ ps) = Some q ->
             coroutine_of σ q = None) ->
  length ps + 1 < fuel ->
  exists r σ',
    _step fuel t σ = Some (r, σ') /\
    advances σ' = advances σ ++
      map (pair t) (((fun p => DAwait p true) <$> ps) ++ [classify σ o]) /\
    ends_loop (classify σ o) r.
Proof.
  assert (forall σ t s ps o fuel,
            poised σ t s ->
            (forall p s', resume s (feed σ (prerequisite_of σ t))
                          = GYield (YInProgress p) s' ->
                          finished (obj σ p) = false) ->
            Some ([], resume s (feed σ (prerequisite_of σ t))) = Some (ps, o) ->
            (exits o ->
             forall q, last (option_list (prerequisite_of σ t) ++ ps) = Some q ->
                       coroutine_of σ q = None) ->
            length ps + 1 < fuel ->
            exists r σ',
              _step fuel t σ = Some (r, σ') /\
              advances σ' = advances σ ++
                map (pair t) (((fun p => DAwait p true) <$> ps)
                              ++ [classify σ o]) /\
              ends_loop (classify σ o) r) as Hlast.
  { intros σ t s ps o fuel Hp Hwait [= <- <-] Hexit Hfuel.
    apply (step_last t s σ fuel Hp); [done| |simpl in Hfuel; lia].
    intros Hex q Hq. apply (Hexit Hex). rewrite Hq. by simpl. }
  induction n as [|n IH]; intros σ t s ps o fuel Hp Hinl Hexit Hfuel;
    rewrite inline_eq in Hinl.
  - destruct (resume s (feed σ (prerequisite_of σ t)))
      as [[|p|v] s'| |e] eqn:Ho;
      try (apply (Hlast σ t s ps o fuel Hp);
           [by rewrite Ho|by rewrite Ho|done|done]).
    destruct (finished (obj σ p)) eqn:Hfin; [done|].
    apply (Hlast σ t s ps o fuel Hp); [|by rewrite Ho|done|done].
    rewrite Ho. by intros ? ? [= <- <-].
  - destruct (resume s (feed σ (prerequisite_of σ t)))
      as [[|p|v] s'| |e] eqn:Ho;
      try (apply (Hlast σ t s ps o fuel Hp);
           [by rewrite Ho|by rewrite Ho|done|done]).
    destruct (finished (obj σ p)) eqn:Hfin; cbv iota in Hinl.
    2:{ apply (Hlast σ t s ps o fuel Hp); [|by rewrite Ho|done|done].
        rewrite Ho. by intros ? ? [= <- <-]. }
    cbv iota in Hinl.
    destruct (inline n σ s' (feed σ (Some p))) as [[ps' o']|] eqn:Hrec; [|done].
    injection Hinl as <- <-.
    destruct (step_again t s σ p s' Hp Ho Hfin)
      as (σ2 & Hs2 & Hg2 & Hpre2 & Hout2 & Hadv2 & Hgo2 & _).
    destruct fuel as [|fuel]; [lia|].
    assert (coroutine_of σ t <> None) as Hlive.
    { by destruct Hp as [->|[-> _]]. }
    destruct (IH σ2 t s' ps' o' fuel) as (r & σ' & Hs & Hadv' & Hend).
    + by left.
    + by rewrite Hpre2, (inline_same _ _ _ Hout2), (feed_same _ _ _ Hout2).
    + intros Hex q Hq. rewrite Hpre2 in Hq.
      assert (coroutine_of σ q = None) as Hnone.
      { apply (Hexit Hex). destruct (prerequisite_of σ t); simpl in *; [|done].
        by destruct ps'. }
      rewrite Hgo2; [done|]. intros ->. done.
    + simpl in Hfuel. lia.
    + exists r, σ'. split; [by rewrite Hs2|]. split.
      * rewrite Hadv', Hadv2. simpl. rewrite <-app_assoc.
        by rewrite (classify_same _ _ _ Hout2).
      * by rewrite <-(classify_same _ _ _ Hout2).
Qed.

Lemma process_total t pre σ : is_Some (_process t pre σ).
Proof.
  unfold _process. destruct pre as [p|]; [|apply gen_resume_total].
  unfold bind, gets, modify. destruct (_exception (obj σ p));
    apply gen_resume_total.
Qed.

Lemma update_unhandled_twice p σ :
  update p (with_unhandled None) (update p (with_unhandled None) σ)
  = update p (with_unhandled None) σ.
Proof.
  unfold update at 1. rewrite obj_update_eq. unfold update, set_heap. simpl.
  by rewrite insert_insert_eq.
Qed.

(** [_step] runs the same from the state in which the failure of the
    prerequisite is already marked as handled. *)
Lemma step_consumed fuel t σ :
  _step fuel t (consumed σ (prerequisite_of σ t)) = _step fuel t σ.
Proof.
  destruct fuel as [|fuel]; [done|].
  destruct (process_total t (prerequisite_of σ t) σ) as [[y σ1] Hproc].
  rewrite (step_round _ _ _ _ _ Hproc).
  apply step_round.
  destruct (consumed_links σ (prerequisite_of σ t) t) as [-> _].
  rewrite <-Hproc. unfold consumed, _process.
  destruct (prerequisite_of σ t) as [p|]; [|done].
  unfold bind, gets, modify.
  destruct (_exception (obj σ p)) as [e|] eqn:He; [|by rewrite He].
  rewrite obj_update_eq. simpl. rewrite He.
  by rewrite update_unhandled_twice.
Qed.

(** C1, as amended.  One call of [_step] resumes the generator again,
    inline, exactly after each [Await(p)] on an already terminal [p], and
    leaves the loop at the first other directive: at [ContinueNow], where
    it returns [True] so that the timer calls it again from the main
    loop, at an [Await] on a pending promise (result [False]), at [Done]
    or at [Raised].  First part: the call comes back.  When the
    generator, fed the outcomes of the terminal promises it yields,
    awaits the promises [ps] and then ends its run with [o], [_step]
    with more than [length ps + 1] units of fuel returns, having resumed
    the generator once for each of [ps] and once more; there the only
    condition is that a generator that returns or raises does so while
    its task waits on no task that still has its generator.  Second
    part: whatever the generator does, a call that comes back has
    logged inline awaits followed by one directive that ends the loop. *)
Theorem step_inline_loop t σ :
  (forall n s ps o fuel,
     poised σ t s ->
     inline n σ s (feed σ (prerequisite_of σ t)) = Some (ps, o) ->
     (exits o ->
      forall q, last (option_list (prerequisite_of σ t) ++ ps) = Some q ->
                coroutine_of σ q = None) ->
     length ps + 1 < fuel ->
     exists r σ',
       _step fuel t σ = Some (r, σ') /\
       advances σ' = advances σ ++
         map (pair t) (((fun p => DAwait p true) <$> ps) ++ [classify σ o]) /\
       ends_loop (classify σ o) r) /\
  (forall fuel r σ',
     _step fuel t σ = Some (r, σ') ->
     exists ds, advances σ' = advances σ ++ map (pair t) ds /\
                inline_run ds r).
Proof.
  split.
  - intros n s ps o fuel. apply step_runs_inline.
  - intros fuel r σ'. apply step_inline_shape.
Qed.

(** A call of [_step] that comes back has marked as handled every
    failure it has fed to the generator: that of the prerequisite in
    place at the start and those of the promises awaited inline. *)
Lemma step_handles n : forall σ t s ps o fuel r σ',
  poised σ t s ->
  inline n σ s (feed σ (prerequisite_of σ t)) = Some (ps, o) ->
  _step fuel t σ = Some (r, σ') ->
  forall q, q ∈ option_list (prerequisite_of σ t) ++ ps ->
    finished (obj σ q) = true -> is_Some (_exception (obj σ q)) ->
    _unhandled_exception (obj σ' q) = None.
Proof.
  assert (forall σ t fuel r σ' q,
            _step fuel t σ = Some (r, σ') ->
            prerequisite_of σ t = Some q ->
            finished (obj σ q) = true -> is_Some (_exception (obj σ q)) ->
            _unhandled_exception (obj σ' q) = None) as Hhead.
  { intros σ t fuel r σ' q Hs Hpre Hfin [e He].
    rewrite <-step_consumed, Hpre in Hs. unfold consumed in Hs.
    rewrite He in Hs.
    set (σm := update q (with_unhandled None) σ) in *.
    assert (settled_kept q σm σ') as Hk.
    { eapply prims_settled_kept, blocks_prims, (resp__step 1); [lia|exact Hs]. }
    destruct Hk as (_ & _ & _ & U).
    - unfold σm. by rewrite obj_update_eq.
    - apply U. unfold σm. by rewrite obj_update_eq. }
  induction n as [|n IH]; intros σ t s ps o fuel r σ' Hp Hinl Hs q Hq Hfin He;
    rewrite inline_eq in Hinl.
  - assert (ps = []) as ->.
    { destruct (resume s (feed σ (prerequisite_of σ t)))
        as [[|p|v] s'| |e]; simplify_eq; try done.
      destruct (finished (obj σ p)); by simplify_eq. }
    rewrite app_nil_r in Hq.
    destruct (prerequisite_of σ t) as [p|] eqn:Hpre;
      [|by apply elem_of_nil in Hq].
    apply list_elem_of_singleton in Hq as ->. by eapply Hhead.
  - apply elem_of_app in Hq as [Hq|Hq].
    { destruct (prerequisite_of σ t) as [p|] eqn:Hpre;
        [|by apply elem_of_nil in Hq].
      apply list_elem_of_singleton in Hq as ->. by eapply Hhead. }
    destruct (resume s (feed σ (prerequisite_of σ t)))
      as [[|p|v] s'| |e] eqn:Ho; simplify_eq;
      try (by apply elem_of_nil in Hq).
    destruct (finished (obj σ p)) eqn:Hfp;
      [|simplify_eq; by apply elem_of_nil in Hq].
    destruct (inline n σ s' (feed σ (Some p))) as [[ps' o']|] eqn:Hrec; [|done].
    simplify_eq.
    destruct (step_again t s σ p s' Hp Ho Hfp)
      as (σ2 & Hs2 & Hg2 & Hpre2 & Hout2 & _).
    destruct fuel as [|fuel]; [done|]. rewrite Hs2 in Hs.
    destruct (Hout2 q) as (Hf2 & He2 & _).
    eapply (IH σ2 t s' ps' o fuel r σ'); [by left| |exact Hs| | |].
    + by rewrite Hpre2, (inline_same _ _ _ Hout2), (feed_same _ _ _ Hout2).
    + by rewrite Hpre2.
    + by rewrite Hf2.
    + by rewrite He2.
Qed.

(** C9.  Whenever a prerequisite of a task has failed, [_step] consumes
    the failure.  [_process] marks the failure of the prerequisite in
    place as handled and then resumes the generator with it (first
    equation); [_step] comes back under the conditions of the inline
    loop, having resumed the generator as [inline] tells, which feeds
    each failed promise as [throw(e)]; and for the prerequisite in place
    at the start and every promise awaited inline that has failed, the
    unhandled marker is clear when [_step] returns and stays clear
    whatever happens afterwards, so the failure is never reported as
    unhandled. *)
Theorem failed_prerequisite_is_handled n t s ps o fuel σ :
  poised σ t s ->
  inline n σ s (feed σ (prerequisite_of σ t)) = Some (ps, o) ->
  (exits o ->
   forall q, last (option_list (prerequisite_of σ t) ++ ps) = Some q ->
             coroutine_of σ q = None) ->
  length ps + 1 < fuel ->
  _process t (prerequisite_of σ t) σ
    = gen_run t s (feed σ (prerequisite_of σ t))
        (consumed σ (prerequisite_of σ t)) /\
  exists r σ',
    _step fuel t σ = Some (r, σ') /\
    advances σ' = advances σ ++
      map (pair t) (((fun q => DAwait q true) <$> ps) ++ [classify σ o]) /\
    forall q e,
      q ∈ option_list (prerequisite_of σ t) ++ ps ->
      finished (obj σ q) = true -> _exception (obj σ q) = Some e ->
      feed σ (Some q) = RThrow e /\
      (prerequisite_of σ t = Some q ->
       _unhandled_exception
         (obj (consumed σ (prerequisite_of σ t)) q) = None) /\
      _unhandled_exception (obj σ' q) = None /\
      forall σ2, rtc step σ' σ2 -> ~ reports_unhandled σ2 q.
Proof.
  intros Hp Hinl Hexit Hfuel. split; [by apply process_poised|].
  destruct (step_runs_inline n σ t s ps o fuel Hp Hinl Hexit Hfuel)
    as (r & σ' & Hs & Hadv & _).
  exists r, σ'. split; [done|]. split; [done|].
  intros q e Hq Hfin He.
  pose proof (step_handles n σ t s ps o fuel r σ' Hp Hinl Hs q Hq Hfin
                (ex_intro _ e He)) as Hclear.
  split_and!.
  - unfold feed. by rewrite He.
  - intros ->. unfold consumed. rewrite He. by rewrite obj_update_eq.
  - done.
  - intros σ2 Hsteps Hrep. apply Hrep.
    assert (finished (obj σ' q) = true) as Hf'.
    { assert (settled_kept q σ σ') as Hk.
      { eapply prims_settled_kept, blocks_prims, (resp__step 1); [lia|exact Hs]. }
      by apply Hk. }
    apply steps_prims, (prims_settled_kept _ _ q) in Hsteps.
    by apply Hsteps.
Qed.


(** ** Calls that come back *)

Lemma bind_run {A B} (m : M A) (k : A -> M B) σ a σ1 :
  m σ = Some (Ret a, σ1) -> bind m k σ = k a σ1.
Proof. intros H. unfold bind. by rewrite H. Qed.

Lemma wrap_total k pr o σ : is_Some (wrap k pr o σ).
Proof.
  unfold wrap, bind, modify, gets, ret.
  destruct progress; simpl; destruct (tracks_last && negb _); done.
Qed.

Lemma inline_finished n σ : forall s w ps o,
  inline n σ s w = Some (ps, o) ->
  Forall (fun q => finished (obj σ q) = true) ps.
Proof.
  induction n as [|n IH]; intros s w ps o H; rewrite inline_eq in H;
    destruct (resume s w) as [[|p|v] s'| |e]; simplify_eq; try done;
    destruct (finished (obj σ p)) eqn:Hfin; simplify_eq; try done.
  destruct (inline n σ s' (feed σ (Some p))) as [[ps' o']|] eqn:Hrec; [|done].
  simplify_eq. constructor; [done|]. by eapply IH.
Qed.

(** The part of [newfunc] from the call of [func] on comes back when
    [func] gives a generator whose inline run ends and the lock of the
    function is free. *)
Lemma invoke_returns n fuel a kw σ s ps o :
  func (if progress then Some (next_progress σ) else None) a kw
    = FGenerator s ->
  lock_free σ ->
  inline n σ s RNext = Some (ps, o) ->
  (exits o -> forall q, last ps = Some q -> coroutine_of σ q = None) ->
  length ps + 1 < fuel ->
  is_Some (invoke fuel a kw σ).
Proof.
  intros Hfunc Hfree Hinl Hexit Hfuel. unfold invoke.
  set (pr := if progress then Some (next_progress σ) else None) in *.
  set (σ1 := if progress then bump_progress σ else σ).
  rewrite (bind_run _ _ σ pr σ1) by (unfold pr, σ1; by destruct progress).
  rewrite (bind_run _ _ σ1 tt (log_call (key_of a) kw σ1)) by reflexivity.
  rewrite Hfunc.
  set (σ2 := log_call (key_of a) kw σ1).
  assert (forall q, obj σ2 q = obj σ q) as Ho2.
  { intros q. unfold σ2, σ1. by destruct progress. }
  assert (heap σ2 = heap σ) as Hh2 by (unfold σ2, σ1; by destruct progress).
  assert (func_lock σ2 = func_lock σ) as Hl2
    by (unfold σ2, σ1; by destruct progress).
  rewrite (bind_run _ _ σ2 (func_lock σ2) σ2) by reflexivity.
  rewrite (bind_run _ _ σ2 false σ2).
  2:{ unfold gets. do 2 f_equal.
      destruct policy as [[]|] eqn:Hpol; try done.
      rewrite Hl2. destruct (func_lock σ) as [l|] eqn:Hl; [|done].
      by rewrite Ho2, (Hfree Hpol l Hl). }
  rewrite (bind_run _ _ σ2 _ _ (CoroutineInProgress_init_exact _ _ _ σ2)).
  rewrite Hh2. set (ip := fresh (dom (heap σ))).
  set (σ3 := with_task (GenFresh s) interval false σ2).
  set (σ4 := if bool_decide (policy = Some POLICY_SYNCHRONIZED)
             then set_func_lock (Some ip) σ3 else σ3).
  rewrite (bind_run _ _ σ3 tt σ4) by (unfold σ4; by case_bool_decide).
  assert (forall q, obj σ4 q =
            if decide (ip = q)
            then make_co {| _coroutine := Some (GenFresh s);
                            _timer := Some (Timer false 0);
                            _interval := interval;
                            _prerequisite_ip := None;
                            _locked := false |} blank_ip
            else obj σ q) as Ho4.
  { intros q.
    assert (obj σ4 q = obj σ3 q) as -> by (unfold σ4; by case_bool_decide).
    unfold σ3. rewrite obj_with_task, Hh2. fold ip.
    case_decide; [done|apply Ho2]. }
  assert (obj σ ip = blank_ip) as Hblank by apply fresh_blank.
  assert (same_outcomes σ σ4) as Hout.
  { intros q. rewrite Ho4. case_decide; [|done]. subst q. by rewrite Hblank. }
  assert (forall q, q <> ip -> coroutine_of σ4 q = coroutine_of σ q) as Hgo.
  { intros q Hq. unfold coroutine_of, co. rewrite Ho4.
    by rewrite decide_False. }
  assert (poised σ4 ip s) as Hp.
  { right. unfold coroutine_of, prerequisite_of, co. rewrite Ho4.
    by rewrite decide_True. }
  assert (prerequisite_of σ4 ip = None) as Hpre.
  { unfold prerequisite_of, co. rewrite Ho4. by rewrite decide_True. }
  pose proof (inline_finished _ _ _ _ _ _ Hinl) as Hfin.
  destruct (step_runs_inline n σ4 ip s ps o fuel Hp) as (r & σ5 & Hs & _).
  - by rewrite Hpre, (inline_same _ _ _ Hout).
  - intros Hex q Hq. rewrite Hpre in Hq. simpl in Hq.
    assert (q ∈ ps) as Hin.
    { apply last_Some in Hq as [l' ->]. set_solver. }
    rewrite Forall_forall in Hfin. specialize (Hfin q Hin).
    rewrite Hgo; [by apply Hexit|]. intros ->. by rewrite Hblank in Hfin.
  - done.
  - unfold bind at 1. rewrite Hs. destruct r as [b|e]; [|done].
    unfold bind at 1.
    assert (forall τ, is_Some (wrap (key_of a) pr ip τ)) as Hw
      by (intros; apply wrap_total).
    destruct b; [|apply Hw].
    unfold bind, gets, modify, raise.
    destruct (timer_of σ5 ip); [apply Hw|done].
Qed.

(** C5, as amended.  Under the PassLast policy, in any state the engine
    can reach, a call for key [k] calls [func] once, with [last] bound
    to the unfinished task handed out last for [k], or to [None] when
    there is none.  First part: the call comes back when the generator
    that [func] gives ends its inline run (as for [_step]), and at once
    when [func] gives no generator.  Second part: a call that has come
    back has called [func] that way; when [func] gives a generator a new
    task has been created for it, and a task that is returned is new
    and is recorded for [k].  So a call right after a call whose task is
    still unfinished sees that task, and the first call sees [None]. *)
Theorem pass_last_sees_latest a σ :
  policy = Some POLICY_PASS_LAST -> reachable σ ->
  (forall n s ps o fuel,
     func (if progress then Some (next_progress σ) else None) a
          (Some (py_last (filter (unfinished σ) (issued_for (key_of a) σ))))
       = FGenerator s ->
     inline n σ s RNext = Some (ps, o) ->
     (exits o -> forall q, last ps = Some q -> coroutine_of σ q = None) ->
     length ps + 1 < fuel ->
     exists r σ',
       newfunc fuel a σ = Some (r, σ') /\
       calls σ' = calls σ ++
         [(key_of a,
           Some (py_last (filter (unfinished σ) (issued_for (key_of a) σ))))]) /\
  ((forall s,
      func (if progress then Some (next_progress σ) else None) a
           (Some (py_last (filter (unfinished σ) (issued_for (key_of a) σ))))
        <> FGenerator s) ->
   forall fuel, exists e σ',
     newfunc fuel a σ = Some (Exc e, σ') /\
     calls σ' = calls σ ++
       [(key_of a,
         Some (py_last (filter (unfinished σ) (issued_for (key_of a) σ))))]) /\
  (forall fuel r σ',
     newfunc fuel a σ = Some (r, σ') ->
     calls σ' = calls σ ++
       [(key_of a,
         Some (py_last (filter (unfinished σ) (issued_for (key_of a) σ))))] /\
     ((forall pr kw, exists s, func pr a kw = FGenerator s) ->
      exists t, (t ∉ dom (heap σ)) /\ is_Some (co σ' t) /\
                (r = Ret t \/ exists e, r = Exc e)) /\
     (forall t, r = Ret t ->
        (t ∉ dom (heap σ)) /\ is_Some (co σ' t) /\
        issued σ' = issued σ ++ [(key_of a, t)]) /\
     (issued_for (key_of a) σ = [] ->
        calls σ' = calls σ ++ [(key_of a, Some None)]) /\
     (forall l t0, issued_for (key_of a) σ = l ++ [t0] -> unfinished σ t0 ->
        calls σ' = calls σ ++ [(key_of a, Some (Some t0))])).
Proof.
  intros Hpol Hreach.
  assert (tracks_last = true) as Htl by (unfold tracks_last; by rewrite Hpol).
  pose proof (reachable_inv _ Htl Hreach) as Hinv.
  set (latest := py_last (filter (unfinished σ) (issued_for (key_of a) σ))).
  set (σ0 := match store_last σ !! key_of a with
             | Some _ => σ
             | None => set_store_last (key_of a) [] σ
             end).
  assert (forall fuel, newfunc fuel a σ = invoke fuel a (Some latest) σ0)
    as Hnew.
  { intros fuel. unfold newfunc, policy_prologue. rewrite Hpol.
    unfold bind, modify, gets, ret. cbv beta. fold σ0.
    assert (last_of (key_of a) σ0 = last_of (key_of a) σ) as ->.
    { unfold σ0, last_of. destruct (store_last σ !! key_of a) eqn:E; simpl.
      - by rewrite E.
      - by rewrite lookup_insert_eq. }
    by rewrite (inv_last _ Hinv). }
  assert (forall q, obj σ0 q = obj σ q) as Ho0.
  { intros q. unfold σ0. by destruct (store_last σ !! key_of a). }
  assert (next_progress σ0 = next_progress σ) as Hn0.
  { unfold σ0. by destruct (store_last σ !! key_of a). }
  split_and!.
  - intros n s ps o fuel Hfunc Hinl Hexit Hfuel.
    destruct (invoke_returns n fuel a (Some latest) σ0 s ps o)
      as [[r σ'] Hi].
    + by rewrite Hn0.
    + intros Hsync. by rewrite Hpol in Hsync.
    + rewrite <-Hinl. apply inline_same. intros q. by rewrite Ho0.
    + intros Hex q Hq. unfold coroutine_of, co. rewrite Ho0.
      by apply (Hexit Hex).
    + done.
    + exists r, σ'. rewrite Hnew. split; [done|].
      rewrite <-Hnew in Hi.
      by destruct (pass_last_call _ _ _ _ _ Hpol Hreach Hi) as (? & _).
  - intros Hnogen fuel.
    assert (exists e σ', newfunc fuel a σ = Some (Exc e, σ')) as (e & σ' & Hi).
    { rewrite Hnew. unfold invoke.
      set (pr := if progress then Some (next_progress σ0) else None).
      set (σ1 := if progress then bump_progress σ0 else σ0).
      rewrite (bind_run _ _ σ0 pr σ1) by (unfold pr, σ1; by destruct progress).
      rewrite (bind_run _ _ σ1 tt (log_call (key_of a) (Some latest) σ1))
        by reflexivity.
      unfold pr. rewrite Hn0.
      destruct (func _ a (Some latest)) as [s| |e] eqn:Hf.
      - by destruct (Hnogen s).
      - by eexists _, _.
      - by eexists _, _. }
    exists e, σ'. split; [done|].
    by destruct (pass_last_call _ _ _ _ _ Hpol Hreach Hi) as (? & _).
  - intros fuel r σ' H. exact (pass_last_call fuel a σ r σ' Hpol Hreach H).
Qed.

End Engine.


(** * Closed instances *)

(** A generator that yields the items of a script one by one and then
    returns; an exception thrown into it comes straight back out. *)
Definition script_resume (s : list yielded) (w : resume_with)
  : gen_outcome (list yielded) :=
  match w with
  | RThrow e => GRaise e
  | _ => match s with
         | [] => GReturn
         | y :: s' => GYield y s'
         end
  end.

(** A decorated function whose arguments are a key and the script its
    generator plays. *)
Definition script_key (a : nat * list yielded) : nat := a.1.

Definition script_func (pr : option nat) (a : nat * list yielded)
    (kw : option (option nat)) : @func_result (list yielded) :=
  FGenerator a.2.

Definition play (policy : option policy_kind)
    (evs : list (nat * @event (nat * list yielded)))
  : option (@state (list yielded)) :=
  run_events script_resume script_key script_func policy 0 false evs init_state.

Lemma play_reachable policy evs σ :
  play policy evs = Some σ ->
  reachable script_resume script_key script_func policy 0 false σ.
Proof. apply run_events_reachable, reachable_init. Qed.

(** One task that waits on the finished promise 0 and then returns 3. *)
Definition awaiting_finished : list (nat * @event (nat * list yielded)) :=
  [(1, EvNew); (1, EvFinish 0 (PyInt 1));
   (3, EvCall (0, [NotFinished; YInProgress 0; YValue (PyInt 3)]))].


(** One task whose generator yields [NotFinished] twice. *)
Definition two_hops : list (nat * @event (nat * list yielded)) :=
  [(3, EvCall (0, [NotFinished; NotFinished; YValue (PyInt 3)]))].

(** The advance gives [NotFinished] and [_step] returns [True] to the
    timer at once: the generator is left suspended with the rest of its
    script, it has not been advanced a second time. *)
Lemma step_returns_at_continue_now :
  exists σ σ',
    play None two_hops = Some σ /\
    _step script_resume 5 0 σ = Some (Ret true, σ') /\
    advances σ' = advances σ ++ [(0, DContinueNow)] /\
    coroutine_of σ' 0 = Some (GenSuspended [YValue (PyInt 3)]).
Proof.
  eexists _, _. split; [vm_compute; reflexivity|].
  split; [vm_compute; reflexivity|].
  split; vm_compute; reflexivity.
Defined.

(** A pending task somebody listens to. *)
Definition observed_task : list (nat * @event (nat * list yielded)) :=
  [(3, EvCall (0, [NotFinished; YValue (PyInt 3)])); (1, EvConnect 0 7)].



(** Two calls for key 0 whose tasks stay pending. *)
Definition two_calls : list (nat * @event (nat * list yielded)) :=
  [(3, EvCall (0, [NotFinished])); (3, EvCall (0, [NotFinished]))].

Lemma last_tracks_unfinished_witness :
  exists σ,
    play (Some POLICY_PASS_LAST) two_calls = Some σ /\
    tracks_last (Some POLICY_PASS_LAST) = true /\
    last_of 0 σ = [0; 1] /\
    forall k, last_of k σ = filter (unfinished σ) (issued_for k σ).
Proof.
  eexists. split; [vm_compute; reflexivity|].
  split; [reflexivity|]. split; [vm_compute; reflexivity|].
  apply (last_tracks_unfinished script_resume script_key script_func
           (Some POLICY_PASS_LAST) 0 false).
  - reflexivity.
  - apply (play_reachable _ two_calls). vm_compute. reflexivity.
Defined.

(** Under the Synchronized policy the task handed out for key 0 is
    pending and the [last] list of the key is empty. *)
Lemma synchronized_keeps_no_last :
  exists σ,
    play (Some POLICY_SYNCHRONIZED) two_hops = Some σ /\
    issued_for 0 σ = [0] /\ finished (obj σ 0) = false /\
    last_of 0 σ = [].
Proof.
  eexists. split; [vm_compute; reflexivity|].
  split_and!; vm_compute; reflexivity.
Defined.



(** Promise 0 has failed with nobody listening, so it carries the
    unhandled marker; task 1 is suspended. *)
Definition failed_unobserved : list (nat * @event (nat * list yielded)) :=
  [(1, EvNew); (1, EvThrow 0 (UserError 1));
   (3, EvCall (0, [NotFinished; YValue (PyInt 3)]))].



(** * Closed instances, continued *)

Lemma stop_is_idempotent_witness :
  exists σ σ',
    play None two_hops = Some σ /\
    stop script_resume 2 0 σ = Some (Ret tt, σ') /\
    closes σ = [] /\ closes σ' = [0] /\
    forall fuel', stop script_resume fuel' 0 σ' = Some (Ret tt, σ').
Proof.
  eexists _, _. split; [vm_compute; reflexivity|].
  match goal with |- stop _ _ _ ?s = _ /\ _ => set (σ0 := s) end.
  split; [vm_compute; reflexivity|].
  split; [reflexivity|]. split; [reflexivity|].
  apply (stop_is_idempotent script_resume 2 0 σ0).
  vm_compute. reflexivity.
Defined.

Lemma throw_closes_then_fails_witness :
  exists σ σ',
    play None observed_task = Some σ /\
    throw script_resume 2 0 (UserError 5) σ = Some (Ret tt, σ') /\
    notices σ' = [(7, 0, NoticeError (UserError 5))] /\
    finished (obj σ' 0) = true /\ _exception (obj σ' 0) = Some (UserError 5) /\
    dead σ' 0 /\ (0 ∉ _active_coroutines σ') /\ advances σ' = advances σ.
Proof.
  eexists _, _. split; [vm_compute; reflexivity|].
  match goal with |- throw _ _ _ _ ?s = _ /\ _ => set (σ0 := s) end.
  split; [vm_compute; reflexivity|].
  match goal with |- notices ?s = _ /\ _ => set (σ1 := s) end.
  split; [vm_compute; reflexivity|].
  destruct (throw_closes_then_fails script_resume script_key script_func None
              0 false 2 0 (UserError 5) σ0 σ1)
    as (σm & _ & _ & F & E & _ & D & A & _ & Hadv & _).
  { vm_compute. reflexivity. }
  split_and!; [exact F|exact E|exact D|exact A|exact Hadv].
Defined.

Lemma step_done_finishes_witness :
  exists σ σ',
    play None awaiting_finished = Some σ /\
    _step script_resume 5 1 σ = Some (Ret false, σ') /\
    advances σ' = advances σ ++
      map (pair 1) ([DAwait 0 true] ++ [DDone (PyInt 3)]) /\
    finished (obj σ' 1) = true /\ _result (obj σ' 1) = PyInt 3 /\
    _exception (obj σ' 1) = None /\
    dead σ' 1 /\ (1 ∉ _active_coroutines σ').
Proof.
  eexists _, _. split; [vm_compute; reflexivity|].
  match goal with |- _step _ _ _ ?s = _ /\ _ => set (σ0 := s) end.
  split; [vm_compute; reflexivity|].
  match goal with |- advances ?s = _ /\ _ => set (σ1 := s) end.
  split; [vm_compute; reflexivity|].
  apply (step_done_finishes script_resume 5 1 σ0 σ1 [DAwait 0 true] (PyInt 3));
    vm_compute; reflexivity.
Defined.

(** Task 1 waits for promise 0, which then fails. *)
Definition failed_await : list (nat * @event (nat * list yielded)) :=
  [(1, EvNew); (3, EvCall (0, [YInProgress 0; NotFinished]));
   (1, EvThrow 0 (UserError 1))].

Lemma step_raised_fails_witness :
  exists σ σ',
    play None failed_await = Some σ /\
    _step script_resume 5 1 σ = Some (Ret false, σ') /\
    advances σ' = advances σ ++
      map (pair 1) ([] ++ [DRaised (UserError 1)]) /\
    finished (obj σ' 1) = true /\ _exception (obj σ' 1) = Some (UserError 1) /\
    dead σ' 1 /\ (1 ∉ _active_coroutines σ').
Proof.
  eexists _, _. split; [vm_compute; reflexivity|].
  match goal with |- _step _ _ _ ?s = _ /\ _ => set (σ0 := s) end.
  split; [vm_compute; reflexivity|].
  match goal with |- advances ?s = _ /\ _ => set (σ1 := s) end.
  split; [vm_compute; reflexivity|].
  destruct (step_raised_fails script_resume 5 1 σ0 (Ret false) σ1 []
              (UserError 1)) as (Hret & _ & _).
  { vm_compute. reflexivity. }
  { vm_compute. reflexivity. }
  destruct (Hret eq_refl) as (_ & F & E & D & A).
  split_and!; [exact F|exact E|exact D|exact A].
Defined.

(** Task 1 is about to yield the pending promise 0. *)
Definition before_await : list (nat * @event (nat * list yielded)) :=
  [(1, EvNew); (3, EvCall (0, [NotFinished; YInProgress 0; NotFinished]))].

Lemma step_await_connects_witness :
  exists σ σ',
    play None before_await = Some σ /\
    _step script_resume 5 1 σ = Some (Ret false, σ') /\
    advances σ' = advances σ ++ map (pair 1) ([] ++ [DAwait 0 false]) /\
    prerequisite_of σ' 1 = Some 0 /\ finished (obj σ' 0) = false /\
    ObsContinue 1 ∈ sig_finished (obj σ' 0) /\
    ObsContinue 1 ∈ sig_exception (obj σ' 0).
Proof.
  eexists _, _. split; [vm_compute; reflexivity|].
  match goal with |- _step _ _ _ ?s = _ /\ _ => set (σ0 := s) end.
  split; [vm_compute; reflexivity|].
  match goal with |- advances ?s = _ /\ _ => set (σ1 := s) end.
  split; [vm_compute; reflexivity|].
  destruct (step_await_connects script_resume 5 1 σ0 (Ret false) σ1 [] 0 false)
    as (_ & _ & P & F & SF & SE).
  { vm_compute. reflexivity. }
  { vm_compute. reflexivity. }
  split_and!; [exact P|exact F|exact SF|exact SE].
Defined.





(** One call of a Synchronized function, whose task holds the lock. *)
Definition lock_taken : list (nat * @event (nat * list yielded)) :=
  [(3, EvCall (0, [NotFinished]))].

Lemma locked_call_waits_witness :
  exists σ,
    play (Some POLICY_SYNCHRONIZED) lock_taken = Some σ /\
    func_lock σ = Some 0 /\ finished (obj σ 0) = false /\
    exists t σ',
      newfunc script_resume script_key script_func (Some POLICY_SYNCHRONIZED)
        0 false 0 (0, [NotFinished]) σ = Some (Ret t, σ') /\
      (t ∉ dom (heap σ)) /\
      advances σ' = advances σ /\ func_lock σ' = Some 0 /\
      coroutine_of σ' t = Some (GenFresh [NotFinished]) /\
      timer_of σ' t = Some (Timer false 0) /\
      finished (obj σ' t) = false /\
      (t ∈ _active_coroutines σ') /\
      sig_finished (obj σ' 0) = sig_finished (obj σ 0) ++ [ObsTryAgain t] /\
      sig_exception (obj σ' 0) = sig_exception (obj σ 0) ++ [ObsTryAgain t] /\
      issued σ' = issued σ ++ [(script_key (0, [NotFinished]), t)].
Proof.
  eexists. split; [vm_compute; reflexivity|].
  split; [reflexivity|]. split; [vm_compute; reflexivity|].
  apply (locked_call_waits script_resume script_key script_func
           (Some POLICY_SYNCHRONIZED) 0 false 0 (0, [NotFinished])).
  - reflexivity.
  - reflexivity.
  - reflexivity.
  - vm_compute. eexists. reflexivity.
  - vm_compute. reflexivity.
Defined.

(** Three calls of a Synchronized function: task 0 holds the lock, tasks
    1 and 2 wait. *)
Definition two_waiting : list (nat * @event (nat * list yielded)) :=
  [(3, EvCall (0, [NotFinished])); (0, EvCall (0, [NotFinished]));
   (0, EvCall (0, [NotFinished]))].


(** The same with task 1 stopped while it waits: nobody observes it, so
    its promise stays pending; when the holder finishes, task 1 takes
    the lock although it has neither generator nor timer. *)
Definition stopped_waiting : list (nat * @event (nat * list yielded)) :=
  two_waiting ++ [(1, EvStop 1)].

Lemma stopped_waiter_takes_lock :
  exists σ σ',
    play (Some POLICY_SYNCHRONIZED) stopped_waiting = Some σ /\
    func_lock σ = Some 0 /\ finished (obj σ 1) = false /\
    timer_of σ 1 = None /\
    ip_finish 0 PyNone σ = Some (Ret tt, σ') /\
    func_lock σ' = Some 1 /\ timer_of σ' 1 = None /\
    coroutine_of σ' 1 = None /\ finished (obj σ' 1) = false.
Proof.
  eexists _, _. split; [vm_compute; reflexivity|].
  split; [reflexivity|]. split; [vm_compute; reflexivity|].
  split; [vm_compute; reflexivity|]. split; [vm_compute; reflexivity|].
  split_and!; vm_compute; reflexivity.
Defined.




(** One call of a Synchronized function whose task finishes during the
    call: the lock is left with a finished task. *)
Definition lock_released : list (nat * @event (nat * list yielded)) :=
  [(3, EvCall (0, [YValue (PyInt 1)]))].

Lemma call_steps_eagerly_witness :
  exists σ σ',
    play (Some POLICY_SYNCHRONIZED) lock_released = Some σ /\
    func_lock σ = Some 0 /\
    newfunc script_resume script_key script_func (Some POLICY_SYNCHRONIZED)
      0 false 3 (0, [NotFinished]) σ = Some (Ret 1, σ') /\
    (1 ∉ dom (heap σ)) /\
    exists ds d,
      advances σ' = advances σ ++ map (pair 1) (ds ++ [d]) /\
      (d = DContinueNow -> timer_of σ' 1 = Some (Timer true 0)).
Proof.
  eexists _, _. split; [vm_compute; reflexivity|].
  split; [reflexivity|]. split; [vm_compute; reflexivity|].
  match goal with |- _ ∉ dom (heap ?s) /\ _ => set (σ0 := s) end.
  match goal with
  | |- _ /\ (exists ds d, advances ?s = _ /\ _) => set (σ1 := s)
  end.
  apply (call_steps_eagerly script_resume script_key script_func
           (Some POLICY_SYNCHRONIZED) 0 false 3 (0, [NotFinished]) σ0 1 σ1).
  - split; [intros [=]|]. intros _ l [= <-]. vm_compute. reflexivity.
  - vm_compute. reflexivity.
Defined.


(** * Closed instances for the runs that come back *)

(** [_step] on a task about to await a finished promise: it awaits,
    goes round the loop and ends at the yielded value, with any fuel
    above two. *)
Lemma step_inline_loop_witness :
  exists σ,
    play None awaiting_finished = Some σ /\
    poised σ 1 [YInProgress 0; YValue (PyInt 3)] /\
    inline script_resume 1 σ [YInProgress 0; YValue (PyInt 3)]
      (feed σ (prerequisite_of σ 1))
      = Some ([0], GYield (YValue (PyInt 3)) []) /\
    exists r σ',
      _step script_resume 3 1 σ = Some (r, σ') /\
      advances σ' = advances σ ++ [(1, DAwait 0 true); (1, DDone (PyInt 3))] /\
      r <> Ret true.
Proof.
  eexists. split; [vm_compute; reflexivity|].
  match goal with |- poised ?s _ _ /\ _ => set (σ0 := s) end.
  assert (poised σ0 1 [YInProgress 0; YValue (PyInt 3)]) as Hp
    by (left; vm_compute; reflexivity).
  split; [exact Hp|].
  assert (inline script_resume 1 σ0 [YInProgress 0; YValue (PyInt 3)]
            (feed σ0 (prerequisite_of σ0 1))
          = Some ([0], GYield (YValue (PyInt 3)) [])) as Hinl
    by (vm_compute; reflexivity).
  split; [exact Hinl|].
  destruct (proj1 (step_inline_loop script_resume 1 σ0) 1
              [YInProgress 0; YValue (PyInt 3)] [0]
              (GYield (YValue (PyInt 3)) []) 3 Hp Hinl)
    as (r & σ' & Hs & Hadv & Hend).
  - intros [].
  - simpl. lia.
  - exists r, σ'. split; [exact Hs|]. split; [exact Hadv|exact Hend].
Defined.



Lemma singleton_returns_live_task_witness :
  exists σ,
    play (Some POLICY_SINGLETON) two_hops = Some σ /\
    py_last (filter (unfinished σ) (issued_for 0 σ)) = Some 0 /\
    forall fuel,
      newfunc script_resume script_key script_func (Some POLICY_SINGLETON)
        0 false fuel (0, [YValue (PyInt 1)]) σ = Some (Ret 0, σ).
Proof.
  eexists. split; [vm_compute; reflexivity|].
  match goal with |- py_last (filter (unfinished ?s) _) = _ /\ _ =>
    set (σ0 := s) end.
  assert (py_last (filter (unfinished σ0) (issued_for 0 σ0)) = Some 0) as Hl
    by (vm_compute; reflexivity).
  split; [exact Hl|].
  apply (singleton_returns_live_task script_resume script_key script_func
           (Some POLICY_SINGLETON) 0 false (0, [YValue (PyInt 1)]) 0 σ0).
  - reflexivity.
  - apply (play_reachable _ two_hops). vm_compute. reflexivity.
  - exact Hl.
Defined.

(** A task whose promise the application finishes by hand while the
    task waits for its timer. *)
Definition finished_by_hand : list (nat * @event (nat * list yielded)) :=
  [(3, EvCall (0, [NotFinished; NotFinished])); (1, EvFinish 0 (PyInt 7))].

(** Under the Singleton policy the task is still in
    [_active_coroutines], with its generator suspended and its timer
    running, and yet the next call for the key calls [func] and makes a
    new task. *)
Lemma singleton_skips_settled_task :
  exists σ σ',
    play (Some POLICY_SINGLETON) finished_by_hand = Some σ /\
    elements (_active_coroutines σ) = [0] /\
    coroutine_of σ 0 = Some (GenSuspended [NotFinished]) /\
    timer_of σ 0 = Some (Timer true 0) /\
    issued_for 0 σ = [0] /\
    newfunc script_resume script_key script_func (Some POLICY_SINGLETON)
      0 false 3 (0, [NotFinished]) σ = Some (Ret 1, σ') /\
    calls σ' = calls σ ++ [(0, None)] /\
    coroutine_of σ' 1 = Some (GenSuspended []) /\
    issued_for 0 σ' = [0; 1].
Proof.
  eexists _, _. split; [vm_compute; reflexivity|].
  split; [vm_compute; reflexivity|]. split; [vm_compute; reflexivity|].
  split; [vm_compute; reflexivity|]. split; [vm_compute; reflexivity|].
  split; [vm_compute; reflexivity|].
  split_and!; vm_compute; reflexivity.
Defined.

Lemma pass_last_sees_latest_witness :
  exists σ,
    play (Some POLICY_PASS_LAST) two_hops = Some σ /\
    py_last (filter (unfinished σ) (issued_for 0 σ)) = Some 0 /\
    inline script_resume 0 σ [NotFinished] RNext
      = Some ([], GYield NotFinished []) /\
    exists r σ',
      newfunc script_resume script_key script_func (Some POLICY_PASS_LAST)
        0 false 2 (0, [NotFinished]) σ = Some (r, σ') /\
      calls σ' = calls σ ++ [(0, Some (Some 0))].
Proof.
  eexists. split; [vm_compute; reflexivity|].
  match goal with |- py_last (filter (unfinished ?s) _) = _ /\ _ =>
    set (σ0 := s) end.
  assert (py_last (filter (unfinished σ0) (issued_for 0 σ0)) = Some 0) as Hl
    by (vm_compute; reflexivity).
  split; [exact Hl|].
  assert (inline script_resume 0 σ0 [NotFinished] RNext
          = Some ([], GYield NotFinished [])) as Hinl
    by (vm_compute; reflexivity).
  split; [exact Hinl|].
  assert (reachable script_resume script_key script_func
            (Some POLICY_PASS_LAST) 0 false σ0) as Hreach.
  { apply (play_reachable _ two_hops). vm_compute. reflexivity. }
  destruct (proj1 (pass_last_sees_latest script_resume script_key script_func
                     (Some POLICY_PASS_LAST) 0 false (0, [NotFinished]) σ0
                     eq_refl Hreach)
              0 [NotFinished] [] (GYield NotFinished []) 2)
    as (r & σ' & Hs & Hc).
  - reflexivity.
  - exact Hinl.
  - intros [].
  - simpl. lia.
  - exists r, σ'. split; [exact Hs|].
    change (script_key (0, [NotFinished])) with 0 in Hc.
    rewrite Hl in Hc. exact Hc.
Defined.

(** Under the PassLast policy the task finished by hand, the one made
    last and still in [_active_coroutines] with its timer running, is
    not what the next call receives: [last] is [None]. *)
Lemma pass_last_skips_settled_task :
  exists σ σ',
    play (Some POLICY_PASS_LAST) finished_by_hand = Some σ /\
    elements (_active_coroutines σ) = [0] /\
    coroutine_of σ 0 = Some (GenSuspended [NotFinished]) /\
    timer_of σ 0 = Some (Timer true 0) /\
    issued_for 0 σ = [0] /\
    newfunc script_resume script_key script_func (Some POLICY_PASS_LAST)
      0 false 3 (0, [NotFinished]) σ = Some (Ret 1, σ') /\
    calls σ' = calls σ ++ [(0, Some None)].
Proof.
  eexists _, _. split; [vm_compute; reflexivity|].
  split; [vm_compute; reflexivity|]. split; [vm_compute; reflexivity|].
  split; [vm_compute; reflexivity|]. split; [vm_compute; reflexivity|].
  split; vm_compute; reflexivity.
Defined.

(** Promise 0 has failed with nobody listening, so it carries the
    unhandled marker; task 1 is suspended and about to await it. *)
Definition about_to_await_failed : list (nat * @event (nat * list yielded)) :=
  [(1, EvNew); (1, EvThrow 0 (UserError 1));
   (3, EvCall (0, [NotFinished; YInProgress 0; YValue (PyInt 3)]))].

Lemma failed_prerequisite_is_handled_witness :
  exists σ,
    play None about_to_await_failed = Some σ /\
    _unhandled_exception (obj σ 0) = Some (UserError 1) /\
    inline script_resume 1 σ [YInProgress 0; YValue (PyInt 3)]
      (feed σ (prerequisite_of σ 1))
      = Some ([0], GRaise (UserError 1)) /\
    exists r σ',
      _step script_resume 3 1 σ = Some (r, σ') /\
      advances σ' = advances σ ++
        [(1, DAwait 0 true); (1, DRaised (UserError 1))] /\
      _unhandled_exception (obj σ' 0) = None /\
      forall σ2,
        rtc (step script_resume script_key script_func None 0 false) σ' σ2 ->
        ~ reports_unhandled σ2 0.
Proof.
  eexists. split; [vm_compute; reflexivity|].
  match goal with |- _unhandled_exception (obj ?s _) = _ /\ _ =>
    set (σ0 := s) end.
  split; [vm_compute; reflexivity|].
  assert (inline script_resume 1 σ0 [YInProgress 0; YValue (PyInt 3)]
            (feed σ0 (prerequisite_of σ0 1))
          = Some ([0], GRaise (UserError 1))) as Hinl
    by (vm_compute; reflexivity).
  split; [exact Hinl|].
  destruct (failed_prerequisite_is_handled script_resume script_key
              script_func None 0 false 1 1
              [YInProgress 0; YValue (PyInt 3)] [0] (GRaise (UserError 1))
              3 σ0)
    as (_ & r & σ' & Hs & Hadv & Hall).
  - left. vm_compute. reflexivity.
  - exact Hinl.
  - intros _ q Hq. vm_compute in Hq. injection Hq as <-.
    vm_compute. reflexivity.
  - simpl. lia.
  - exists r, σ'. split; [exact Hs|]. split; [exact Hadv|].
    destruct (Hall 0 (UserError 1)) as (_ & _ & Hu & Hstay).
    + vm_compute. apply list_elem_of_here.
    + vm_compute. reflexivity.
    + vm_compute. reflexivity.
    + split; [exact Hu|exact Hstay].
Defined.

End Coroutine.

Module Thread.

(** ** Data model of thread.py *)

(** What calling a Python callable comes to. *)
Inductive outcome : Type :=
| Returns (v : pyval)
| Raises (e : pyexc).

(** *** The main-thread wake queue *)

(** A queued tuple [(callback, args, kwargs, in_progress)]; the arguments
    are folded into the callback. *)
Record entry : Type := Entry {
  e_callback : nat;
  e_in_progress : nat
}.

(** The module globals of the notifier.  Every queued entry carries the
    number of enqueues completed before its own, and [executed] records
    the entries in the order they were called: both are bookkeeping for
    the proofs and are read by no operation.  [settled] is the state of
    the InProgress objects the entries refer to: the terminal ones with
    their outcome, in the order they were settled; a promise that is not
    listed is pending. *)
Record notifier : Type := Notifier {
  _thread_notifier_queue : list (nat * entry);
  _thread_notifier_pipe : bool;
  pipe_bytes : nat;
  enqueues : nat;
  executed : list (nat * entry);
  settled : list (nat * outcome)
}.

Definition set_queue (q : list (nat * entry)) (σ : notifier) : notifier :=
  {| _thread_notifier_queue := q;
     _thread_notifier_pipe := _thread_notifier_pipe σ;
     pipe_bytes := pipe_bytes σ; enqueues := enqueues σ;
     executed := executed σ; settled := settled σ |}.

Definition set_pipe (open : bool) (bytes : nat) (σ : notifier) : notifier :=
  {| _thread_notifier_queue := _thread_notifier_queue σ;
     _thread_notifier_pipe := open;
     pipe_bytes := bytes; enqueues := enqueues σ;
     executed := executed σ; settled := settled σ |}.

(** [_thread_notifier_queue_callback]: under the lock, append and wake the
    main loop when the queue was empty. *)
Definition _thread_notifier_queue_callback (x : entry) (σ : notifier) : notifier :=
  let q := _thread_notifier_queue σ ++ [(enqueues σ, x)] in
  {| _thread_notifier_queue := q;
     _thread_notifier_pipe := _thread_notifier_pipe σ;
     pipe_bytes :=
       if bool_decide (length q = 1) && _thread_notifier_pipe σ
       then S (pipe_bytes σ) else pipe_bytes σ;
     enqueues := S (enqueues σ);
     executed := executed σ; settled := settled σ |}.

(** Whether promise [p] is terminal: it has been given an outcome. *)
Definition is_finished (p : nat) (σ : notifier) : bool :=
  bool_decide (p ∈ (settled σ).*1).

(** Modelled from the spec: [in_progress.finish(result)] and
    [in_progress.throw(...)] of async.py (not in src), section 4.1: a
    pending promise takes the outcome; a terminal one keeps what it has
    and the call fails with AlreadySet, which stands as [RuntimeError]
    here as it does in the engine. *)
Definition settle (p : nat) (o : outcome) (σ : notifier)
  : res unit * notifier :=
  if is_finished p σ then (Exc RuntimeError, σ)
  else
    (Ret tt,
     {| _thread_notifier_queue := _thread_notifier_queue σ;
        _thread_notifier_pipe := _thread_notifier_pipe σ;
        pipe_bytes := pipe_bytes σ; enqueues := enqueues σ;
        executed := executed σ;
        settled := settled σ ++ [(p, o)] |}).

Definition log_executed (x : nat * entry) (σ : notifier) : notifier :=
  {| _thread_notifier_queue := _thread_notifier_queue σ;
     _thread_notifier_pipe := _thread_notifier_pipe σ;
     pipe_bytes := pipe_bytes σ; enqueues := enqueues σ;
     executed := executed σ ++ [x];
     settled := settled σ |}.

Section Notifier.

(** What calling a queued callback does: its outcome, and the entries the
    call itself puts on the queue while it runs (the lock is an [RLock],
    so the draining thread may enqueue). *)
Context (callback_run : nat -> outcome * list entry).

(** The body of the drain loop for the entry just popped:
    [try: in_progress.finish(callback(...))], and in the handler of
    [except BaseException, e] the call [in_progress.throw(...)] followed
    by the re-raise of KeyboardInterrupt and SystemExit.  The handler
    sees what the callback raised as well as what [finish] raised, and
    an exception of [throw] itself leaves the handler at once. *)
Definition call_entry (x : nat * entry) (σ : notifier) : res unit * notifier :=
  let run := callback_run (e_callback x.2) in
  let σ1 := foldl (fun s y => _thread_notifier_queue_callback y s)
                  (log_executed x σ) run.2 in
  let attempt :=
    match run.1 with
    | Returns v => settle (e_in_progress x.2) (Returns v) σ1
    | Raises e => (Exc e, σ1)
    end in
  match attempt with
  | (Ret _, σ2) => (Ret tt, σ2)
  | (Exc e, σ2) =>
      match settle (e_in_progress x.2) (Raises e) σ2 with
      | (Ret _, σ3) => if is_host_fatal e then (Exc e, σ3) else (Ret tt, σ3)
      | (Exc e', σ3) => (Exc e', σ3)
      end
  end.

(** The [while _thread_notifier_queue] loop of
    [_thread_notifier_run_queue], with the lock held; an exception that
    leaves the body leaves the loop, with the rest still queued. *)
Fixpoint drain (fuel : nat) (σ : notifier) : option (res unit * notifier) :=
  match fuel with
  | 0 => None
  | S fuel' =>
      match _thread_notifier_queue σ with
      | [] => Some (Ret tt, σ)
      | x :: q =>
          match call_entry x (set_queue q σ) with
          | (Ret _, σ') => drain fuel' σ'
          | (Exc e, σ') => Some (Exc e, σ')
          end
      end
  end.

(** [_thread_notifier_run_queue(fd)]: empty the pipe, drain, return True. *)
Definition _thread_notifier_run_queue (fuel : nat) (σ : notifier)
  : option (res bool * notifier) :=
  match drain fuel (set_pipe (_thread_notifier_pipe σ) 0 σ) with
  | Some (Ret _, σ') => Some (Ret true, σ')
  | Some (Exc e, σ') => Some (Exc e, σ')
  | None => None
  end.

(** [create_thread_notifier_pipe(new, purge)] *)
Definition create_thread_notifier_pipe (new purge : bool) (σ : notifier)
  : notifier :=
  if negb (_thread_notifier_pipe σ) && negb new then σ
  else
    let σ1 := if purge then set_queue [] σ else σ in
    set_pipe true (if bool_decide (_thread_notifier_queue σ1 = []) then 0 else 1) σ1.

Inductive notifier_event : Type :=
| NEnqueue (x : entry)                    (* a thread queues a callback *)
| NRunQueue (fuel : nat)                  (* the main loop reads the pipe *)
| NCreatePipe (new purge : bool)
| NSettle (p : nat) (o : outcome).        (* a holder of promise p settles it *)

Definition notifier_step (ev : notifier_event) (σ : notifier) : option notifier :=
  match ev with
  | NEnqueue x => Some (_thread_notifier_queue_callback x σ)
  | NRunQueue fuel => snd <$> _thread_notifier_run_queue fuel σ
  | NCreatePipe new purge => Some (create_thread_notifier_pipe new purge σ)
  | NSettle p o => Some (settle p o σ).2
  end.

Definition notifier_init : notifier :=
  {| _thread_notifier_queue := []; _thread_notifier_pipe := false;
     pipe_bytes := 0; enqueues := 0; executed := []; settled := [] |}.

Fixpoint notifier_run (evs : list notifier_event) (σ : notifier)
  : option notifier :=
  match evs with
  | [] => Some σ
  | ev :: evs' => σ' ← notifier_step ev σ; notifier_run evs' σ'
  end.

Inductive notifier_reachable : notifier -> Prop :=
| nreach_init : notifier_reachable notifier_init
| nreach_step ev σ σ' :
    notifier_reachable σ -> notifier_step ev σ = Some σ' ->
    notifier_reachable σ'.

(** ** FIFO order of the wake queue *)

(** Everything called or waiting, in that order. *)
Definition handled (σ : notifier) : list nat :=
  (executed σ ++ _thread_notifier_queue σ).*1.

Definition in_order (σ : notifier) : Prop :=
  StronglySorted lt (handled σ) /\ Forall (fun n => n < enqueues σ) (handled σ).

(** Settling a promise touches neither the queue nor the pipe. *)
Definition same_queues (σ σ' : notifier) : Prop :=
  _thread_notifier_queue σ' = _thread_notifier_queue σ /\
  _thread_notifier_pipe σ' = _thread_notifier_pipe σ /\
  pipe_bytes σ' = pipe_bytes σ /\ enqueues σ' = enqueues σ /\
  executed σ' = executed σ.

Lemma same_queues_refl σ : same_queues σ σ.
Proof. by repeat split. Qed.

Lemma same_queues_trans σ1 σ2 σ3 :
  same_queues σ1 σ2 -> same_queues σ2 σ3 -> same_queues σ1 σ3.
Proof.
  intros (?&?&?&?&?) (?&?&?&?&?). repeat split; congruence.
Qed.

Lemma settle_same_queues p o σ : same_queues σ (settle p o σ).2.
Proof. unfold settle. destruct (is_finished p σ); by repeat split. Qed.

Lemma call_entry_same_queues x σ :
  same_queues
    (foldl (fun s y => _thread_notifier_queue_callback y s)
       (log_executed x σ) (callback_run (e_callback x.2)).2)
    (call_entry x σ).2.
Proof.
  unfold call_entry.
  set (σ1 := foldl _ _ _).
  destruct (callback_run (e_callback x.2)).1 as [v|e].
  - pose proof (settle_same_queues (e_in_progress x.2) (Returns v) σ1) as H1.
    destruct (settle (e_in_progress x.2) (Returns v) σ1) as [[[]|e] σ2];
      simpl in H1; [done|].
    pose proof (settle_same_queues (e_in_progress x.2) (Raises e) σ2) as H2.
    destruct (settle (e_in_progress x.2) (Raises e) σ2) as [[[]|e'] σ3];
      simpl in H2.
    + destruct (is_host_fatal e); by eapply same_queues_trans.
    + by eapply same_queues_trans.
  - pose proof (settle_same_queues (e_in_progress x.2) (Raises e) σ1) as H2.
    destruct (settle (e_in_progress x.2) (Raises e) σ1) as [[[]|e'] σ3];
      simpl in H2; [by destruct (is_host_fatal e)|done].
Qed.

Lemma in_order_same σ σ' : same_queues σ σ' -> in_order σ -> in_order σ'.
Proof.
  intros (Hq & _ & _ & Hn & He). unfold in_order, handled.
  by rewrite Hq, Hn, He.
Qed.

Lemma sorted_snoc (l : list nat) n :
  StronglySorted lt l -> Forall (fun m => m < n) l -> StronglySorted lt (l ++ [n]).
Proof.
  induction 1 as [|x l Hs IH Hx]; intros Hn; simpl.
  - repeat constructor.
  - apply Forall_cons in Hn as [Hxn Hn]. constructor; [by apply IH|].
    apply Forall_app. split; [done|]. by repeat constructor.
Qed.

Lemma sorted_prefix (l k : list nat) :
  StronglySorted lt (l ++ k) -> StronglySorted lt l.
Proof.
  induction l as [|x l IH]; simpl; [constructor|].
  intros H. apply StronglySorted_inv in H as [Hs Hx].
  constructor; [by apply IH|]. by apply Forall_app in Hx as [? _].
Qed.

Lemma sorted_lookup (l : list nat) i j a b :
  StronglySorted lt l -> l !! i = Some a -> l !! j = Some b -> i < j -> a < b.
Proof.
  intros Hs. revert i j. induction Hs as [|x l Hs IH Hx]; intros i j Hi Hj Hij.
  - done.
  - destruct j as [|j]; [lia|]. destruct i as [|i]; simpl in *.
    + simplify_eq. rewrite Forall_forall in Hx. apply Hx.
      by eapply list_elem_of_lookup_2.
    + apply (IH i j); [done..|lia].
Qed.

Lemma enqueue_in_order x σ :
  in_order σ -> in_order (_thread_notifier_queue_callback x σ).
Proof.
  intros [Hs Hb]. unfold in_order, handled in *. simpl.
  rewrite app_assoc, fmap_app. simpl. split.
  - by apply sorted_snoc.
  - apply Forall_app. split.
    + eapply Forall_impl; [exact Hb|]. simpl. lia.
    + repeat constructor.
Qed.

Lemma enqueue_all_in_order xs σ :
  in_order σ ->
  in_order (foldl (fun s y => _thread_notifier_queue_callback y s) σ xs).
Proof.
  revert σ. induction xs as [|x xs IH]; intros σ H; simpl; [done|].
  by apply IH, enqueue_in_order.
Qed.

Lemma enqueue_all_queue xs σ :
  let σ' := foldl (fun s y => _thread_notifier_queue_callback y s) σ xs in
  executed σ' = executed σ /\
  exists new, _thread_notifier_queue σ' = _thread_notifier_queue σ ++ new /\
              new.*2 = xs.
Proof.
  revert σ. induction xs as [|x xs IH]; intros σ; simpl.
  - split; [done|]. exists []. by rewrite app_nil_r.
  - destruct (IH (_thread_notifier_queue_callback x σ)) as (He & new & Hq & Hn).
    split; [by rewrite He|].
    exists ((enqueues σ, x) :: new). simpl in Hq. rewrite Hq, <-app_assoc.
    split; [done|]. by rewrite fmap_cons, Hn.
Qed.

(** Calling an entry logs it as called and appends what its callback
    queued, whether the call comes back or raises. *)
Lemma call_entry_queue x σ :
  executed (call_entry x σ).2 = executed σ ++ [x] /\
  exists new,
    _thread_notifier_queue (call_entry x σ).2 = _thread_notifier_queue σ ++ new /\
    new.*2 = (callback_run (e_callback x.2)).2.
Proof.
  destruct (call_entry_same_queues x σ) as (Hq & _ & _ & _ & He).
  destruct (enqueue_all_queue (callback_run (e_callback x.2)).2
              (log_executed x σ)) as (He1 & new & Hq1 & Hn).
  rewrite He, Hq. split; [by rewrite He1|]. by exists new.
Qed.

Lemma call_entry_in_order x q σ :
  _thread_notifier_queue σ = x :: q ->
  in_order σ -> in_order (call_entry x (set_queue q σ)).2.
Proof.
  intros Hq Hin. eapply in_order_same; [apply call_entry_same_queues|].
  apply enqueue_all_in_order.
  unfold in_order, handled in *. simpl. rewrite Hq in Hin.
  by rewrite <-app_assoc.
Qed.

Lemma drain_in_order fuel σ r σ' :
  drain fuel σ = Some (r, σ') -> in_order σ -> in_order σ'.
Proof.
  revert σ. induction fuel as [|fuel IH]; intros σ H Hin; simpl in H; [done|].
  destruct (_thread_notifier_queue σ) as [|x q] eqn:Hq; [by simplify_eq|].
  pose proof (call_entry_in_order x q σ Hq Hin) as H3.
  destruct (call_entry x (set_queue q σ)) as [[[]|e] σ3]; simpl in H3.
  - by eapply IH.
  - by simplify_eq.
Qed.

(** One drain calls a prefix of what was queued when it started followed
    by what was queued while it ran, in queue order, and leaves the rest
    queued; when it returns normally nothing is left. *)
Lemma drain_runs_queue_order fuel σ r σ' :
  drain fuel σ = Some (r, σ') ->
  exists ran new,
    executed σ' = executed σ ++ ran /\
    ran ++ _thread_notifier_queue σ' = _thread_notifier_queue σ ++ new /\
    (r = Ret tt -> _thread_notifier_queue σ' = []).
Proof.
  revert σ r σ'.
  induction fuel as [|fuel IH]; intros σ r σ' H; simpl in H; [done|].
  destruct (_thread_notifier_queue σ) as [|x q] eqn:Hq.
  { simplify_eq. exists [], []. by rewrite !app_nil_r, Hq. }
  destruct (call_entry_queue x (set_queue q σ)) as (He3 & new & Hq3 & _).
  simpl in He3, Hq3.
  destruct (call_entry x (set_queue q σ)) as [[[]|e] σ3]; simpl in He3, Hq3.
  - apply IH in H as (ran & new0 & E1 & E2 & E3).
    exists (x :: ran), (new ++ new0). rewrite E1, He3, <-app_assoc.
    split; [done|]. split; [|done]. simpl. rewrite E2, Hq3.
    by rewrite <-app_assoc.
  - simplify_eq. exists [x], new. rewrite He3, Hq3. done.
Qed.

(** When no callback queues anything itself, a drain with one unit of
    fuel per queued entry, and one more, comes back. *)
Lemma drain_total σ :
  (forall c, (callback_run c).2 = []) ->
  is_Some (drain (S (length (_thread_notifier_queue σ))) σ).
Proof.
  intros Hquiet.
  remember (length (_thread_notifier_queue σ)) as n eqn:Hn.
  revert σ Hn. induction n as [|n IH]; intros σ Hn.
  - simpl. destruct (_thread_notifier_queue σ); [by eexists|done].
  - change (drain (S (S n)) σ) with
      (match _thread_notifier_queue σ with
       | [] => Some (Ret tt, σ)
       | x :: q =>
           match call_entry x (set_queue q σ) with
           | (Ret _, σ') => drain (S n) σ'
           | (Exc e, σ') => Some (Exc e, σ')
           end
       end).
    destruct (_thread_notifier_queue σ) as [|x q] eqn:Hq; [done|].
    simpl in Hn. injection Hn as Hn.
    destruct (call_entry_queue x (set_queue q σ)) as (_ & new & Hq3 & Hnew).
    rewrite Hquiet in Hnew. apply fmap_nil_inv in Hnew as ->.
    rewrite app_nil_r in Hq3. simpl in Hq3.
    destruct (call_entry x (set_queue q σ)) as [[[]|e] σ3]; simpl in Hq3.
    + apply IH. by rewrite Hq3.
    + by eexists.
Qed.

Lemma notifier_step_in_order ev σ σ' :
  notifier_step ev σ = Some σ' -> in_order σ -> in_order σ'.
Proof.
  destruct ev as [x|fuel|new purge|p o]; simpl; intros H Hin.
  - simplify_eq. by apply enqueue_in_order.
  - unfold _thread_notifier_run_queue in H.
    destruct (drain fuel _) as [[[[]|e] σ1]|] eqn:Hd; simpl in H; simplify_eq;
      by eapply drain_in_order.
  - simplify_eq. unfold create_thread_notifier_pipe.
    destruct (_ && _); [done|]. destruct purge; [|done].
    destruct Hin as [Hs Hb]. unfold in_order, handled in *. simpl.
    rewrite app_nil_r. rewrite fmap_app in Hs, Hb. split.
    + by eapply sorted_prefix.
    + by apply Forall_app in Hb as [? _].
  - simplify_eq. eapply in_order_same; [apply settle_same_queues|done].
Qed.

Lemma notifier_reachable_in_order σ : notifier_reachable σ -> in_order σ.
Proof.
  induction 1 as [|ev σ σ' _ IH H].
  - split; constructor.
  - by eapply notifier_step_in_order.
Qed.

Lemma notifier_run_reachable evs σ σ' :
  notifier_reachable σ -> notifier_run evs σ = Some σ' -> notifier_reachable σ'.
Proof.
  revert σ. induction evs as [|ev evs IH]; intros σ Hr H; simpl in H.
  - by simplify_eq.
  - destruct (notifier_step ev σ) as [σ1|] eqn:E; [|done]. simpl in H.
    eapply IH; [|exact H]. by eapply nreach_step.
Qed.

(** C6.  In every state the notifier can reach, with [a.1] the number of
    enqueues completed before the enqueue of [a]: of two entries that
    have been called the one queued first was called first; everything
    still queued was queued after everything already called; and a run of
    the drain loop calls the entries in queue order, first those queued
    when it started, then those queued while it ran, leaving none when it
    returns normally. *)
Theorem wake_queue_fifo σ :
  notifier_reachable σ ->
  (forall i j a b,
     executed σ !! i = Some a -> executed σ !! j = Some b ->
     a.1 < b.1 -> i < j) /\
  (forall a b, a ∈ executed σ -> b ∈ _thread_notifier_queue σ -> a.1 < b.1) /\
  (forall fuel r σ',
     drain fuel σ = Some (r, σ') ->
     exists ran new,
       executed σ' = executed σ ++ ran /\
       ran ++ _thread_notifier_queue σ' = _thread_notifier_queue σ ++ new /\
       (r = Ret tt -> _thread_notifier_queue σ' = [])).
Proof.
  intros Hreach. apply notifier_reachable_in_order in Hreach as [Hs _].
  unfold handled in Hs. split_and!.
  - intros i j a b Hi Hj Hab.
    destruct (decide (i < j)) as [|Hge]; [done|].
    assert (forall n x, executed σ !! n = Some x ->
              (executed σ ++ _thread_notifier_queue σ).*1 !! n = Some x.1) as Hl.
    { intros n x Hn. rewrite list_lookup_fmap, lookup_app_l.
      - by rewrite Hn.
      - by eapply lookup_lt_Some. }
    destruct (decide (i = j)) as [->|Hne]; [simplify_eq; lia|].
    pose proof (sorted_lookup _ j i _ _ Hs (Hl _ _ Hj) (Hl _ _ Hi)). lia.
  - intros a b Ha Hb.
    apply list_elem_of_lookup_1 in Ha as [i Hi].
    apply list_elem_of_lookup_1 in Hb as [j Hj].
    eapply (sorted_lookup _ i (length (executed σ) + j) _ _ Hs).
    + rewrite list_lookup_fmap, lookup_app_l; [by rewrite Hi|].
      by eapply lookup_lt_Some.
    + rewrite list_lookup_fmap, lookup_app_r; [|lia].
      replace (length (executed σ) + j - length (executed σ)) with j by lia.
      by rewrite Hj.
    + apply lookup_lt_Some in Hi. lia.
  - intros fuel r σ'. apply drain_runs_queue_order.
Qed.

End Notifier.

(** *** The named job server *)

(** Python 2 [cmp] on integers. *)
Definition cmp (a b : Z) : Z :=
  match (a ?= b)%Z with
  | Lt => (-1)%Z
  | Eq => 0%Z
  | Gt => 1%Z
  end.

(** [list.sort(cmpfunc)]: the sort is stable, and a stable sort has one
    possible result, the one insertion from the right builds: an element
    moves behind exactly those it compares strictly greater than. *)
Fixpoint sort_insert {A} (cmpfunc : A -> A -> Z) (x : A) (l : list A) : list A :=
  match l with
  | [] => [x]
  | y :: l' =>
      if (cmpfunc y x <? 0)%Z then y :: sort_insert cmpfunc x l'
      else x :: y :: l'
  end.

Definition list_sort {A} (cmpfunc : A -> A -> Z) (l : list A) : list A :=
  foldr (sort_insert cmpfunc) [] l.

(** A job: a ThreadInProgress with its [priority] attribute.  [job_id]
    is the identity of the object; identities are handed out in the order
    the jobs are created and submitted. *)
Record job : Type := Job {
  job_id : nat;
  priority : Z
}.

Global Instance job_eq_dec : EqDecision job.
Proof. solve_decision. Defined.

(** A [_JobServer]: its [jobs] list, the number of jobs created for it so
    far, and the jobs its thread has called, oldest first. *)
Record jobserver : Type := JobServer {
  jobs : list job;
  created : nat;
  called : list job
}.

(** [_JobServer.add(job)] *)
Definition add (j : job) (σ : jobserver) : jobserver :=
  {| jobs := list_sort (fun x y => (- cmp (priority x) (priority y))%Z)
                       (jobs σ ++ [j]);
     created := created σ; called := called σ |}.

(** [NamedThreadCallback._create_job]: a new job with the callback's
    priority is added to the server. *)
Definition _create_job (p : Z) (σ : jobserver) : jobserver :=
  add {| job_id := created σ; priority := p |}
      {| jobs := jobs σ; created := S (created σ); called := called σ |}.

(** [list.remove(x)] on jobs. *)
Fixpoint remove_first (j : job) (l : list job) : list job :=
  match l with
  | [] => []
  | x :: l' => if decide (j = x) then l' else x :: remove_first j l'
  end.

(** [_JobServer.remove(job)] *)
Definition remove (j : job) (σ : jobserver) : jobserver :=
  if decide (j ∈ jobs σ)
  then {| jobs := remove_first j (jobs σ); created := created σ;
          called := called σ |}
  else σ.

(** One turn of the loop of [_JobServer.run] with a job queued:
    [job = self.jobs.pop(0)], then [job()]; [None] when the thread waits
    on the condition instead. *)
Definition run (σ : jobserver) : option (job * jobserver) :=
  match jobs σ with
  | [] => None
  | j :: q => Some (j, {| jobs := q; created := created σ;
                          called := called σ ++ [j] |})
  end.

Inductive server_event : Type :=
| JCreate (p : Z)
| JRemove (j : job)
| JRun.

Definition server_step (ev : server_event) (σ : jobserver) : option jobserver :=
  match ev with
  | JCreate p => Some (_create_job p σ)
  | JRemove j => Some (remove j σ)
  | JRun => snd <$> run σ
  end.

Definition server_init : jobserver :=
  {| jobs := []; created := 0; called := [] |}.

Fixpoint server_run (evs : list server_event) (σ : jobserver)
  : option jobserver :=
  match evs with
  | [] => Some σ
  | ev :: evs' => σ' ← server_step ev σ; server_run evs' σ'
  end.

Inductive server_reachable : jobserver -> Prop :=
| sreach_init : server_reachable server_init
| sreach_step ev σ σ' :
    server_reachable σ -> server_step ev σ = Some σ' -> server_reachable σ'.

(** ** Priority order of the job list *)

(** [x] is served before [y]. *)
Definition before (x y : job) : Prop :=
  (priority y < priority x)%Z \/
  (priority x = priority y /\ job_id x < job_id y).

Definition by_priority : job -> job -> Z :=
  fun x y => (- cmp (priority x) (priority y))%Z.

Lemma by_priority_neg x y :
  (by_priority y x <? 0)%Z = true <-> (priority x < priority y)%Z.
Proof.
  unfold by_priority, cmp. rewrite Z.ltb_lt.
  destruct (Z.compare_spec (priority y) (priority x)); lia.
Qed.

Lemma elem_of_sort_insert (x y : job) l :
  y ∈ sort_insert by_priority x l <-> y = x \/ y ∈ l.
Proof.
  induction l as [|z l IH]; simpl.
  - rewrite list_elem_of_singleton. set_solver.
  - destruct (by_priority z x <? 0)%Z; set_solver.
Qed.

Lemma sort_insert_sorted x l :
  StronglySorted before l ->
  (forall y, y ∈ l -> priority y = priority x -> job_id x < job_id y) ->
  StronglySorted before (sort_insert by_priority x l).
Proof.
  induction 1 as [|z l Hs IH Hz]; intros Hx; simpl.
  - repeat constructor.
  - destruct (by_priority z x <? 0)%Z eqn:E.
    + apply by_priority_neg in E. constructor.
      * apply IH. intros y Hy. apply Hx. by right.
      * apply Forall_forall. intros y Hy.
        apply elem_of_sort_insert in Hy as [->|Hy].
        -- by left.
        -- rewrite Forall_forall in Hz. by apply Hz.
    + assert (priority z <= priority x)%Z as Hle.
      { destruct (Z.ltb_spec (by_priority z x) 0) as [|Hge]; [done|].
        unfold by_priority, cmp in Hge.
        destruct (Z.compare_spec (priority z) (priority x)); lia. }
      constructor; [by constructor|].
      assert (before x z) as Hxz.
      { destruct (decide (priority z = priority x)) as [Heq|Hne].
        - right. split; [done|]. apply Hx; [by left|done].
        - left. lia. }
      constructor; [done|].
      apply Forall_forall. intros y Hy.
      rewrite Forall_forall in Hz. specialize (Hz y Hy).
      destruct (decide (priority y = priority x)) as [Heq|Hne].
      * right. split; [done|]. apply Hx; [by right|done].
      * left. destruct Hz as [?|[? _]], Hxz as [?|[? _]]; lia.
Qed.

Lemma list_sort_snoc (j : job) l :
  list_sort by_priority (l ++ [j]) = foldr (sort_insert by_priority) [j] l.
Proof. unfold list_sort. by rewrite foldr_app. Qed.

Lemma elem_of_insert_all (j y : job) l :
  y ∈ foldr (sort_insert by_priority) [j] l <-> y = j \/ y ∈ l.
Proof.
  induction l as [|z l IH]; simpl.
  - rewrite list_elem_of_singleton. set_solver.
  - rewrite elem_of_sort_insert, IH. set_solver.
Qed.

Lemma add_sorted j l :
  StronglySorted before l ->
  (forall y, y ∈ l -> job_id y < job_id j) ->
  StronglySorted before (list_sort by_priority (l ++ [j])).
Proof.
  rewrite list_sort_snoc. induction 1 as [|z l Hs IH Hz]; intros Hj; simpl.
  - repeat constructor.
  - apply sort_insert_sorted.
    + apply IH. intros y Hy. apply Hj. by right.
    + intros y Hy Hp. apply elem_of_insert_all in Hy as [->|Hy].
      * apply Hj. by left.
      * rewrite Forall_forall in Hz. destruct (Hz y Hy) as [?|[_ ?]]; [lia|done].
Qed.

Lemma remove_first_sorted j l :
  StronglySorted before l -> StronglySorted before (remove_first j l).
Proof.
  induction 1 as [|z l Hs IH Hz]; simpl; [constructor|].
  case_decide; [done|]. constructor; [done|].
  apply Forall_forall. intros y Hy. rewrite Forall_forall in Hz. apply Hz.
  clear -Hy. induction l as [|x l IH]; simpl in *; [done|].
  case_decide; [by right|]. set_solver.
Qed.

Lemma elem_of_remove_first (j y : job) l :
  y ∈ remove_first j l -> y ∈ l.
Proof.
  induction l as [|x l IH]; simpl; [done|].
  case_decide; [by right|]. set_solver.
Qed.

Definition server_inv (σ : jobserver) : Prop :=
  StronglySorted before (jobs σ) /\
  forall y, y ∈ jobs σ -> job_id y < created σ.

Lemma server_step_inv ev σ σ' :
  server_step ev σ = Some σ' -> server_inv σ -> server_inv σ'.
Proof.
  destruct ev as [p|j|]; simpl; intros H [Hs Hb]; simplify_eq.
  - unfold _create_job, add. split; simpl.
    + apply add_sorted; [done|]. intros y Hy. simpl. by apply Hb.
    + intros y Hy. fold by_priority in Hy. rewrite list_sort_snoc in Hy.
      apply elem_of_insert_all in Hy as [->|Hy]; simpl; [lia|].
      specialize (Hb y Hy). lia.
  - unfold remove. case_decide; [|done]. split; simpl.
    + by apply remove_first_sorted.
    + intros y Hy. by apply Hb, (elem_of_remove_first j).
  - unfold run in H. destruct (jobs σ) as [|j q] eqn:Hq; [done|].
    simpl in H. injection H as <-. split; simpl.
    + by apply StronglySorted_inv in Hs as [? _].
    + intros y Hy. apply Hb. by right.
Qed.

Lemma server_reachable_inv σ : server_reachable σ -> server_inv σ.
Proof.
  induction 1 as [|ev σ σ' _ IH H].
  - split; [constructor|]. intros y Hy. by apply elem_of_nil in Hy.
  - by eapply server_step_inv.
Qed.

Lemma server_run_reachable evs σ σ' :
  server_reachable σ -> server_run evs σ = Some σ' -> server_reachable σ'.
Proof.
  revert σ. induction evs as [|ev evs IH]; intros σ Hr H; simpl in H.
  - by simplify_eq.
  - destruct (server_step ev σ) as [σ1|] eqn:E; [|done]. simpl in H.
    eapply IH; [|exact H]. by eapply sreach_step.
Qed.

(** C7.  In every state a job server can reach, a turn of the worker
    loop with jobs queued takes the head of the list and calls it; no
    queued job has a higher priority, and every other queued job of the
    same priority was submitted later. *)
Theorem run_pops_highest_priority σ :
  server_reachable σ -> jobs σ <> [] ->
  exists j σ',
    run σ = Some (j, σ') /\
    jobs σ = j :: jobs σ' /\ called σ' = called σ ++ [j] /\
    (forall x, x ∈ jobs σ -> (priority x <= priority j)%Z) /\
    (forall x, x ∈ jobs σ' -> priority x = priority j -> job_id j < job_id x).
Proof.
  intros Hreach Hne. apply server_reachable_inv in Hreach as [Hs _].
  unfold run. destruct (jobs σ) as [|j q]; [done|].
  eexists _, _. split; [done|]. simpl.
  apply StronglySorted_inv in Hs as [_ Hj]. rewrite Forall_forall in Hj.
  split_and!; try done.
  - intros x Hx. apply elem_of_cons in Hx as [->|Hx]; [lia|].
    destruct (Hj x Hx) as [?|[? _]]; lia.
  - intros x Hx Hp. destruct (Hj x Hx) as [?|[_ ?]]; [lia|done].
Qed.

(** *** Jobs of a thread *)

(** A [ThreadInProgress]: its [_callback] (named by a number), the user
    callbacks called so far, and the [finish]/[throw] calls handed to
    [MainThreadCallback], the only way the promise of the job is
    settled. *)
Record ThreadInProgress : Type := MkThreadInProgress {
  _callback : option nat;
  invoked : list nat;
  posted : list outcome
}.

Section Job.

Context (callback_result : nat -> outcome).

(** [ThreadInProgress.__call__]; the method has no [return] with a value,
    so the call gives [None] on both paths. *)
Definition call (σ : ThreadInProgress) : pyval * ThreadInProgress :=
  match _callback σ with
  | None => (PyNone, σ)
  | Some c =>
      (PyNone, {| _callback := None;
                  invoked := invoked σ ++ [c];
                  posted := posted σ ++ [callback_result c] |})
  end.

(** [ThreadInProgress.active] *)
Definition active (σ : ThreadInProgress) : bool :=
  bool_decide (_callback σ <> None).

(** [ThreadInProgress.stop] *)
Definition stop (σ : ThreadInProgress) : ThreadInProgress :=
  {| _callback := None; invoked := invoked σ; posted := posted σ |}.

Inductive job_op : Type :=
| OpCall
| OpActive
| OpStop.

(** What an operation shows its caller. *)
Inductive job_obs : Type :=
| SawCall (v : pyval)
| SawActive (b : bool)
| SawStop.

Definition job_step (op : job_op) (σ : ThreadInProgress)
  : job_obs * ThreadInProgress :=
  match op with
  | OpCall => let r := call σ in (SawCall r.1, r.2)
  | OpActive => (SawActive (active σ), σ)
  | OpStop => (SawStop, stop σ)
  end.

Fixpoint job_run (ops : list job_op) (σ : ThreadInProgress)
  : list job_obs * ThreadInProgress :=
  match ops with
  | [] => ([], σ)
  | op :: ops' =>
      let r := job_step op σ in
      let r' := job_run ops' r.2 in
      (r.1 :: r'.1, r'.2)
  end.

(** What a stopped job shows. *)
Definition idle_obs (o : job_obs) : Prop :=
  match o with
  | SawCall v => v = PyNone
  | SawActive b => b = false
  | SawStop => True
  end.

Lemma active_stopped σ : _callback σ = None -> active σ = false.
Proof.
  intros H. unfold active. rewrite H. apply bool_decide_eq_false.
  intros Hn. by apply Hn.
Qed.

Lemma job_step_stopped op σ :
  _callback σ = None ->
  idle_obs (job_step op σ).1 /\ _callback (job_step op σ).2 = None /\
  invoked (job_step op σ).2 = invoked σ /\ posted (job_step op σ).2 = posted σ.
Proof.
  intros H. destruct op; simpl.
  - unfold call. by rewrite H.
  - split; [|done]. by apply active_stopped.
  - done.
Qed.

(** C10.  After [stop()], whatever is done with the job next, calls by
    the worker thread included: each call returns [None], [active()] is
    [False] every time, no user callback is called and nothing is handed
    on to settle the promise. *)
Theorem stopped_job_never_runs σ ops :
  active (stop σ) = false /\
  Forall idle_obs (job_run ops (stop σ)).1 /\
  active (job_run ops (stop σ)).2 = false /\
  invoked (job_run ops (stop σ)).2 = invoked σ /\
  posted (job_run ops (stop σ)).2 = posted σ.
Proof.
  split; [by apply active_stopped|].
  assert (forall τ, _callback τ = None ->
            Forall idle_obs (job_run ops τ).1 /\
            _callback (job_run ops τ).2 = None /\
            invoked (job_run ops τ).2 = invoked τ /\
            posted (job_run ops τ).2 = posted τ) as Hgen.
  { induction ops as [|op ops IH]; intros τ Hτ; simpl.
    - by repeat split.
    - destruct (job_step_stopped op τ Hτ) as (Ho & Hc & Hi & Hp).
      destruct (IH _ Hc) as (Ho' & Hc' & Hi' & Hp').
      split_and!; [by constructor|done|congruence|congruence]. }
  destruct (Hgen (stop σ) eq_refl) as (Ho & Hc & Hi & Hp).
  split_and!; [done| |done|done].
  by apply active_stopped.
Qed.

End Job.

(** *** synchronized *)

(** The two lock classes [synchronized.__init__] accepts:
    [threading._RLock] and [thread.LockType]. *)
Inductive lock_kind : Type :=
| RLock
| LockType.

Global Instance lock_kind_eq_dec : EqDecision lock_kind.
Proof. solve_decision. Defined.

(** A lock object: its class, the thread that holds it and how often. *)
Record lock : Type := MkLock {
  lk_kind : lock_kind;
  lk_owner : option nat;
  lk_count : nat
}.

(** [lock.acquire()] by thread [th], blocking: [None] when the call does
    not come back as things stand.  An RLock held by the caller is taken
    once more; a plain lock that is held blocks whoever asks. *)
Definition acquire (th : nat) (l : lock) : option lock :=
  match lk_owner l with
  | None => Some {| lk_kind := lk_kind l; lk_owner := Some th; lk_count := 1 |}
  | Some o =>
      match lk_kind l with
      | RLock =>
          if decide (o = th)
          then Some {| lk_kind := RLock; lk_owner := Some o;
                       lk_count := S (lk_count l) |}
          else None
      | LockType => None
      end
  end.

(** [lock.release()] *)
Definition release (l : lock) : lock :=
  match lk_count l with
  | S (S n) => {| lk_kind := lk_kind l; lk_owner := lk_owner l; lk_count := S n |}
  | _ => {| lk_kind := lk_kind l; lk_owner := None; lk_count := 0 |}
  end.

(** The lock objects, the [_kaa_synchronized_lock] attribute of the
    objects that have one, and the [synchronized_lock] entry of the
    decorator data stores that have one. *)
Record lockstore : Type := LockStore {
  locks : gmap nat lock;
  _kaa_synchronized_lock : gmap nat nat;
  synchronized_lock : gmap nat nat
}.

(** The argument [obj] of [synchronized(obj)]. *)
Inductive sync_arg : Type :=
| ArgNone
| ArgLock (l : nat)      (* an instance of _RLock or LockType *)
| ArgObject (o : nat).   (* any other object *)

(** A new lock object: [threading.RLock()] or [threading.Lock()]. *)
Definition new_lock (k : lock_kind) (σ : lockstore) : nat * lockstore :=
  let l := fresh (dom (locks σ)) in
  (l, {| locks := <[l := {| lk_kind := k; lk_owner := None; lk_count := 0 |}]>
                    (locks σ);
         _kaa_synchronized_lock := _kaa_synchronized_lock σ;
         synchronized_lock := synchronized_lock σ |}).

(** [synchronized.__init__(obj)]; the result is [self._lock]. *)
Definition synchronized_init (obj : sync_arg) (σ : lockstore)
  : option nat * lockstore :=
  match obj with
  | ArgNone => (None, σ)
  | ArgLock l => (Some l, σ)
  | ArgObject o =>
      match _kaa_synchronized_lock σ !! o with
      | Some l => (Some l, σ)
      | None =>
          let r := new_lock RLock σ in
          (Some r.1,
           {| locks := locks r.2;
              _kaa_synchronized_lock := <[o := r.1]> (_kaa_synchronized_lock σ);
              synchronized_lock := synchronized_lock σ |})
      end
  end.

(** The lock the inner [call] of [synchronized.__call__] takes;
    [store] names the [DecoratorDataStore] of the call.
    Modelled from the spec: [DecoratorDataStore] of utils.py (not in
    src), section 5.3: one store per plain function, and per receiver
    for a method. *)
Definition call_lock (self_lock : option nat) (store : nat) (σ : lockstore)
  : nat * lockstore :=
  match self_lock with
  | Some l => (l, σ)
  | None =>
      match synchronized_lock σ !! store with
      | Some l => (l, σ)
      | None =>
          let r := new_lock RLock σ in
          (r.1,
           {| locks := locks r.2;
              _kaa_synchronized_lock := _kaa_synchronized_lock σ;
              synchronized_lock := <[store := r.1]> (synchronized_lock σ) |})
      end
  end.

Definition set_lock (l : nat) (x : lock) (σ : lockstore) : lockstore :=
  {| locks := <[l := x]> (locks σ);
     _kaa_synchronized_lock := _kaa_synchronized_lock σ;
     synchronized_lock := synchronized_lock σ |}.

(** [synchronized.__enter__] by thread [th]; [None] when the thread
    blocks in [acquire]. *)
Definition enter (self_lock : option nat) (th : nat) (σ : lockstore)
  : option (res nat * lockstore) :=
  match self_lock with
  | None => Some (Exc RuntimeError, σ)
  | Some l =>
      match locks σ !! l with
      | Some x =>
          match acquire th x with
          | Some x' => Some (Ret l, set_lock l x' σ)
          | None => None
          end
      | None => Some (Exc AttributeError, σ)
      end
  end.

(** [synchronized.__exit__] *)
Definition exit (self_lock : option nat) (σ : lockstore) : lockstore :=
  match self_lock with
  | Some l =>
      match locks σ !! l with
      | Some x => set_lock l (release x) σ
      | None => σ
      end
  | None => σ
  end.

(** What the application and the decorator do with locks. *)
Inductive lock_event : Type :=
| LNew (k : lock_kind)                          (* threading.RLock() / Lock() *)
| LInit (obj : sync_arg)                        (* synchronized(obj) *)
| LCall (self_lock : option nat) (store th : nat) (* entering a wrapped call *)
| LEnter (self_lock : option nat) (th : nat)
| LExit (self_lock : option nat).

Definition lock_step (ev : lock_event) (σ : lockstore) : option lockstore :=
  match ev with
  | LNew k => Some (new_lock k σ).2
  | LInit obj => Some (synchronized_init obj σ).2
  | LCall self_lock store th =>
      let r := call_lock self_lock store σ in
      snd <$> enter (Some r.1) th r.2
  | LEnter self_lock th => snd <$> enter self_lock th σ
  | LExit self_lock => Some (exit self_lock σ)
  end.

Definition lock_init : lockstore :=
  {| locks := ∅; _kaa_synchronized_lock := ∅; synchronized_lock := ∅ |}.

Fixpoint lock_run (evs : list lock_event) (σ : lockstore) : option lockstore :=
  match evs with
  | [] => Some σ
  | ev :: evs' => σ' ← lock_step ev σ; lock_run evs' σ'
  end.

Inductive lock_reachable : lockstore -> Prop :=
| lreach_init : lock_reachable lock_init
| lreach_step ev σ σ' :
    lock_reachable σ -> lock_step ev σ = Some σ' -> lock_reachable σ'.

(** ** The locks the decorator makes *)

Definition kind_of (σ : lockstore) (l : nat) : option lock_kind :=
  lk_kind <$> locks σ !! l.

(** Every lock an attribute or a store refers to is an RLock. *)
Definition attached_reentrant (σ : lockstore) : Prop :=
  (forall o l, _kaa_synchronized_lock σ !! o = Some l -> kind_of σ l = Some RLock) /\
  (forall s l, synchronized_lock σ !! s = Some l -> kind_of σ l = Some RLock).

Lemma acquire_kind th x x' : acquire th x = Some x' -> lk_kind x' = lk_kind x.
Proof.
  unfold acquire. destruct (lk_owner x); [|by intros [= <-]].
  destruct (lk_kind x) eqn:E; [|done]. case_decide; [|done]. by intros [= <-].
Qed.

Lemma release_kind x : lk_kind (release x) = lk_kind x.
Proof. unfold release. by destruct (lk_count x) as [|[|n]]. Qed.

Lemma kind_of_set_lock l x σ y :
  (forall x0, locks σ !! l = Some x0 -> lk_kind x = lk_kind x0) ->
  is_Some (locks σ !! l) ->
  kind_of (set_lock l x σ) y = kind_of σ y.
Proof.
  intros Hk [x0 Hx0]. unfold kind_of, set_lock. simpl.
  destruct (decide (l = y)) as [<-|Hne].
  - rewrite lookup_insert_eq, Hx0. simpl. f_equal. by apply Hk.
  - by rewrite lookup_insert_ne.
Qed.

Lemma kind_of_new_lock k σ y :
  kind_of (new_lock k σ).2 y =
  if decide (y = (new_lock k σ).1) then Some k else kind_of σ y.
Proof.
  unfold kind_of, new_lock. simpl. case_decide as Hy.
  - subst. by rewrite lookup_insert_eq.
  - rewrite lookup_insert_ne; [done|]. intros Heq. apply Hy. by rewrite <-Heq.
Qed.

Lemma new_lock_fresh k σ : kind_of σ (new_lock k σ).1 = None.
Proof.
  unfold kind_of, new_lock. simpl.
  assert (locks σ !! fresh (dom (locks σ)) = None) as ->; [|done].
  apply not_elem_of_dom, is_fresh.
Qed.

Lemma attached_new_lock k σ :
  attached_reentrant σ -> attached_reentrant (new_lock k σ).2.
Proof.
  intros [Ha Hs]. split.
  - intros o l Hl. simpl in Hl. rewrite kind_of_new_lock. case_decide; subst.
    + apply Ha in Hl. by rewrite new_lock_fresh in Hl.
    + by apply Ha in Hl.
  - intros s l Hl. simpl in Hl. rewrite kind_of_new_lock. case_decide; subst.
    + apply Hs in Hl. by rewrite new_lock_fresh in Hl.
    + by apply Hs in Hl.
Qed.

Lemma attached_set_lock l x σ :
  (forall x0, locks σ !! l = Some x0 -> lk_kind x = lk_kind x0) ->
  is_Some (locks σ !! l) ->
  attached_reentrant σ -> attached_reentrant (set_lock l x σ).
Proof.
  intros Hk Hl [Ha Hs]. split.
  - intros o l' Hl'. simpl in Hl'.
    rewrite kind_of_set_lock; [by eapply Ha|done|done].
  - intros s l' Hl'. simpl in Hl'.
    rewrite kind_of_set_lock; [by eapply Hs|done|done].
Qed.

Lemma synchronized_init_attached obj σ :
  attached_reentrant σ -> attached_reentrant (synchronized_init obj σ).2.
Proof.
  intros Hinv. destruct obj as [|l|o]; simpl; try done.
  destruct (_kaa_synchronized_lock σ !! o) as [l|] eqn:E; [done|].
  destruct (attached_new_lock RLock σ Hinv) as [Ha Hs].
  split; simpl.
  - intros o' l Hl. change (kind_of (new_lock RLock σ).2 l = Some RLock).
    destruct (decide (o = o')) as [<-|Hne].
    + rewrite lookup_insert_eq in Hl. injection Hl as <-.
      rewrite kind_of_new_lock. by rewrite decide_True.
    + rewrite lookup_insert_ne in Hl; [|done]. by apply (Ha o').
  - intros s l Hl. by apply (Hs s).
Qed.

Lemma call_lock_attached self_lock store σ :
  attached_reentrant σ -> attached_reentrant (call_lock self_lock store σ).2.
Proof.
  intros Hinv. destruct self_lock as [l|]; simpl; [done|].
  destruct (synchronized_lock σ !! store) as [l|] eqn:E; [done|].
  destruct (attached_new_lock RLock σ Hinv) as [Ha Hs].
  split; simpl.
  - intros o l Hl. by apply (Ha o).
  - intros s l Hl. change (kind_of (new_lock RLock σ).2 l = Some RLock).
    destruct (decide (store = s)) as [<-|Hne].
    + rewrite lookup_insert_eq in Hl. injection Hl as <-.
      rewrite kind_of_new_lock. by rewrite decide_True.
    + rewrite lookup_insert_ne in Hl; [|done]. by apply (Hs s).
Qed.

Lemma enter_attached self_lock th σ r σ' :
  enter self_lock th σ = Some (r, σ') ->
  attached_reentrant σ -> attached_reentrant σ'.
Proof.
  unfold enter. intros H Hinv. destruct self_lock as [l|]; [|by simplify_eq].
  destruct (locks σ !! l) as [x|] eqn:E; [|by simplify_eq].
  destruct (acquire th x) as [x'|] eqn:Ea; [|done]. simplify_eq.
  apply attached_set_lock; [|by eexists|done].
  intros x0 Hx0. simplify_eq. by eapply acquire_kind.
Qed.

Lemma lock_step_attached ev σ σ' :
  lock_step ev σ = Some σ' -> attached_reentrant σ -> attached_reentrant σ'.
Proof.
  destruct ev as [k|obj|sl store th|sl th|sl]; unfold lock_step;
    intros H Hinv.
  - simplify_eq. by apply attached_new_lock.
  - simplify_eq. by apply synchronized_init_attached.
  - cbv zeta in H.
    destruct (enter (Some (call_lock sl store σ).1) th (call_lock sl store σ).2)
      as [[r σ1]|] eqn:E; [|done].
    simpl in H. injection H as <-.
    eapply enter_attached; [exact E|]. by apply call_lock_attached.
  - destruct (enter sl th σ) as [[r σ1]|] eqn:E; [|done].
    simpl in H. injection H as <-. by eapply enter_attached.
  - simplify_eq. unfold exit. destruct sl as [l|]; [|done].
    destruct (locks σ !! l) as [x|] eqn:E; [|done].
    apply attached_set_lock; [|by eexists|done].
    intros x0 Hx0. simplify_eq. apply release_kind.
Qed.

Lemma lock_reachable_attached σ : lock_reachable σ -> attached_reentrant σ.
Proof.
  induction 1 as [|ev σ σ' _ IH H].
  - split; intros ? ? Hl; simpl in Hl; by rewrite lookup_empty in Hl.
  - by eapply lock_step_attached.
Qed.

Lemma lock_run_reachable evs σ σ' :
  lock_reachable σ -> lock_run evs σ = Some σ' -> lock_reachable σ'.
Proof.
  revert σ. induction evs as [|ev evs IH]; intros σ Hr H; simpl in H.
  - by simplify_eq.
  - destruct (lock_step ev σ) as [σ1|] eqn:E; [|done]. simpl in H.
    eapply IH; [|exact H]. by eapply lreach_step.
Qed.

(** C8, as amended.  The locks the decorator makes itself are re-entrant:
    in every reachable state the lock [synchronized(obj)] finds or
    attaches for an object that is not a lock is an RLock, and so is the
    lock a wrapped call finds or attaches in its data store when none
    was given; an RLock held by a thread can be taken again by that
    thread.  A lock given to the constructor is used as it is, whatever
    its class. *)
Theorem attached_locks_reentrant σ :
  lock_reachable σ ->
  (forall o, exists l,
     (synchronized_init (ArgObject o) σ).1 = Some l /\
     kind_of (synchronized_init (ArgObject o) σ).2 l = Some RLock) /\
  (forall s,
     kind_of (call_lock None s σ).2 (call_lock None s σ).1 = Some RLock) /\
  (forall l, synchronized_init (ArgLock l) σ = (Some l, σ)) /\
  (forall l x th x',
     locks σ !! l = Some x -> lk_kind x = RLock ->
     acquire th x = Some x' -> is_Some (acquire th x')).
Proof.
  intros Hreach. apply lock_reachable_attached in Hreach as Hinv.
  split_and!.
  - intros o.
    pose proof (synchronized_init_attached (ArgObject o) σ Hinv) as [Ha _].
    simpl in *. destruct (_kaa_synchronized_lock σ !! o) as [l|] eqn:E.
    + exists l. split; [done|]. by apply (Ha o).
    + eexists. split; [done|]. simpl in Ha. apply (Ha o).
      by rewrite lookup_insert_eq.
  - intros s.
    pose proof (call_lock_attached None s σ Hinv) as [_ Hs].
    simpl in *. destruct (synchronized_lock σ !! s) as [l|] eqn:E.
    + by apply (Hs s).
    + simpl in Hs. apply (Hs s). by rewrite lookup_insert_eq.
  - done.
  - intros l x th x' _ Hk Ha. unfold acquire in Ha.
    destruct (lk_owner x) as [o|] eqn:Eo.
    + rewrite Hk in Ha. case_decide; [|done]. simplify_eq.
      unfold acquire. simpl. rewrite decide_True; [by eexists|done].
    + simplify_eq. unfold acquire. simpl. rewrite Hk.
      rewrite decide_True; [by eexists|done].
Qed.

(** * Closed instances *)

(** Callback 1 raises, callback 2 queues one more entry, the others
    return their number. *)
Definition sample_callback (c : nat) : outcome * list entry :=
  match c with
  | 1 => (Raises (UserError 1), [])
  | 2 => (Returns PyNone, [Entry 5 50])
  | _ => (Returns (PyInt (Z.of_nat c)), [])
  end.

(** Three enqueues, a drain, another enqueue and a drain. *)
Definition sample_wakeups : list notifier_event :=
  [NCreatePipe true false;
   NEnqueue (Entry 1 10); NEnqueue (Entry 2 20); NEnqueue (Entry 3 30);
   NRunQueue 10; NEnqueue (Entry 4 40); NRunQueue 10].

Lemma wake_queue_fifo_witness :
  exists σ,
    notifier_run sample_callback sample_wakeups notifier_init = Some σ /\
    (executed σ).*2 =
      [Entry 1 10; Entry 2 20; Entry 3 30; Entry 5 50; Entry 4 40] /\
    forall i j a b,
      executed σ !! i = Some a -> executed σ !! j = Some b ->
      a.1 < b.1 -> i < j.
Proof.
  eexists. split; [vm_compute; reflexivity|].
  split; [vm_compute; reflexivity|].
  apply (wake_queue_fifo sample_callback).
  apply (notifier_run_reachable sample_callback sample_wakeups notifier_init).
  - apply nreach_init.
  - vm_compute. reflexivity.
Defined.

(** Jobs of priorities 0, 5, 0 and 5 submitted in this order. *)
Definition sample_jobs : list server_event :=
  [JCreate 0; JCreate 5; JCreate 0; JCreate 5].

Lemma run_pops_highest_priority_witness :
  exists σ,
    server_run sample_jobs server_init = Some σ /\
    jobs σ = [Job 1 5; Job 3 5; Job 0 0; Job 2 0] /\
    exists j σ',
      run σ = Some (j, σ') /\
      jobs σ = j :: jobs σ' /\ called σ' = called σ ++ [j] /\
      (forall x, x ∈ jobs σ -> (priority x <= priority j)%Z) /\
      (forall x, x ∈ jobs σ' -> priority x = priority j -> job_id j < job_id x).
Proof.
  eexists. split; [vm_compute; reflexivity|].
  split; [vm_compute; reflexivity|].
  apply run_pops_highest_priority.
  - apply (server_run_reachable sample_jobs server_init).
    + apply sreach_init.
    + vm_compute. reflexivity.
  - discriminate.
Defined.

(** An object and a plain function synchronized on, after the
    application has made a plain lock of its own. *)
Definition sample_locking : list lock_event :=
  [LNew LockType; LInit (ArgObject 7); LCall None 3 1; LExit (Some 2)].

Lemma attached_locks_reentrant_witness :
  exists σ,
    lock_run sample_locking lock_init = Some σ /\
    kind_of σ 0 = Some LockType /\
    (forall o, exists l,
       (synchronized_init (ArgObject o) σ).1 = Some l /\
       kind_of (synchronized_init (ArgObject o) σ).2 l = Some RLock) /\
    (forall s,
       kind_of (call_lock None s σ).2 (call_lock None s σ).1 = Some RLock) /\
    (forall l, synchronized_init (ArgLock l) σ = (Some l, σ)) /\
    (forall l x th x',
       locks σ !! l = Some x -> lk_kind x = RLock ->
       acquire th x = Some x' -> is_Some (acquire th x')).
Proof.
  eexists. split; [vm_compute; reflexivity|].
  split; [vm_compute; reflexivity|].
  apply attached_locks_reentrant.
  apply (lock_run_reachable sample_locking lock_init).
  - apply lreach_init.
  - vm_compute. reflexivity.
Defined.

(** The application hands its own plain lock to [synchronized]: the lock
    is taken as it is, thread 1 enters the scope, and entering it again
    from inside, in the same thread, blocks. *)
Lemma supplied_plain_lock_blocks :
  exists σ σ1,
    lock_run [LNew LockType] lock_init = Some σ /\
    lock_reachable σ /\
    synchronized_init (ArgLock 0) σ = (Some 0, σ) /\
    kind_of σ 0 = Some LockType /\
    enter (Some 0) 1 σ = Some (Ret 0, σ1) /\
    enter (Some 0) 1 σ1 = None.
Proof.
  eexists _, _. split; [vm_compute; reflexivity|].
  split.
  { apply (lock_run_reachable [LNew LockType] lock_init).
    - apply lreach_init.
    - vm_compute. reflexivity. }
  split; [reflexivity|]. split; [vm_compute; reflexivity|].
  split; vm_compute; reflexivity.
Defined.


(** * Further properties of thread.py *)

(** ** The job list *)

(** Descending priority, equal priorities in any order. *)
Definition descending (x y : job) : Prop := (priority y <= priority x)%Z.

Lemma sort_insert_perm x l : sort_insert by_priority x l ≡ₚ x :: l.
Proof.
  induction l as [|y l IH]; simpl; [done|].
  destruct (by_priority y x <? 0)%Z; [|done].
  rewrite IH. apply Permutation_swap.
Qed.

Lemma list_sort_perm l : list_sort by_priority l ≡ₚ l.
Proof.
  induction l as [|x l IH]; simpl; [done|].
  change (sort_insert by_priority x (list_sort by_priority l) ≡ₚ x :: l).
  by rewrite sort_insert_perm, IH.
Qed.

Lemma sort_insert_descending x l :
  StronglySorted descending l ->
  StronglySorted descending (sort_insert by_priority x l).
Proof.
  induction 1 as [|y l Hs IH Hy]; simpl.
  - repeat constructor.
  - destruct (by_priority y x <? 0)%Z eqn:E.
    + apply by_priority_neg in E. constructor; [done|].
      apply Forall_forall. intros z Hz.
      apply elem_of_sort_insert in Hz as [->|Hz].
      * unfold descending. lia.
      * rewrite Forall_forall in Hy. by apply Hy.
    + assert (priority y <= priority x)%Z as Hle.
      { destruct (decide (priority x < priority y)%Z) as [Hlt|]; [|lia].
        apply by_priority_neg in Hlt. congruence. }
      constructor; [by constructor|]. constructor; [done|].
      apply Forall_forall. intros z Hz. rewrite Forall_forall in Hy.
      specialize (Hy z Hz). unfold descending in *. lia.
Qed.

Lemma list_sort_descending l : StronglySorted descending (list_sort by_priority l).
Proof.
  induction l as [|x l IH]; simpl; [constructor|].
  by apply sort_insert_descending.
Qed.

(** [_JobServer.add] on any job list, ordered or not: every job that was
    queued is still queued once, the new job has joined them, and the
    list is in descending priority order. *)
Theorem add_keeps_jobs_sorted j σ :
  jobs (add j σ) ≡ₚ j :: jobs σ /\
  StronglySorted descending (jobs (add j σ)) /\
  called (add j σ) = called σ.
Proof.
  unfold add. simpl. fold by_priority. split_and!.
  - rewrite list_sort_perm. by rewrite <-Permutation_cons_append.
  - apply list_sort_descending.
  - done.
Qed.

(** The identities of the jobs called and queued. *)
Definition known (σ : jobserver) : list nat :=
  job_id <$> (called σ ++ jobs σ).

Definition distinct (σ : jobserver) : Prop :=
  NoDup (known σ) /\ Forall (fun i => i < created σ) (known σ).

Lemma remove_first_perm (j : job) l :
  j ∈ l -> l ≡ₚ j :: remove_first j l.
Proof.
  induction l as [|x l IH]; simpl; [by intros ?%elem_of_nil|].
  intros Hin. case_decide as Hx; [by subst|].
  apply elem_of_cons in Hin as [?|Hin]; [done|].
  rewrite (IH Hin) at 1. apply Permutation_swap.
Qed.

Lemma server_step_distinct ev σ σ' :
  server_step ev σ = Some σ' -> distinct σ -> distinct σ'.
Proof.
  unfold distinct, known. destruct ev as [p|j|]; simpl; intros H [Hnd Hb].
  - injection H as <-. unfold _create_job, add. simpl. fold by_priority.
    assert (job_id <$> called σ ++ list_sort by_priority
              (jobs σ ++ [{| job_id := created σ; priority := p |}])
            ≡ₚ created σ :: (job_id <$> called σ ++ jobs σ)) as Hp.
    { rewrite list_sort_perm, app_assoc, fmap_app. simpl.
      by rewrite <-Permutation_cons_append. }
    rewrite Hp. split.
    + apply NoDup_cons. split; [|done]. intros Hin.
      rewrite Forall_forall in Hb. apply Hb in Hin. lia.
    + constructor; [lia|]. eapply Forall_impl; [exact Hb|]. simpl. lia.
  - injection H as <-. unfold remove. case_decide as Hin; [|done]. simpl.
    assert (job_id <$> called σ ++ jobs σ
            ≡ₚ job_id j :: (job_id <$> called σ ++ remove_first j (jobs σ))) as Hp.
    { rewrite (remove_first_perm j (jobs σ) Hin) at 1.
      rewrite !fmap_app. simpl. by rewrite <-Permutation_middle. }
    rewrite Hp in Hnd, Hb. apply NoDup_cons in Hnd as [_ ?].
    by apply Forall_cons in Hb as [_ ?].
  - unfold run in H. destruct (jobs σ) as [|j q] eqn:Hq; [done|].
    simpl in H. injection H as <-. simpl.
    by rewrite <-app_assoc.
Qed.

Lemma server_reachable_distinct σ : server_reachable σ -> distinct σ.
Proof.
  induction 1 as [|ev σ σ' _ IH H].
  - split; constructor.
  - by eapply server_step_distinct.
Qed.

(** In every state a job server can reach, the jobs called so far and the
    jobs queued are pairwise different objects: no job is called twice,
    and a job that has been called is not queued any more. *)
Theorem no_job_called_twice σ :
  server_reachable σ ->
  NoDup (called σ ++ jobs σ).
Proof.
  intros [Hnd _]%server_reachable_distinct. unfold known in Hnd.
  by apply NoDup_fmap_1 in Hnd.
Qed.

(** A job taken off the list with [_JobServer.remove] is never called:
    whatever is created, removed and run afterwards, it is neither queued
    nor among the jobs called. *)
Theorem removed_job_never_called σ j evs σ' :
  server_reachable σ -> j ∈ jobs σ ->
  server_run evs (remove j σ) = Some σ' ->
  (j ∉ jobs σ') /\ (j ∉ called σ').
Proof.
  intros Hreach Hin Hrun.
  assert (forall τ, distinct τ -> job_id j < created τ ->
            job_id j ∉ known τ ->
            forall τ', server_run evs τ = Some τ' -> job_id j ∉ known τ') as Hgen.
  { clear. induction evs as [|ev evs IH]; intros τ Hd Hlt Hout τ' H; simpl in H.
    - by simplify_eq.
    - destruct (server_step ev τ) as [τ1|] eqn:E; [|done]. simpl in H.
      apply (IH τ1); [by eapply server_step_distinct| | |done].
      + destruct ev as [p|x|]; simpl in E.
        * injection E as <-. simpl. lia.
        * injection E as <-. unfold remove. by case_decide.
        * unfold run in E. destruct (jobs τ); [done|].
          simpl in E. by injection E as <-.
      + unfold known in *. destruct ev as [p|x|]; simpl in E.
        * injection E as <-. unfold _create_job, add. simpl. fold by_priority.
          rewrite fmap_app, list_sort_perm, fmap_app, app_assoc, <-fmap_app.
          simpl. rewrite elem_of_app, list_elem_of_singleton. intros [?|?]; [done|lia].
        * injection E as <-. unfold remove. case_decide as Hx; [|done]. simpl.
          intros Hj. apply Hout.
          rewrite (remove_first_perm x (jobs τ) Hx), !fmap_app in *.
          rewrite elem_of_app in *. simpl. set_solver.
        * unfold run in E. destruct (jobs τ) as [|y q] eqn:Hq; [done|].
          simpl in E. injection E as <-. simpl. by rewrite <-app_assoc. }
  pose proof (server_reachable_distinct σ Hreach) as Hd.
  assert (distinct (remove j σ)) as Hd'.
  { by apply (server_step_distinct (JRemove j) σ). }
  assert (job_id j < created (remove j σ)) as Hlt.
  { unfold remove. rewrite decide_True; [|done]. simpl.
    destruct Hd as [_ Hb]. rewrite Forall_forall in Hb. apply Hb.
    unfold known. rewrite fmap_app, elem_of_app. right.
    by apply list_elem_of_fmap_2. }
  assert (job_id j ∉ known (remove j σ)) as Hout.
  { destruct Hd as [Hnd _]. unfold known in *.
    unfold remove. rewrite decide_True; [|done]. simpl.
    assert (job_id <$> called σ ++ jobs σ
            ≡ₚ job_id j :: (job_id <$> called σ ++ remove_first j (jobs σ))) as Hp.
    { rewrite (remove_first_perm j (jobs σ) Hin) at 1.
      rewrite !fmap_app. simpl. by rewrite <-Permutation_middle. }
    rewrite Hp in Hnd. by apply NoDup_cons in Hnd as [? _]. }
  pose proof (Hgen _ Hd' Hlt Hout _ Hrun) as Hfin. unfold known in Hfin.
  rewrite fmap_app, elem_of_app in Hfin.
  split; intros Hj; apply Hfin; [right|left]; by apply list_elem_of_fmap_2.
Qed.

(** ** Jobs of a thread, once more *)

Section JobOnce.

Context (callback_result : nat -> outcome).

Lemma job_run_stopped ops τ :
  _callback τ = None ->
  _callback (job_run callback_result ops τ).2 = None /\
  invoked (job_run callback_result ops τ).2 = invoked τ /\
  posted (job_run callback_result ops τ).2 = posted τ.
Proof.
  revert τ. induction ops as [|op ops IH]; intros τ Hτ; simpl; [done|].
  destruct (job_step_stopped callback_result op τ Hτ) as (_ & Hc & Hi & Hp).
  destruct (IH _ Hc) as (Hc' & Hi' & Hp').
  split_and!; [done|congruence|congruence].
Qed.

(** However often the thread target is called, and whatever else is done
    with the job, its callback runs at most once, each run hands on
    exactly its own outcome to settle the promise, and after a run the
    job is no longer active. *)
Theorem callback_runs_at_most_once σ ops :
  exists cs,
    invoked (job_run callback_result ops σ).2 = invoked σ ++ cs /\
    posted (job_run callback_result ops σ).2 =
      posted σ ++ (callback_result <$> cs) /\
    length cs <= 1 /\
    (forall c, _callback σ = Some c -> cs = [] \/ cs = [c]) /\
    (_callback σ = None -> cs = []) /\
    (cs <> [] -> active (job_run callback_result ops σ).2 = false).
Proof.
  revert σ. induction ops as [|op ops IH]; intros σ; simpl.
  - exists []. rewrite !app_nil_r. split_and!; auto. done.
  - destruct op; simpl.
    + unfold call. destruct (_callback σ) as [c|] eqn:Hc.
      * destruct (job_run_stopped ops
                    {| _callback := None; invoked := invoked σ ++ [c];
                       posted := posted σ ++ [callback_result c] |} eq_refl)
          as (Hcb & Hi & Hp).
        exists [c]. simpl in *. rewrite Hi, Hp. split_and!; auto.
        -- intros c' [= <-]. by right.
        -- done.
        -- intros _. by apply active_stopped.
      * destruct (IH σ) as (cs & Hi & Hp & Hl & Hsome & Hnone & Hact).
        exists cs. split_and!; auto.
    + destruct (IH σ) as (cs & Hi & Hp & Hl & Hsome & Hnone & Hact).
      exists cs. split_and!; auto.
    + destruct (job_run_stopped ops (stop σ) eq_refl)
        as (Hcb & Hi & Hp).
      exists []. simpl in *. rewrite Hi, Hp, !app_nil_r. split_and!; auto. done.
Qed.

End JobOnce.

(** ** The wake queue, once more *)

Section NotifierMore.

Context (callback_run : nat -> outcome * list entry).

(** What the call of a queued entry gives its promise. *)
Definition outcome_of (x : nat * entry) : nat * outcome :=
  (e_in_progress x.2, (callback_run (e_callback x.2)).1).

(** What [call_entry] hands back once the promise took the outcome. *)
Definition passed_on (o : outcome) : res unit :=
  match o with
  | Returns _ => Ret tt
  | Raises e => if is_host_fatal e then Exc e else Ret tt
  end.

(** No promise has been given two outcomes, and the promise of every
    entry that has been called is terminal. *)
Definition tidy (σ : notifier) : Prop :=
  NoDup (settled σ).*1 /\
  forall x, x ∈ executed σ -> e_in_progress x.2 ∈ (settled σ).*1.

Lemma enqueue_all_settled xs σ :
  let σ' := foldl (fun s y => _thread_notifier_queue_callback y s) σ xs in
  settled σ' = settled σ /\ executed σ' = executed σ.
Proof.
  revert σ. induction xs as [|x xs IH]; intros σ; simpl; [done|].
  destruct (IH (_thread_notifier_queue_callback x σ)) as [-> ->]. done.
Qed.

Lemma settle_pending p o σ :
  is_finished p σ = false ->
  (settle p o σ).1 = Ret tt /\ settled (settle p o σ).2 = settled σ ++ [(p, o)].
Proof. intros H. unfold settle. by rewrite H. Qed.

Lemma settle_terminal p o σ :
  is_finished p σ = true -> settle p o σ = (Exc RuntimeError, σ).
Proof. intros H. unfold settle. by rewrite H. Qed.

Lemma is_finished_enqueue_all p xs σ :
  is_finished p (foldl (fun s y => _thread_notifier_queue_callback y s) σ xs)
  = is_finished p σ.
Proof.
  unfold is_finished. by destruct (enqueue_all_settled xs σ) as [-> _].
Qed.

Lemma call_entry_pending x σ :
  is_finished (e_in_progress x.2) σ = false ->
  settled (call_entry callback_run x σ).2 = settled σ ++ [outcome_of x] /\
  (call_entry callback_run x σ).1 = passed_on (callback_run (e_callback x.2)).1.
Proof.
  intros Hp. unfold call_entry, outcome_of.
  set (σ1 := foldl _ _ _).
  assert (is_finished (e_in_progress x.2) σ1 = false) as Hp1.
  { unfold σ1. by rewrite is_finished_enqueue_all. }
  assert (settled σ1 = settled σ) as Hs1.
  { unfold σ1.
    by destruct (enqueue_all_settled (callback_run (e_callback x.2)).2
                   (log_executed x σ)) as [-> _]. }
  destruct (callback_run (e_callback x.2)).1 as [v|e]; simpl.
  - unfold settle. rewrite Hp1. simpl. by rewrite Hs1.
  - unfold settle. rewrite Hp1.
    destruct (is_host_fatal e); simpl; by rewrite Hs1.
Qed.

Lemma call_entry_terminal x σ :
  is_finished (e_in_progress x.2) σ = true ->
  call_entry callback_run x σ =
    (Exc RuntimeError,
     foldl (fun s y => _thread_notifier_queue_callback y s)
       (log_executed x σ) (callback_run (e_callback x.2)).2).
Proof.
  intros Hp. unfold call_entry.
  set (σ1 := foldl _ _ _).
  assert (is_finished (e_in_progress x.2) σ1 = true) as Hp1.
  { unfold σ1. by rewrite is_finished_enqueue_all. }
  destruct (callback_run (e_callback x.2)).1 as [v|e].
  - rewrite (settle_terminal _ (Returns v) _ Hp1).
    by rewrite (settle_terminal _ (Raises RuntimeError) _ Hp1).
  - by rewrite (settle_terminal _ (Raises e) _ Hp1).
Qed.

Lemma settle_tidy p o σ : tidy σ -> tidy (settle p o σ).2.
Proof.
  intros [Hnd Hex]. destruct (is_finished p σ) eqn:Hp.
  - by rewrite settle_terminal.
  - destruct (settle_pending p o σ Hp) as [_ Hs].
    destruct (settle_same_queues p o σ) as (_ & _ & _ & _ & He).
    unfold tidy. rewrite Hs, He, fmap_app. simpl. split.
    + apply NoDup_app. split_and!; [done| |apply NoDup_singleton].
      intros y Hy ->%list_elem_of_singleton.
      unfold is_finished in Hp. by apply bool_decide_eq_false in Hp.
    + intros x Hx. apply elem_of_app. left. by apply Hex.
Qed.

Lemma call_entry_tidy x σ :
  tidy σ -> tidy (call_entry callback_run x σ).2.
Proof.
  intros [Hnd Hex]. destruct (is_finished (e_in_progress x.2) σ) eqn:Hp.
  - rewrite call_entry_terminal by done. simpl.
    destruct (enqueue_all_settled (callback_run (e_callback x.2)).2
                (log_executed x σ)) as [Hs He].
    unfold tidy. rewrite Hs, He. simpl. split; [done|].
    intros y [Hy| ->%list_elem_of_singleton]%elem_of_app; [by apply Hex|].
    unfold is_finished in Hp. by apply bool_decide_eq_true in Hp.
  - destruct (call_entry_pending x σ Hp) as [Hs _].
    destruct (call_entry_queue callback_run x σ) as (He & _).
    unfold tidy. rewrite Hs, He, fmap_app. simpl. split.
    + apply NoDup_app. split_and!; [done| |apply NoDup_singleton].
      intros y Hy ->%list_elem_of_singleton.
      unfold is_finished in Hp. by apply bool_decide_eq_false in Hp.
    + intros y [Hy| ->%list_elem_of_singleton]%elem_of_app.
      * apply elem_of_app. left. by apply Hex.
      * apply elem_of_app. right. by apply list_elem_of_singleton.
Qed.

Lemma drain_tidy fuel σ r σ' :
  drain callback_run fuel σ = Some (r, σ') -> tidy σ -> tidy σ'.
Proof.
  revert σ. induction fuel as [|fuel IH]; intros σ H Hin; simpl in H; [done|].
  destruct (_thread_notifier_queue σ) as [|x q] eqn:Hq; [by simplify_eq|].
  assert (tidy (set_queue q σ)) as H1 by done.
  apply (call_entry_tidy x) in H1.
  destruct (call_entry callback_run x (set_queue q σ)) as [[[]|e] σ3];
    simpl in H1; [by eapply IH|by simplify_eq].
Qed.

Lemma notifier_step_tidy ev σ σ' :
  notifier_step callback_run ev σ = Some σ' -> tidy σ -> tidy σ'.
Proof.
  destruct ev as [x|fuel|new purge|p o]; simpl; intros H Hin.
  - by simplify_eq.
  - unfold _thread_notifier_run_queue in H.
    destruct (drain callback_run fuel _) as [[[[]|e] σ1]|] eqn:Hd;
      simpl in H; simplify_eq; by eapply drain_tidy.
  - simplify_eq. unfold create_thread_notifier_pipe.
    destruct (_ && _); [done|]. by destruct purge.
  - simplify_eq. by apply settle_tidy.
Qed.

(** In every state the notifier can reach, no promise has been given two
    outcomes and the promise of every entry that has been called is
    terminal.  Calling an entry whose promise is pending gives the promise
    what the callback returned or raised, KeyboardInterrupt and SystemExit
    included, and only these two go on to the caller of the loop.  Calling
    an entry whose promise is terminal already gives it nothing: the
    exception of the second settlement leaves the loop, whatever the
    callback did. *)
Theorem every_call_settles_its_promise σ :
  notifier_reachable callback_run σ ->
  NoDup (settled σ).*1 /\
  (forall x, x ∈ executed σ -> e_in_progress x.2 ∈ (settled σ).*1) /\
  (forall x, is_finished (e_in_progress x.2) σ = false ->
     settled (call_entry callback_run x σ).2 = settled σ ++ [outcome_of x] /\
     (call_entry callback_run x σ).1
       = passed_on (callback_run (e_callback x.2)).1) /\
  (forall x, is_finished (e_in_progress x.2) σ = true ->
     (call_entry callback_run x σ).1 = Exc RuntimeError /\
     settled (call_entry callback_run x σ).2 = settled σ).
Proof.
  intros Hreach.
  assert (tidy σ) as [Hnd Hex].
  { induction Hreach as [|ev σ σ' _ IH H]; [split; [constructor|]|].
    - intros x Hx. by apply elem_of_nil in Hx.
    - by eapply notifier_step_tidy. }
  split_and!; [done|done|intros x; apply call_entry_pending|].
  intros x Hp. rewrite call_entry_terminal by done. simpl. split; [done|].
  by destruct (enqueue_all_settled (callback_run (e_callback x.2)).2
                 (log_executed x σ)) as [-> _].
Qed.

(** Queued work with a pipe in place means a byte to read in the pipe. *)
Definition awake (σ : notifier) : Prop :=
  _thread_notifier_pipe σ = true -> _thread_notifier_queue σ <> [] ->
  0 < pipe_bytes σ.

(** Whether the event came back without an exception: a run of the queue
    can be left by KeyboardInterrupt or SystemExit of a callback, or by
    the second settlement of a promise. *)
Definition returned (ev : notifier_event) (σ : notifier) : bool :=
  match ev with
  | NRunQueue fuel =>
      match _thread_notifier_run_queue callback_run fuel σ with
      | Some (Exc _, _) => false
      | _ => true
      end
  | _ => true
  end.

(** The events played as long as every run of the queue returns. *)
Fixpoint steady_run (evs : list notifier_event) (σ : notifier)
  : option notifier :=
  match evs with
  | [] => Some σ
  | ev :: evs' =>
      if returned ev σ
      then σ' ← notifier_step callback_run ev σ; steady_run evs' σ'
      else None
  end.

(** The states reached while every run of the queue returned. *)
Definition steady (σ : notifier) : Prop :=
  exists evs, steady_run evs notifier_init = Some σ.

Lemma steady_run_plays evs σ σ' :
  steady_run evs σ = Some σ' -> notifier_run callback_run evs σ = Some σ'.
Proof.
  revert σ. induction evs as [|ev evs IH]; intros σ H; simpl in *; [done|].
  destruct (returned ev σ); [|done].
  destruct (notifier_step callback_run ev σ) as [σ1|]; [|done].
  simpl in *. by apply IH.
Qed.

Lemma steady_reachable σ : steady σ -> notifier_reachable callback_run σ.
Proof.
  intros [evs H]. apply steady_run_plays in H.
  eapply notifier_run_reachable; [apply nreach_init|exact H].
Qed.

Lemma drain_returns fuel σ σ' :
  drain callback_run fuel σ = Some (Ret tt, σ') ->
  _thread_notifier_queue σ' = [].
Proof.
  intros H. by apply drain_runs_queue_order in H as (_ & _ & _ & _ & ->).
Qed.

Lemma notifier_step_awake ev σ σ' :
  returned ev σ = true ->
  notifier_step callback_run ev σ = Some σ' -> awake σ -> awake σ'.
Proof.
  destruct ev as [x|fuel|new purge|p o]; simpl; intros Hret H Hin.
  - simplify_eq. unfold awake in *. simpl. intros Hp _. rewrite Hp.
    destruct (_thread_notifier_queue σ) as [|y q] eqn:Hq; simpl.
    + lia.
    + rewrite bool_decide_eq_false_2.
      * simpl. apply Hin; [done|]. first [done|by rewrite Hq].
      * rewrite length_app. simpl. lia.
  - unfold _thread_notifier_run_queue in *.
    destruct (drain callback_run fuel _) as [[[[]|e] σ1]|] eqn:Hd; [|done..].
    apply drain_returns in Hd.
    simpl in H. simplify_eq. intros _ Hne. done.
  - simplify_eq. unfold create_thread_notifier_pipe.
    destruct (negb (_thread_notifier_pipe σ) && negb new) eqn:E; [done|].
    unfold awake. simpl. intros _ Hne.
    rewrite bool_decide_eq_false_2; [lia|done].
  - simplify_eq.
    destruct (settle_same_queues p o σ) as (Hq & Hp & Hb & _).
    unfold awake. by rewrite Hq, Hp, Hb.
Qed.

Lemma steady_run_awake evs σ σ' :
  steady_run evs σ = Some σ' -> awake σ -> awake σ'.
Proof.
  revert σ. induction evs as [|ev evs IH]; intros σ H Hin; simpl in H.
  - by simplify_eq.
  - destruct (returned ev σ) eqn:Hret; [|done].
    destruct (notifier_step callback_run ev σ) as [σ1|] eqn:E; [|done].
    simpl in H. eapply IH; [exact H|]. by eapply notifier_step_awake.
Qed.

Lemma steady_awake σ : steady σ -> awake σ.
Proof.
  intros [evs H]. eapply steady_run_awake; [exact H|]. intros [=].
Qed.

(** As long as every run of the queue has returned, no wake-up is lost:
    with a pipe in place, queued entries mean there is a byte in the pipe
    for the main loop to read. *)
Theorem queued_work_keeps_pipe_readable σ :
  steady σ ->
  _thread_notifier_pipe σ = true -> _thread_notifier_queue σ <> [] ->
  0 < pipe_bytes σ.
Proof.
  intros Hs. by apply steady_awake.
Qed.

(** Tickets are handed out in increasing order and a drain only adds
    entries with new tickets to what is called or waiting. *)
Definition unseen (n : nat) (σ : notifier) : Prop :=
  n < enqueues σ /\ n ∉ handled σ.

Lemma unseen_same n σ σ' : same_queues σ σ' -> unseen n σ -> unseen n σ'.
Proof.
  intros (Hq & _ & _ & Hn & He). unfold unseen, handled.
  by rewrite Hq, Hn, He.
Qed.

Lemma enqueue_unseen n x σ :
  unseen n σ -> unseen n (_thread_notifier_queue_callback x σ).
Proof.
  intros [Hlt Hout]. unfold unseen, handled in *. simpl. split; [lia|].
  rewrite app_assoc, fmap_app. simpl.
  rewrite elem_of_app, list_elem_of_singleton. intros [?|?]; [done|lia].
Qed.

Lemma enqueue_all_unseen n xs σ :
  unseen n σ ->
  unseen n (foldl (fun s y => _thread_notifier_queue_callback y s) σ xs).
Proof.
  revert σ. induction xs as [|x xs IH]; intros σ H; simpl; [done|].
  by apply IH, enqueue_unseen.
Qed.

Lemma drain_unseen n fuel σ r σ' :
  drain callback_run fuel σ = Some (r, σ') -> unseen n σ -> unseen n σ'.
Proof.
  revert σ. induction fuel as [|fuel IH]; intros σ H Hin; simpl in H; [done|].
  destruct (_thread_notifier_queue σ) as [|x q] eqn:Hq; [by simplify_eq|].
  assert (unseen n (log_executed x (set_queue q σ))) as H1.
  { unfold unseen, handled in *. simpl. rewrite Hq in Hin.
    by rewrite <-app_assoc. }
  assert (unseen n (call_entry callback_run x (set_queue q σ)).2) as H3.
  { eapply unseen_same; [apply call_entry_same_queues|].
    by apply enqueue_all_unseen. }
  destruct (call_entry callback_run x (set_queue q σ)) as [[[]|e] σ3];
    simpl in H3; [by eapply IH|by simplify_eq].
Qed.

Lemma notifier_step_unseen n ev σ σ' :
  notifier_step callback_run ev σ = Some σ' -> unseen n σ -> unseen n σ'.
Proof.
  destruct ev as [x|fuel|new purge|p o]; simpl; intros H Hin.
  - simplify_eq. by apply enqueue_unseen.
  - unfold _thread_notifier_run_queue in H.
    destruct (drain callback_run fuel _) as [[[[]|e] σ1]|] eqn:Hd;
      simpl in H; simplify_eq; by eapply drain_unseen.
  - simplify_eq. unfold create_thread_notifier_pipe.
    destruct (_ && _); [done|]. destruct purge; [|done].
    destruct Hin as [Hlt Hout]. unfold unseen, handled in *. simpl.
    split; [done|]. rewrite app_nil_r. intros Hx. apply Hout.
    rewrite fmap_app, elem_of_app. by left.
  - simplify_eq. eapply unseen_same; [apply settle_same_queues|done].
Qed.

Lemma sorted_lt_NoDup (l : list nat) : StronglySorted lt l -> NoDup l.
Proof.
  induction 1 as [|x l Hs IH Hx]; constructor; [|done].
  intros Hin. rewrite Forall_forall in Hx. apply Hx in Hin. lia.
Qed.

(** [create_thread_notifier_pipe] with [purge] set, when it gets as far
    as making a pipe, discards the queued work for good: an entry that
    was waiting at that moment is not called by any later run of the
    queue. *)
Theorem purged_entries_never_run σ new x evs σ' :
  notifier_reachable callback_run σ ->
  new = true \/ _thread_notifier_pipe σ = true ->
  x ∈ _thread_notifier_queue σ ->
  notifier_run callback_run evs (create_thread_notifier_pipe new true σ) = Some σ' ->
  (x.1 ∉ (executed σ').*1) /\ (x.1 ∉ (_thread_notifier_queue σ').*1).
Proof.
  intros Hreach Hnew Hx Hrun.
  apply (notifier_reachable_in_order callback_run) in Hreach as [Hs Hb].
  assert (unseen x.1 (create_thread_notifier_pipe new true σ)) as H0.
  { unfold create_thread_notifier_pipe.
    assert (negb (_thread_notifier_pipe σ) && negb new = false) as ->.
    { destruct Hnew as [-> | ->]; [by rewrite andb_false_r|done]. }
    unfold unseen, handled in *. simpl. rewrite app_nil_r. split.
    - rewrite Forall_forall in Hb. apply Hb.
      rewrite fmap_app, elem_of_app. right. by apply list_elem_of_fmap_2.
    - apply sorted_lt_NoDup in Hs. rewrite fmap_app in Hs.
      apply NoDup_app in Hs as (_ & Hdisj & _). intros Hin.
      apply (Hdisj _ Hin). by apply list_elem_of_fmap_2. }
  assert (unseen x.1 σ') as [_ Hout].
  { revert Hrun H0. generalize (create_thread_notifier_pipe new true σ).
    induction evs as [|ev evs IH]; intros τ Hrun H0; simpl in Hrun.
    - by simplify_eq.
    - destruct (notifier_step callback_run ev τ) as [τ1|] eqn:E; [|done].
      simpl in Hrun. eapply IH; [exact Hrun|]. by eapply notifier_step_unseen. }
  unfold handled in Hout. rewrite fmap_app, elem_of_app in Hout.
  split; intros Hin; apply Hout; auto.
Qed.

(** [wakeup()]: write a byte when there is a pipe and nothing is queued. *)
Definition wakeup (σ : notifier) : notifier :=
  if _thread_notifier_pipe σ
     && bool_decide (length (_thread_notifier_queue σ) = 0)
  then set_pipe true (S (pipe_bytes σ)) σ
  else σ.

(** As long as every run of the queue has returned, with a pipe in place
    [wakeup()] leaves a byte to read in the pipe, whether it wrote one or
    work was queued already; it touches neither the queue nor what has
    run. *)
Theorem wakeup_leaves_pipe_readable σ :
  steady σ ->
  _thread_notifier_pipe σ = true ->
  0 < pipe_bytes (wakeup σ) /\
  _thread_notifier_pipe (wakeup σ) = true /\
  _thread_notifier_queue (wakeup σ) = _thread_notifier_queue σ /\
  executed (wakeup σ) = executed σ /\
  (_thread_notifier_queue σ <> [] -> wakeup σ = σ).
Proof.
  intros Hs Hp.
  pose proof (steady_awake σ Hs) as Haw.
  unfold wakeup. rewrite Hp. simpl.
  destruct (_thread_notifier_queue σ) as [|x q] eqn:Hq; simpl.
  - split_and!; [lia|done|done|done|done].
  - split_and!; [|done|done|done|done].
    apply Haw; [done|]. by rewrite Hq.
Qed.

End NotifierMore.

(** * Closed instances, continued *)

(** Four jobs, the first one called, the second removed. *)
Definition sample_service : list server_event :=
  [JCreate 0; JCreate 5; JCreate 0; JCreate 5; JRun].

Lemma no_job_called_twice_witness :
  exists σ,
    server_run sample_service server_init = Some σ /\
    called σ = [Job 1 5] /\ jobs σ = [Job 3 5; Job 0 0; Job 2 0] /\
    NoDup (called σ ++ jobs σ).
Proof.
  eexists. split; [vm_compute; reflexivity|].
  split; [vm_compute; reflexivity|]. split; [vm_compute; reflexivity|].
  apply no_job_called_twice.
  apply (server_run_reachable sample_service server_init).
  - apply sreach_init.
  - vm_compute. reflexivity.
Defined.

Lemma removed_job_never_called_witness :
  exists σ σ',
    server_run sample_service server_init = Some σ /\
    Job 3 5 ∈ jobs σ /\
    server_run [JRun; JCreate 5; JRun; JRun] (remove (Job 3 5) σ) = Some σ' /\
    called σ' = [Job 1 5; Job 0 0; Job 4 5; Job 2 0] /\
    (Job 3 5 ∉ jobs σ') /\ (Job 3 5 ∉ called σ').
Proof.
  eexists _, _. split; [vm_compute; reflexivity|].
  assert (Job 3 5 ∈ [Job 3 5; Job 0 0; Job 2 0]) as Hin by apply list_elem_of_here.
  split; [exact Hin|]. split; [vm_compute; reflexivity|].
  split; [vm_compute; reflexivity|].
  apply (removed_job_never_called
           {| jobs := [Job 3 5; Job 0 0; Job 2 0]; created := 4;
              called := [Job 1 5] |}
           (Job 3 5) [JRun; JCreate 5; JRun; JRun]).
  - apply (server_run_reachable sample_service server_init).
    + apply sreach_init.
    + vm_compute. reflexivity.
  - exact Hin.
  - vm_compute. reflexivity.
Defined.

(** A queued entry whose promise is settled by its holder before the
    main loop gets to it, behind an entry whose callback raises and in
    front of one more entry. *)
Definition sample_resettled : list notifier_event :=
  [NCreatePipe true false;
   NEnqueue (Entry 1 10); NEnqueue (Entry 3 30); NEnqueue (Entry 4 40);
   NSettle 30 (Returns PyNone); NRunQueue 10].

Lemma every_call_settles_its_promise_witness :
  exists σ,
    notifier_run sample_callback sample_resettled notifier_init = Some σ /\
    (executed σ).*2 = [Entry 1 10; Entry 3 30] /\
    settled σ = [(30, Returns PyNone); (10, Raises (UserError 1))] /\
    NoDup (settled σ).*1 /\
    (forall x, x ∈ executed σ -> e_in_progress x.2 ∈ (settled σ).*1) /\
    (forall x, is_finished (e_in_progress x.2) σ = false ->
       settled (call_entry sample_callback x σ).2
         = settled σ ++ [outcome_of sample_callback x] /\
       (call_entry sample_callback x σ).1
         = passed_on (sample_callback (e_callback x.2)).1) /\
    (forall x, is_finished (e_in_progress x.2) σ = true ->
       (call_entry sample_callback x σ).1 = Exc RuntimeError /\
       settled (call_entry sample_callback x σ).2 = settled σ).
Proof.
  eexists. split; [vm_compute; reflexivity|].
  split; [vm_compute; reflexivity|].
  split; [vm_compute; reflexivity|].
  apply (every_call_settles_its_promise sample_callback).
  apply (notifier_run_reachable sample_callback sample_resettled notifier_init).
  - apply nreach_init.
  - vm_compute. reflexivity.
Defined.

(** The run of the queue in [sample_resettled] is left by the exception
    of the second settlement: the entry behind stays queued, the byte in
    the pipe has been read, and the next enqueue writes none. *)
Lemma second_settlement_loses_wakeup :
  exists σ0 σ σ',
    notifier_run sample_callback
      [NCreatePipe true false;
       NEnqueue (Entry 1 10); NEnqueue (Entry 3 30); NEnqueue (Entry 4 40);
       NSettle 30 (Returns PyNone)] notifier_init = Some σ0 /\
    _thread_notifier_run_queue sample_callback 10 σ0
      = Some (Exc RuntimeError, σ) /\
    _thread_notifier_pipe σ = true /\
    (_thread_notifier_queue σ).*2 = [Entry 4 40] /\
    pipe_bytes σ = 0 /\
    steady sample_callback σ0 /\
    notifier_step sample_callback (NEnqueue (Entry 5 50)) σ = Some σ' /\
    (_thread_notifier_queue σ').*2 = [Entry 4 40; Entry 5 50] /\
    pipe_bytes σ' = 0.
Proof.
  eexists _, _, _. split; [vm_compute; reflexivity|].
  split; [vm_compute; reflexivity|].
  split; [reflexivity|]. split; [reflexivity|]. split; [reflexivity|].
  split.
  { exists [NCreatePipe true false;
            NEnqueue (Entry 1 10); NEnqueue (Entry 3 30); NEnqueue (Entry 4 40);
            NSettle 30 (Returns PyNone)].
    vm_compute. reflexivity. }
  split; [vm_compute; reflexivity|]. split; reflexivity.
Qed.

(** Two entries queued after two runs of the queue that returned. *)
Definition sample_backlog : list notifier_event :=
  [NCreatePipe true false; NEnqueue (Entry 1 10); NEnqueue (Entry 3 30)].

Definition sample_later_backlog : list notifier_event :=
  sample_wakeups ++ [NEnqueue (Entry 3 60); NEnqueue (Entry 4 70)].

Lemma queued_work_keeps_pipe_readable_witness :
  exists σ,
    steady_run sample_callback sample_later_backlog notifier_init = Some σ /\
    (executed σ).*2 =
      [Entry 1 10; Entry 2 20; Entry 3 30; Entry 5 50; Entry 4 40] /\
    _thread_notifier_pipe σ = true /\
    (_thread_notifier_queue σ).*2 = [Entry 3 60; Entry 4 70] /\
    0 < pipe_bytes σ.
Proof.
  eexists. split; [vm_compute; reflexivity|].
  split; [reflexivity|]. split; [reflexivity|]. split; [reflexivity|].
  apply (queued_work_keeps_pipe_readable sample_callback).
  - exists sample_later_backlog. vm_compute. reflexivity.
  - reflexivity.
  - discriminate.
Defined.

Lemma purged_entries_never_run_witness :
  exists σ σ',
    notifier_run sample_callback sample_backlog notifier_init = Some σ /\
    (1, Entry 3 30) ∈ _thread_notifier_queue σ /\
    notifier_run sample_callback [NEnqueue (Entry 4 40); NRunQueue 5]
      (create_thread_notifier_pipe true true σ) = Some σ' /\
    (executed σ').*2 = [Entry 4 40] /\
    (1 ∉ (executed σ').*1) /\ (1 ∉ (_thread_notifier_queue σ').*1).
Proof.
  eexists _, _. split; [vm_compute; reflexivity|].
  assert ((1, Entry 3 30) ∈ [(0, Entry 1 10); (1, Entry 3 30)]) as Hin.
  { apply list_elem_of_further, list_elem_of_here. }
  split; [exact Hin|]. split; [vm_compute; reflexivity|].
  split; [vm_compute; reflexivity|].
  apply (purged_entries_never_run sample_callback
           {| _thread_notifier_queue := [(0, Entry 1 10); (1, Entry 3 30)];
              _thread_notifier_pipe := true; pipe_bytes := 1; enqueues := 2;
              executed := []; settled := [] |}
           true (1, Entry 3 30) [NEnqueue (Entry 4 40); NRunQueue 5]).
  - apply (notifier_run_reachable sample_callback sample_backlog notifier_init).
    + apply nreach_init.
    + vm_compute. reflexivity.
  - by left.
  - exact Hin.
  - vm_compute. reflexivity.
Defined.

Lemma wakeup_leaves_pipe_readable_witness :
  exists σ,
    steady_run sample_callback (sample_backlog ++ [NRunQueue 5])
      notifier_init = Some σ /\
    _thread_notifier_pipe σ = true /\ pipe_bytes σ = 0 /\
    0 < pipe_bytes (wakeup σ) /\
    _thread_notifier_pipe (wakeup σ) = true /\
    _thread_notifier_queue (wakeup σ) = _thread_notifier_queue σ /\
    executed (wakeup σ) = executed σ /\
    (_thread_notifier_queue σ <> [] -> wakeup σ = σ).
Proof.
  eexists. split; [vm_compute; reflexivity|].
  split; [reflexivity|]. split; [reflexivity|].
  apply (wakeup_leaves_pipe_readable sample_callback).
  - exists (sample_backlog ++ [NRunQueue 5]). vm_compute. reflexivity.
  - reflexivity.
Defined.

End Thread.
